(** * Astrix: edge repair, array passes and mesh-parameter input

    A shallow embedding of the batch passes of Astrix that the mesh core
    relies on: [SingleEdgeRepair] / [Delaunay::EdgeRepair] (edgerepair.cu),
    [Array::SetToValue] (value.cu), [Array::SelectLargerThan] and the flag
    stage of [Array::SelectWhereDifferent] (select.cu),
    [Simulation::CalcPotential] (potential.cu), [Simulation::CalcShockSensor]
    with the vertex-index reduction of [CalcShockSensorSingle] (blendx.cu),
    [Simulation::SetInitial] for one and three equations (initial.cu) and
    [MeshParameter::ReadFromFile] (readfromfile.cpp).

    C arrays are lists; a read or write outside the list is a fault and is
    modelled by [None].  Machine integers are [Z] with the wrap-around of the
    32-bit types written out where the source does arithmetic on them. *)

From Stdlib Require Import ZArith Lia Bool String Ascii.
From stdpp Require Import base tactics numbers option list.

Open Scope Z_scope.
Set Warnings "-clear-no-such-hyp".

(** ** Machine integers *)

(** [unsigned int]: arithmetic modulo 2^32. *)
Definition u32 (z : Z) : Z := z mod 4294967296.

(** [int]: the value an [unsigned int] takes when stored into an [int]. *)
Definition s32 (z : Z) : Z := (z + 2147483648) mod 4294967296 - 2147483648.

(** ** Arrays as lists with integer subscripts *)

(** [p[i]] read: a fault when [i] is negative or past the end. *)
Definition rd {A} (p : list A) (i : Z) : option A :=
  if decide (0 <= i) then p !! Z.to_nat i else None.

(** [p[i] = v] write. *)
Definition wr {A} (p : list A) (i : Z) (v : A) : option (list A) :=
  if decide (0 <= i < Z.of_nat (length p)) then Some (<[Z.to_nat i := v]> p)
  else None.

(** [for (i = lo; i < hi; i++) body(i)]: [n] iterations starting at [i]. *)
Fixpoint for_count {S} (n : nat) (i : Z) (body : Z -> S -> option S) (s : S)
  : option S :=
  match n with
  | O => Some s
  | Datatypes.S n' => s' ← body i s; for_count n' (i + 1) body s'
  end.

Definition for_lt {S} (lo hi : Z) (body : Z -> S -> option S) (s : S)
  : option S :=
  for_count (Z.to_nat (hi - lo)) lo body s.

(** CUDA vector types. *)
Record int2 := mkInt2 { x2 : Z; y2 : Z }.
Record int3 := mkInt3 { x3 : Z; y3 : Z; z3 : Z }.

(** ** Kernel launches

    A kernel is run by [gridDim.x * blockDim.x] threads.  Each thread is a
    loop whose body reads memory into registers ([k_load]) and then writes
    memory from them ([k_store]); [k_next] is the loop control: it yields
    the work item of the next iteration together with the control state
    after that iteration, or [None] when the thread returns.  A launch
    interleaves the threads' loads and stores as a schedule dictates. *)

Section Grid.
Context {Ctl Item Reg Mem : Type}.

Record kernel := Kernel {
  k_next : Ctl -> option (Item * Ctl);
  k_load : Item -> Mem -> option Reg;
  k_store : Item -> Reg -> Mem -> option Mem
}.

Record thread := Thread {
  ctl : Ctl;
  reg : option (Item * Reg)
}.

Variable K : kernel.

(** One load or one store of a thread; a returned thread idles. *)
Definition thread_step (th : thread) (m : Mem) : option (thread * Mem) :=
  match reg th with
  | Some (it, r) =>
      m' ← k_store K it r m; Some (Thread (ctl th) None, m')
  | None =>
      match k_next K (ctl th) with
      | None => Some (th, m)
      | Some (it, c') => r ← k_load K it m; Some (Thread c' (Some (it, r)), m)
      end
  end.

(** The schedule names the thread that moves next. *)
Fixpoint run (sched : list nat) (pool : list thread) (m : Mem)
  : option (list thread * Mem) :=
  match sched with
  | [] => Some (pool, m)
  | k :: sched' =>
      match pool !! k with
      | None => run sched' pool m
      | Some th =>
          '(th', m') ← thread_step th m;
          run sched' (<[k := th']> pool) m'
      end
  end.

Definition returned (th : thread) : bool :=
  match reg th, k_next K (ctl th) with
  | None, None => true
  | _, _ => false
  end.

(** Kernel launch followed by [cudaDeviceSynchronize]: the memory once
    every thread has returned.  [None] when a thread faults, or when the
    schedule stops before all threads have returned. *)
Definition launch (inits : list Ctl) (sched : list nat) (m : Mem)
  : option Mem :=
  '(pool, m') ← run sched ((fun c => Thread c None) <$> inits) m;
  if forallb returned pool then Some m' else None.

(** The same loop body executed by one host thread. *)
Definition exec (it : Item) (m : Mem) : option Mem :=
  r ← k_load K it m; k_store K it r m.
End Grid.

Arguments kernel : clear implicits.
Arguments thread : clear implicits.

(** Launch geometry [<<<nBlocks, nThreads>>>]. *)
Record dim := Dim { gridDim_x : Z; blockDim_x : Z }.

(** [blockIdx.x*blockDim.x + threadIdx.x] for every thread of the grid. *)
Definition thread_ids (g : dim) : list Z :=
  b ← seqZ 0 (gridDim_x g);
  t ← seqZ 0 (blockDim_x g);
  [u32 (b * blockDim_x g + t)].

(** [gridDim.x*blockDim.x]. *)
Definition grid_stride (g : dim) : Z := u32 (gridDim_x g * blockDim_x g).

(** ** Edge repair (edgerepair.cu) *)

(** The reads of [SingleEdgeRepair]: the entry of edge [i] and, for each
    slot that is not the sentinel, the substitute and the edges of the
    triangle it names.  The result is the pair [(t1, t2)] held in registers
    before the final two writes. *)
Definition SingleEdgeRepair_read (i : Z) (pTsub : list Z) (pTe : list int3)
    (pEt : list int2) : option int2 :=
  et ← rd pEt i;
  let t1 := x2 et in
  let t2 := y2 et in
  t1 ← (if decide (t1 ≠ -1) then
          tS1 ← rd pTsub t1;
          te ← rd pTe t1;
          let e1 := x3 te in
          let e2 := y3 te in
          let e3 := z3 te in
          Some (if decide (i ≠ e1 ∧ i ≠ e2 ∧ i ≠ e3) then tS1 else t1)
        else Some t1);
  t2 ← (if decide (t2 ≠ -1) then
          tS2 ← rd pTsub t2;
          te ← rd pTe t2;
          let e1 := x3 te in
          let e2 := y3 te in
          let e3 := z3 te in
          Some (if decide (i ≠ e1 ∧ i ≠ e2 ∧ i ≠ e3) then tS2 else t2)
        else Some t2);
  Some (mkInt2 t1 t2).

(** [pEt[i].x = t1; pEt[i].y = t2]. *)
Definition SingleEdgeRepair (i : Z) (pTsub : list Z) (pTe : list int3)
    (pEt : list int2) : option (list int2) :=
  r ← SingleEdgeRepair_read i pTsub pTe pEt;
  wr pEt i r.

(** [int i = tid; while (i < N) { ...; i += gridDim.x*blockDim.x; }] *)
Definition stride_next (N stride : Z) (i : Z) : option (Z * Z) :=
  if decide (i < N) then Some (i, s32 (i + stride)) else None.

Definition devEdgeRepair (g : dim) (nEdge : Z) (pTsub : list Z)
    (pTe : list int3) : kernel Z Z int2 (list int2) :=
  Kernel (stride_next nEdge (grid_stride g))
         (fun i pEt => SingleEdgeRepair_read i pTsub pTe pEt)
         (fun i r pEt => wr pEt i r).

Definition devEdgeRepairLimit (g : dim) (nEdgeCheck : Z) (pEnC : list Z)
    (pTsub : list Z) (pTe : list int3) : kernel Z Z (Z * int2) (list int2) :=
  Kernel (stride_next nEdgeCheck (grid_stride g))
         (fun i pEt =>
            e ← rd pEnC i;
            r ← SingleEdgeRepair_read e pTsub pTe pEt;
            Some (e, r))
         (fun i er pEt => wr pEt er.1 er.2).

(** The arrays of [Connectivity] and [Delaunay] that edge repair touches. *)
Record Connectivity := mkConnectivity {
  triangleEdges : list int3;
  edgeTriangles : list int2
}.

Record Delaunay := mkDelaunay {
  cudaFlag : Z;
  triangleSubstitute : list Z
}.

(** [Delaunay::EdgeRepair].  [edgeNeedsChecking = None] is the null
    pointer.  [g] and [sched] are the launch geometry that
    [cudaOccupancyMaxPotentialBlockSize] picks and the order in which the
    device runs the threads; the host path ignores both. *)
Definition EdgeRepair (g : dim) (sched : list nat) (D : Delaunay)
    (connectivity : Connectivity) (edgeNeedsChecking : option (list Z))
    (nEdgeCheck : Z) : option (Delaunay * Connectivity) :=
  let nEdge := Z.of_nat (length (edgeTriangles connectivity)) in
  let pTe := triangleEdges connectivity in
  let pEt := edgeTriangles connectivity in
  let pTsub := triangleSubstitute D in
  pEt' ← match edgeNeedsChecking with
         | None =>
             if decide (cudaFlag D = 1) then
               launch (devEdgeRepair g nEdge pTsub pTe)
                      (s32 <$> thread_ids g) sched pEt
             else
               for_lt 0 nEdge (fun i pEt => SingleEdgeRepair i pTsub pTe pEt)
                      pEt
         | Some pEnC =>
             if decide (cudaFlag D = 1) then
               launch (devEdgeRepairLimit g nEdgeCheck pEnC pTsub pTe)
                      (s32 <$> thread_ids g) sched pEt
             else
               for_lt 0 nEdgeCheck
                      (fun i pEt =>
                         e ← rd pEnC i; SingleEdgeRepair e pTsub pTe pEt)
                      pEt
         end;
  Some (D, mkConnectivity pTe pEt').

(** ** Vertex-index reduction (blendx.cu, [CalcShockSensorSingle]) *)

(** [while (a >= nVertex) a -= nVertex;]  The loop is run with fuel: [None]
    means that it has not terminated within [fuel] iterations. *)
Fixpoint while_ge (fuel : nat) (nVertex a : Z) : option Z :=
  match fuel with
  | O => None
  | S fuel' =>
      if decide (a >= nVertex) then while_ge fuel' nVertex (s32 (a - nVertex))
      else Some a
  end.

(** [while (a < 0) a += nVertex;] *)
Fixpoint while_neg (fuel : nat) (nVertex a : Z) : option Z :=
  match fuel with
  | O => None
  | S fuel' =>
      if decide (a < 0) then while_neg fuel' nVertex (s32 (a + nVertex))
      else Some a
  end.

(** The two loops as applied to one vertex index. *)
Definition reduce_index (fuel : nat) (nVertex a : Z) : option Z :=
  a ← while_ge fuel nVertex a; while_neg fuel nVertex a.

(** Lines 60-68: the three vertices of triangle [i], reduced into range. *)
Definition triangle_vertices (fuel : nat) (i nVertex : Z) (pTv : list int3)
  : option (Z * Z * Z) :=
  tv ← rd pTv i;
  let a := x3 tv in
  let b := y3 tv in
  let c := z3 tv in
  a ← while_ge fuel nVertex a;
  b ← while_ge fuel nVertex b;
  c ← while_ge fuel nVertex c;
  a ← while_neg fuel nVertex a;
  b ← while_neg fuel nVertex b;
  c ← while_neg fuel nVertex c;
  Some (a, b, c).

(** ** The [Array] class (value.cu, select.cu) *)

Module Array.

(** [vec] is the storage the array works on: [hostVec] when
    [cudaFlag = 0], [deviceVec] when [cudaFlag = 1].  Element [i] of
    dimension [n] lives at [vec[i + n*realSize]]. *)
Record Array (T : Type) := mk {
  nDims : Z;
  cudaFlag : Z;
  size : Z;
  realSize : Z;
  vec : list T
}.
Arguments mk {T}.
Arguments nDims {T}.
Arguments cudaFlag {T}.
Arguments size {T}.
Arguments realSize {T}.
Arguments vec {T}.

Definition set_vec {T} (A : Array T) (v : list T) : Array T :=
  mk (nDims A) (cudaFlag A) (size A) (realSize A) v.

(** *** value.cu *)

(** Loop control of a [devSetToValue] thread.  The control state is
    [(tid, n, i)]: thread [tid] is in round [n] of the outer loop, about
    to test [i < endIndex].  [fuel] is the number of rounds left. *)
Fixpoint devSetToValue_next (startIndex endIndex stride : Z)
    (fuel : nat) (tid n i : Z) : option ((Z * Z) * (Z * Z * Z)) :=
  match fuel with
  | O => None
  | S fuel' =>
      if decide (i < endIndex) then
        Some ((n, i), (tid, n, u32 (i + stride)))
      else
        devSetToValue_next startIndex endIndex stride fuel'
          tid (n + 1) (u32 (tid + startIndex))
  end.

(** The work item [(n, i)] is the assignment
    [array[i + n*realSize] = value]. *)
Definition devSetToValue {T} (g : dim) (value : T)
    (startIndex endIndex realSize nDims : Z)
  : kernel (Z * Z * Z) (Z * Z) unit (list T) :=
  Kernel (fun c => devSetToValue_next startIndex endIndex (grid_stride g)
                     (Z.to_nat (nDims - c.1.2)) c.1.1 c.1.2 c.2)
         (fun _ _ => Some tt)
         (fun ni _ array => wr array (u32 (ni.2 + ni.1 * realSize)) value).

(** The threads of a [devSetToValue] launch as they enter the kernel. *)
Definition devSetToValue_init (g : dim) (startIndex : Z)
  : list (Z * Z * Z) :=
  (fun tid => (tid, 0, u32 (tid + startIndex))) <$> thread_ids g.

(** The host loops of [SetToValue]. *)
Definition hostSetToValue {T} (value : T)
    (startIndex endIndex realSize nDims : Z) (hostVec : list T)
  : option (list T) :=
  for_lt 0 nDims
    (fun n hostVec =>
       for_lt startIndex endIndex
         (fun i hostVec => wr hostVec (u32 (i + n * realSize)) value)
         hostVec)
    hostVec.

(** [SetToValue(value, startIndex, endIndex)]. *)
Definition SetToValue {T} (g : dim) (sched : list nat) (value : T)
    (startIndex endIndex : Z) (A : Array T) : option (Array T) :=
  v ← (if decide (cudaFlag A = 1) then
         launch (devSetToValue g value startIndex endIndex
                   (s32 (realSize A)) (s32 (nDims A)))
                (devSetToValue_init g startIndex) sched (vec A)
       else Some (vec A));
  v ← (if decide (cudaFlag A = 0) then
         hostSetToValue value startIndex endIndex (realSize A) (nDims A) v
       else Some v);
  Some (set_vec A v).

(** [SetToValue(value)]: the whole array. *)
Definition SetToValue1 {T} (g : dim) (sched : list nat) (value : T)
    (A : Array T) : option (Array T) :=
  v ← (if decide (cudaFlag A = 1) then
         launch (devSetToValue g value 0 (size A)
                   (s32 (realSize A)) (s32 (nDims A)))
                (devSetToValue_init g 0) sched (vec A)
       else Some (vec A));
  v ← (if decide (cudaFlag A = 0) then
         hostSetToValue value 0 (size A) (realSize A) (nDims A) v
       else Some v);
  Some (set_vec A v).

(** *** select.cu *)

Definition devSelectLargerThan (g : dim) (N : Z) (data : list Z)
    (value : Z) : kernel Z Z Z (list Z) :=
  Kernel (stride_next N (grid_stride g))
         (fun i _ =>
            d ← rd data i;
            let ret := 0 in
            Some (if decide (d > value) then 1 else ret))
         (fun i ret pSelectFlag => wr pSelectFlag i ret).

Definition hostSelectLargerThan (size : Z) (hostVec : list Z) (value : Z)
    (pSelectFlag : list Z) : option (list Z) :=
  for_lt 0 size
    (fun i pSelectFlag =>
       d ← rd hostVec i;
       let ret := 0 in
       wr pSelectFlag i (if decide (d > value) then 1 else ret))
    pSelectFlag.

(** Modelled from the spec: [Array::ExclusiveScan], which select.cu calls
    and does not define.  It stores in [result] the exclusive
    prefix sums of the first [size] elements and returns their total
    (the "count" of a select with compacted output). *)
Fixpoint exclusive_scan (acc : Z) (l : list Z) : list Z * Z :=
  match l with
  | [] => ([], acc)
  | f :: l' =>
      let '(s, total) := exclusive_scan (acc + f) l' in (acc :: s, total)
  end.

Definition ExclusiveScan (A result : Array Z) : Z * Array Z :=
  let '(s, total) := exclusive_scan 0 (take (Z.to_nat (size A)) (vec A)) in
  (total, set_vec result (s ++ drop (length s) (vec result))).

(** Modelled from the spec: [Array::Compact], which select.cu calls and
    does not define ("exclusive-scan-based compaction given a
    keep-mask").  In every dimension, element [i] with [keepFlag[i] = 1]
    moves to position [keepFlagScan[i]]; the array then has size
    [nKeep]. *)
Definition Compact {T} (nKeep : Z) (keepFlag keepFlagScan : Array Z)
    (A : Array T) : option (Array T) :=
  v ← for_lt 0 (nDims A)
        (fun n dst =>
           for_lt 0 (size A)
             (fun i dst =>
                f ← rd (vec keepFlag) i;
                if decide (f = 1) then
                  s ← rd (vec keepFlagScan) i;
                  x ← rd (vec A) (i + n * realSize A);
                  wr dst (s + n * realSize A) x
                else Some dst)
             dst)
        (vec A);
  Some (mk (nDims A) (cudaFlag A) nKeep (realSize A) v).

(** [SelectLargerThan(value, A)] on an [Array<int>].  [fresh1] and
    [fresh2] are the contents of the two scratch arrays as allocated. *)
Definition SelectLargerThan {S} (g : dim) (sched : list nat)
    (fresh1 fresh2 : list Z) (value : Z) (self : Array Z) (A : Array S)
  : option (Z * Array Z * Array S) :=
  let selectFlag := mk 1 (cudaFlag self) (size self) (size self) fresh1 in
  let pSelectFlag := vec selectFlag in
  let selectFlagScan := mk 1 (cudaFlag self) (size self) (size self) fresh2 in
  pSelectFlag ←
    (if decide (cudaFlag self = 1) then
       launch (devSelectLargerThan g (s32 (size self)) (vec self) value)
              (s32 <$> thread_ids g) sched pSelectFlag
     else hostSelectLargerThan (size self) (vec self) value pSelectFlag);
  let selectFlag := set_vec selectFlag pSelectFlag in
  let '(nSelect, selectFlagScan) := ExclusiveScan selectFlag selectFlagScan in
  self' ← Compact nSelect selectFlag selectFlagScan self;
  A' ← Compact nSelect selectFlag selectFlagScan A;
  Some (nSelect, self', A').

Section SelectWhereDifferent.
Context {T : Type} `{EqDecision T}.

Definition devSelectWhereDifferent (g : dim) (N : Z)
    (data compareData : list T) : kernel Z Z Z (list Z) :=
  Kernel (stride_next N (grid_stride g))
         (fun i _ =>
            d ← rd data i;
            c ← rd compareData i;
            let ret := 0 in
            Some (if decide (d ≠ c) then 1 else ret))
         (fun i ret pSelectFlag => wr pSelectFlag i ret).

Definition hostSelectWhereDifferent (size : Z) (hostVec compareData : list T)
    (pSelectFlag : list Z) : option (list Z) :=
  for_lt 0 size
    (fun i pSelectFlag =>
       d ← rd hostVec i;
       c ← rd compareData i;
       let ret := 0 in
       wr pSelectFlag i (if decide (d ≠ c) then 1 else ret))
    pSelectFlag.

(** [SelectWhereDifferent(A, B)] up to the scan: the flags that the
    kernel or the host loop leaves in the scratch array, whose contents
    as allocated are [fresh1]. *)
Definition SelectWhereDifferent_flags (g : dim) (sched : list nat)
    (fresh1 : list Z) (self A : Array T) : option (list Z) :=
  let selectFlag := mk 1 (cudaFlag self) (size self) (size self) fresh1 in
  let pSelectFlag := vec selectFlag in
  let compareData := vec A in
  if decide (cudaFlag self = 1) then
    launch (devSelectWhereDifferent g (s32 (size self)) (vec self)
              compareData)
           (s32 <$> thread_ids g) sched pSelectFlag
  else hostSelectWhereDifferent (size self) (vec self) compareData
         pSelectFlag.
End SelectWhereDifferent.
End Array.

(** ** Vertex removal cycles (coarsen.h declares [Coarsen::RemoveVertices]) *)

Module Coarsen.
Section Cycles.
(** The mesh state and the two halves of one removal cycle: finding the
    removal candidates (their number) and removing them. *)
Context {Mesh : Type}.
Variable FlagVertexRemove : Mesh -> Z.
Variable Remove : Mesh -> Mesh.

(** Modelled from the spec: the body of [Coarsen::RemoveVertices], which
    coarsen.h declares and does not define.  "Loop up to a
    caller-supplied cycle cap; stops early once no removal candidates
    remain."  [fuel] is the number of cycles still allowed; the result
    lists, for every cycle performed, the number of candidates it
    found. *)
Fixpoint cycles (fuel : nat) (mesh : Mesh) : list Z * Mesh :=
  match fuel with
  | O => ([], mesh)
  | S fuel' =>
      let nRemove := FlagVertexRemove mesh in
      if decide (nRemove = 0) then ([nRemove], mesh)
      else
        let '(log, mesh') := cycles fuel' (Remove mesh) in
        (nRemove :: log, mesh')
  end.

Definition RemoveVertices (maxCycle : Z) (mesh : Mesh) : list Z * Mesh :=
  cycles (Z.to_nat maxCycle) mesh.
End Cycles.
End Coarsen.

(** ** Reading the mesh parameters (readfromfile.cpp) *)

Module MeshParameter.

(** [std::isspace] in the "C" locale. *)
Definition isspace (c : ascii) : bool :=
  let n := nat_of_ascii c in
  Nat.eqb n 32 || (Nat.leb 9 n && Nat.leb n 13).

Fixpoint skipws (s : string) : string :=
  match s with
  | EmptyString => EmptyString
  | String c s' => if isspace c then skipws s' else s
  end.

(** The characters up to the next white space, and what follows them. *)
Fixpoint word (s : string) : string * string :=
  match s with
  | EmptyString => (EmptyString, EmptyString)
  | String c s' =>
      if isspace c then (EmptyString, s)
      else let '(w, rest) := word s' in (String c w, rest)
  end.

(** [iss >> w] into a fresh string: the word read and the remaining
    input.  When no word is left, [w] stays empty. *)
Definition extract (iss : string) : string * string := word (skipws iss).

Fixpoint mem (c : ascii) (set : string) : bool :=
  match set with
  | EmptyString => false
  | String d set' => if Ascii.eqb c d then true else mem c set'
  end.

(** [s.find_first_not_of(set)]; [None] is [std::string::npos]. *)
Fixpoint find_first_not_of (s set : string) : option nat :=
  match s with
  | EmptyString => None
  | String c s' =>
      if mem c set then S <$> find_first_not_of s' set else Some O
  end.

Definition empty (s : string) : bool :=
  match s with EmptyString => true | _ => false end.

Inductive ProblemDefinition :=
| PROBLEM_LINEAR | PROBLEM_CYL | PROBLEM_KH | PROBLEM_RIEMANN | PROBLEM_SOD
| PROBLEM_BLAST | PROBLEM_VORTEX | PROBLEM_NOH | PROBLEM_SOURCE
| PROBLEM_UNDEFINED.

Section ReadFromFile.
(** [meshparameter.h] and [definitions.h] are not modelled: the
    floating-point type [real], the result type of [atof] and the
    arithmetic on them are parameters, and so is [CheckValidity]
    ([false] when it throws). *)
Context {double real : Type}.
Variable atof : string -> double.
Variable to_int : double -> Z.
Variable to_real : double -> real.
Variable of_int : Z -> real.
Variables rsub rmul rdiv : real -> real -> real.
Variable r0565 : real.

Record MeshParameter := mk {
  problemDef : ProblemDefinition;
  equivalentPointsX : Z;
  minx : real;
  maxx : real;
  miny : real;
  maxy : real;
  periodicFlagX : Z;
  periodicFlagY : Z;
  adaptiveMeshFlag : Z;
  maxRefineFactor : Z;
  nStepSkipRefine : Z;
  nStepSkipCoarsen : Z;
  minError : real;
  maxError : real;
  qualityBound : real;
  structuredFlag : Z;
  baseResolution : real;
  maxResolution : real
}.

(** Assignment to one field. *)
Definition set_problemDef (v : ProblemDefinition) (mp : MeshParameter)
  : MeshParameter :=
  mk v (equivalentPointsX mp) (minx mp) (maxx mp) (miny mp) (maxy mp)
     (periodicFlagX mp) (periodicFlagY mp) (adaptiveMeshFlag mp)
     (maxRefineFactor mp) (nStepSkipRefine mp) (nStepSkipCoarsen mp)
     (minError mp) (maxError mp) (qualityBound mp) (structuredFlag mp)
     (baseResolution mp) (maxResolution mp).
Definition set_equivalentPointsX (v : Z) (mp : MeshParameter)
  : MeshParameter :=
  mk (problemDef mp) v (minx mp) (maxx mp) (miny mp) (maxy mp)
     (periodicFlagX mp) (periodicFlagY mp) (adaptiveMeshFlag mp)
     (maxRefineFactor mp) (nStepSkipRefine mp) (nStepSkipCoarsen mp)
     (minError mp) (maxError mp) (qualityBound mp) (structuredFlag mp)
     (baseResolution mp) (maxResolution mp).
Definition set_minx (v : real) (mp : MeshParameter)
  : MeshParameter :=
  mk (problemDef mp) (equivalentPointsX mp) v (maxx mp) (miny mp) (maxy mp)
     (periodicFlagX mp) (periodicFlagY mp) (adaptiveMeshFlag mp)
     (maxRefineFactor mp) (nStepSkipRefine mp) (nStepSkipCoarsen mp)
     (minError mp) (maxError mp) (qualityBound mp) (structuredFlag mp)
     (baseResolution mp) (maxResolution mp).
Definition set_maxx (v : real) (mp : MeshParameter)
  : MeshParameter :=
  mk (problemDef mp) (equivalentPointsX mp) (minx mp) v (miny mp) (maxy mp)
     (periodicFlagX mp) (periodicFlagY mp) (adaptiveMeshFlag mp)
     (maxRefineFactor mp) (nStepSkipRefine mp) (nStepSkipCoarsen mp)
     (minError mp) (maxError mp) (qualityBound mp) (structuredFlag mp)
     (baseResolution mp) (maxResolution mp).
Definition set_miny (v : real) (mp : MeshParameter)
  : MeshParameter :=
  mk (problemDef mp) (equivalentPointsX mp) (minx mp) (maxx mp) v (maxy mp)
     (periodicFlagX mp) (periodicFlagY mp) (adaptiveMeshFlag mp)
     (maxRefineFactor mp) (nStepSkipRefine mp) (nStepSkipCoarsen mp)
     (minError mp) (maxError mp) (qualityBound mp) (structuredFlag mp)
     (baseResolution mp) (maxResolution mp).
Definition set_maxy (v : real) (mp : MeshParameter)
  : MeshParameter :=
  mk (problemDef mp) (equivalentPointsX mp) (minx mp) (maxx mp) (miny mp) v
     (periodicFlagX mp) (periodicFlagY mp) (adaptiveMeshFlag mp)
     (maxRefineFactor mp) (nStepSkipRefine mp) (nStepSkipCoarsen mp)
     (minError mp) (maxError mp) (qualityBound mp) (structuredFlag mp)
     (baseResolution mp) (maxResolution mp).
Definition set_periodicFlagX (v : Z) (mp : MeshParameter)
  : MeshParameter :=
  mk (problemDef mp) (equivalentPointsX mp) (minx mp) (maxx mp) (miny mp)
     (maxy mp) v (periodicFlagY mp) (adaptiveMeshFlag mp)
     (maxRefineFactor mp) (nStepSkipRefine mp) (nStepSkipCoarsen mp)
     (minError mp) (maxError mp) (qualityBound mp) (structuredFlag mp)
     (baseResolution mp) (maxResolution mp).
Definition set_periodicFlagY (v : Z) (mp : MeshParameter)
  : MeshParameter :=
  mk (problemDef mp) (equivalentPointsX mp) (minx mp) (maxx mp) (miny mp)
     (maxy mp) (periodicFlagX mp) v (adaptiveMeshFlag mp)
     (maxRefineFactor mp) (nStepSkipRefine mp) (nStepSkipCoarsen mp)
     (minError mp) (maxError mp) (qualityBound mp) (structuredFlag mp)
     (baseResolution mp) (maxResolution mp).
Definition set_adaptiveMeshFlag (v : Z) (mp : MeshParameter)
  : MeshParameter :=
  mk (problemDef mp) (equivalentPointsX mp) (minx mp) (maxx mp) (miny mp)
     (maxy mp) (periodicFlagX mp) (periodicFlagY mp) v (maxRefineFactor mp)
     (nStepSkipRefine mp) (nStepSkipCoarsen mp) (minError mp) (maxError mp)
     (qualityBound mp) (structuredFlag mp) (baseResolution mp)
     (maxResolution mp).
Definition set_maxRefineFactor (v : Z) (mp : MeshParameter)
  : MeshParameter :=
  mk (problemDef mp) (equivalentPointsX mp) (minx mp) (maxx mp) (miny mp)
     (maxy mp) (periodicFlagX mp) (periodicFlagY mp) (adaptiveMeshFlag mp) v
     (nStepSkipRefine mp) (nStepSkipCoarsen mp) (minError mp) (maxError mp)
     (qualityBound mp) (structuredFlag mp) (baseResolution mp)
     (maxResolution mp).
Definition set_nStepSkipRefine (v : Z) (mp : MeshParameter)
  : MeshParameter :=
  mk (problemDef mp) (equivalentPointsX mp) (minx mp) (maxx mp) (miny mp)
     (maxy mp) (periodicFlagX mp) (periodicFlagY mp) (adaptiveMeshFlag mp)
     (maxRefineFactor mp) v (nStepSkipCoarsen mp) (minError mp)
     (maxError mp) (qualityBound mp) (structuredFlag mp) (baseResolution mp)
     (maxResolution mp).
Definition set_nStepSkipCoarsen (v : Z) (mp : MeshParameter)
  : MeshParameter :=
  mk (problemDef mp) (equivalentPointsX mp) (minx mp) (maxx mp) (miny mp)
     (maxy mp) (periodicFlagX mp) (periodicFlagY mp) (adaptiveMeshFlag mp)
     (maxRefineFactor mp) (nStepSkipRefine mp) v (minError mp) (maxError mp)
     (qualityBound mp) (structuredFlag mp) (baseResolution mp)
     (maxResolution mp).
Definition set_minError (v : real) (mp : MeshParameter)
  : MeshParameter :=
  mk (problemDef mp) (equivalentPointsX mp) (minx mp) (maxx mp) (miny mp)
     (maxy mp) (periodicFlagX mp) (periodicFlagY mp) (adaptiveMeshFlag mp)
     (maxRefineFactor mp) (nStepSkipRefine mp) (nStepSkipCoarsen mp) v
     (maxError mp) (qualityBound mp) (structuredFlag mp) (baseResolution mp)
     (maxResolution mp).
Definition set_maxError (v : real) (mp : MeshParameter)
  : MeshParameter :=
  mk (problemDef mp) (equivalentPointsX mp) (minx mp) (maxx mp) (miny mp)
     (maxy mp) (periodicFlagX mp) (periodicFlagY mp) (adaptiveMeshFlag mp)
     (maxRefineFactor mp) (nStepSkipRefine mp) (nStepSkipCoarsen mp)
     (minError mp) v (qualityBound mp) (structuredFlag mp)
     (baseResolution mp) (maxResolution mp).
Definition set_qualityBound (v : real) (mp : MeshParameter)
  : MeshParameter :=
  mk (problemDef mp) (equivalentPointsX mp) (minx mp) (maxx mp) (miny mp)
     (maxy mp) (periodicFlagX mp) (periodicFlagY mp) (adaptiveMeshFlag mp)
     (maxRefineFactor mp) (nStepSkipRefine mp) (nStepSkipCoarsen mp)
     (minError mp) (maxError mp) v (structuredFlag mp) (baseResolution mp)
     (maxResolution mp).
Definition set_structuredFlag (v : Z) (mp : MeshParameter)
  : MeshParameter :=
  mk (problemDef mp) (equivalentPointsX mp) (minx mp) (maxx mp) (miny mp)
     (maxy mp) (periodicFlagX mp) (periodicFlagY mp) (adaptiveMeshFlag mp)
     (maxRefineFactor mp) (nStepSkipRefine mp) (nStepSkipCoarsen mp)
     (minError mp) (maxError mp) (qualityBound mp) v (baseResolution mp)
     (maxResolution mp).
Definition set_baseResolution (v : real) (mp : MeshParameter)
  : MeshParameter :=
  mk (problemDef mp) (equivalentPointsX mp) (minx mp) (maxx mp) (miny mp)
     (maxy mp) (periodicFlagX mp) (periodicFlagY mp) (adaptiveMeshFlag mp)
     (maxRefineFactor mp) (nStepSkipRefine mp) (nStepSkipCoarsen mp)
     (minError mp) (maxError mp) (qualityBound mp) (structuredFlag mp) v
     (maxResolution mp).
Definition set_maxResolution (v : real) (mp : MeshParameter)
  : MeshParameter :=
  mk (problemDef mp) (equivalentPointsX mp) (minx mp) (maxx mp) (miny mp)
     (maxy mp) (periodicFlagX mp) (periodicFlagY mp) (adaptiveMeshFlag mp)
     (maxRefineFactor mp) (nStepSkipRefine mp) (nStepSkipCoarsen mp)
     (minError mp) (maxError mp) (qualityBound mp) (structuredFlag mp)
     (baseResolution mp) v.

Variable CheckValidity : MeshParameter -> bool.

(** [!secondWord.empty() &&
     secondWord.find_first_not_of(set) == std::string::npos] *)
Definition only_chars (secondWord set : string) : bool :=
  negb (empty secondWord) &&
  match find_first_not_of secondWord set with
  | None => true
  | Some _ => false
  end.

(** [if (firstWord == name) { if (only_chars) field = atof(...); }]:
    the source spells this block out once per numeric parameter;
    [store] is the assignment to the parameter's field. *)
Definition assign (firstWord secondWord name set : string)
    (store : double -> MeshParameter -> MeshParameter)
    (mp : MeshParameter) : MeshParameter :=
  if String.eqb firstWord name then
    if only_chars secondWord set
    then store (atof secondWord) mp else mp
  else mp.

(** The body of the [getline] loop. *)
Definition ReadLine (line : string) (mp : MeshParameter) : MeshParameter :=
  let '(firstWord, iss) := extract line in
  let '(secondWord, _) := extract iss in
  let mp :=
    if String.eqb firstWord "problemDefinition" then
      let mp := if String.eqb secondWord "LIN"
                then set_problemDef PROBLEM_LINEAR mp else mp in
      let mp := if String.eqb secondWord "CYL"
                then set_problemDef PROBLEM_CYL mp else mp in
      let mp := if String.eqb secondWord "KH"
                then set_problemDef PROBLEM_KH mp else mp in
      let mp := if String.eqb secondWord "RIEMANN"
                then set_problemDef PROBLEM_RIEMANN mp else mp in
      let mp := if String.eqb secondWord "SOD"
                then set_problemDef PROBLEM_SOD mp else mp in
      let mp := if String.eqb secondWord "BLAST"
                then set_problemDef PROBLEM_BLAST mp else mp in
      let mp := if String.eqb secondWord "VORTEX"
                then set_problemDef PROBLEM_VORTEX mp else mp in
      let mp := if String.eqb secondWord "NOH"
                then set_problemDef PROBLEM_NOH mp else mp in
      let mp := if String.eqb secondWord "SOURCE"
                then set_problemDef PROBLEM_SOURCE mp else mp in
      mp
    else mp in
  let mp := assign firstWord secondWord "equivalentPointsX" "0123456789"
              (fun d => set_equivalentPointsX (to_int d)) mp in
  let mp := assign firstWord secondWord "minX" "0123456789-.e"
              (fun d => set_minx (to_real d)) mp in
  let mp := assign firstWord secondWord "maxX" "0123456789-.e"
              (fun d => set_maxx (to_real d)) mp in
  let mp := assign firstWord secondWord "minY" "0123456789-.e"
              (fun d => set_miny (to_real d)) mp in
  let mp := assign firstWord secondWord "maxY" "0123456789-.e"
              (fun d => set_maxy (to_real d)) mp in
  let mp := assign firstWord secondWord "periodicFlagX" "01"
              (fun d => set_periodicFlagX (to_int d)) mp in
  let mp := assign firstWord secondWord "periodicFlagY" "01"
              (fun d => set_periodicFlagY (to_int d)) mp in
  let mp := assign firstWord secondWord "adaptiveMeshFlag" "01"
              (fun d => set_adaptiveMeshFlag (to_int d)) mp in
  let mp := assign firstWord secondWord "maxRefineFactor" "0123456789"
              (fun d => set_maxRefineFactor (to_int d)) mp in
  let mp := assign firstWord secondWord "nStepSkipRefine" "0123456789"
              (fun d => set_nStepSkipRefine (to_int d)) mp in
  let mp := assign firstWord secondWord "nStepSkipCoarsen" "0123456789"
              (fun d => set_nStepSkipCoarsen (to_int d)) mp in
  let mp := assign firstWord secondWord "minError" "0123456789.-e"
              (fun d => set_minError (to_real d)) mp in
  let mp := assign firstWord secondWord "maxError" "0123456789.-e"
              (fun d => set_maxError (to_real d)) mp in
  let mp := assign firstWord secondWord "qualityBound" "0123456789.-e"
              (fun d => set_qualityBound (to_real d)) mp in
  let mp := assign firstWord secondWord "structuredFlag" "012"
              (fun d => set_structuredFlag (to_int d)) mp in
  mp.

Inductive exception := OpenFailed | NotValid.

(** [inFile = None]: the file cannot be opened; otherwise its lines. *)
Definition ReadFromFile (inFile : option (list string))
    (mp : MeshParameter) : exception + MeshParameter :=
  match inFile with
  | None => inl OpenFailed
  | Some lines =>
      let mp := fold_left (fun mp line => ReadLine line mp) lines mp in
      if CheckValidity mp then
        let nx := of_int (s32 (equivalentPointsX mp - 1)) in
        let mp :=
          set_baseResolution
            (rmul (rmul r0565 (rdiv (rsub (maxx mp) (minx mp)) nx))
                  (rdiv (rsub (maxx mp) (minx mp)) nx)) mp in
        let mp :=
          set_maxResolution
            (rdiv (baseResolution mp)
                  (of_int (s32 (maxRefineFactor mp * maxRefineFactor mp))))
            mp in
        inr mp
      else inl NotValid
  end.
End ReadFromFile.
End MeshParameter.

(** ** Simulation passes (potential.cu, blendx.cu, initial.cu) *)

Module Simulation.

(** The floating-point type [real] with its literals and operations.
    What they compute is not modelled: the passes are embedded over any
    interpretation of them.  [lit] is a literal by its text, [M_PI] the
    constant of math.h, [Sq] the square of inlineMath.h, [rsqrtf] the
    reciprocal square root of CUDA, [rmax] and [rmin] are [max] and
    [min].

    An instance is the arithmetic of the unit that runs the pass.  The
    accelerator and the host need not round alike ([rsqrtf], [sqrt],
    [cos], [exp], contracted sums), so the two paths of
    [CalcShockSensor] and of [SetInitial] are not compared with each
    other: what is proved of them is proved of one path at a time, its
    bounds, its frame, and that its result does not depend on the
    schedule. *)
Class RealOps (real : Type) := {
  lit : string -> real;
  M_PI : real;
  of_int : Z -> real;
  radd : real -> real -> real;
  rsub : real -> real -> real;
  rmul : real -> real -> real;
  rdiv : real -> real -> real;
  rneg : real -> real;
  sqrt : real -> real;
  rsqrtf : real -> real;
  cos : real -> real;
  exp : real -> real;
  fabs : real -> real;
  Sq : real -> real;
  rmax : real -> real -> real;
  rmin : real -> real -> real;
  rle : real -> real -> bool;
  rlt : real -> real -> bool
}.

Declare Scope real_scope.
Delimit Scope real_scope with R.
Infix "+" := radd : real_scope.
Infix "-" := rsub : real_scope.
Infix "*" := rmul : real_scope.
Infix "/" := rdiv : real_scope.
Notation "- x" := (rneg x) : real_scope.
Infix "<=?" := rle : real_scope.
Infix "<?" := rlt : real_scope.
Notation "x >? y" := (rlt y x) : real_scope.

(** CUDA vector types of [real]. *)
Record real2 (real : Type) := mkReal2 { rx2 : real; ry2 : real }.
Record real3 (real : Type) :=
  mkReal3 { rx3 : real; ry3 : real; rz3 : real }.
Record real4 (real : Type) :=
  mkReal4 { rx4 : real; ry4 : real; rz4 : real; rw4 : real }.
Arguments mkReal2 {real}.
Arguments rx2 {real}.
Arguments ry2 {real}.
Arguments mkReal3 {real}.
Arguments rx3 {real}.
Arguments ry3 {real}.
Arguments rz3 {real}.
Arguments mkReal4 {real}.
Arguments rx4 {real}.
Arguments ry4 {real}.
Arguments rz4 {real}.
Arguments rw4 {real}.

(** The conservation law a [Simulation] is instantiated for. *)
Inductive ConservationLaw :=
| CL_ADVECT | CL_BURGERS | CL_CART_ISO | CL_CART_EULER.

Definition ProblemDefinition := MeshParameter.ProblemDefinition.

Global Instance ProblemDefinition_eq_dec : EqDecision ProblemDefinition.
Proof. solve_decision. Defined.
Global Instance ConservationLaw_eq_dec : EqDecision ConservationLaw.
Proof. solve_decision. Defined.

(** [for (int i = lo; i < hi; i++) s = body(i, s)] without memory access. *)
Definition for_pure {S} (lo hi : Z) (body : Z -> S -> S) (s : S) : S :=
  foldl (fun s i => body i s) s (seqZ lo (hi - lo)).

Section Passes.
Context {real : Type} `{!RealOps real}.
Local Open Scope real_scope.

(** *** potential.cu *)

Definition CalcPotentialSingle (i : Z) (problemDef : ProblemDefinition)
    (pVc : list (real2 real)) (pVpot : list real) : option (list real) :=
  let zero := lit "0.0" in
  let tenth := lit "0.1" in
  pVpot ← wr pVpot i zero;
  if decide (problemDef = MeshParameter.PROBLEM_SOURCE) then
    c ← rd pVc i;
    wr pVpot i (tenth * ry2 c)
  else Some pVpot.

(** The value a thread holds for [pVpot[i]] before its last write. *)
Definition CalcPotentialSingle_read (i : Z) (problemDef : ProblemDefinition)
    (pVc : list (real2 real)) : option real :=
  let zero := lit "0.0" in
  let tenth := lit "0.1" in
  if decide (problemDef = MeshParameter.PROBLEM_SOURCE) then
    c ← rd pVc i;
    Some (tenth * ry2 c)
  else Some zero.

(** [int n = tid; while (n < nVertex) { ...; n += blockDim.x*gridDim.x; }]
    The two writes of [CalcPotentialSingle] go to the cell of the thread's
    own vertex; the kernel steps are the read of [pVc] and the write that
    stays. *)
Definition devCalcPotential (g : dim) (nVertex : Z)
    (problemDef : ProblemDefinition) (pVc : list (real2 real))
  : kernel Z Z real (list real) :=
  Kernel (stride_next nVertex (u32 (blockDim_x g * gridDim_x g)))
         (fun n _ => CalcPotentialSingle_read n problemDef pVc)
         (fun n v vertPot => wr vertPot n v).

(** [Simulation::CalcPotential]: [nVertex] is [mesh->GetNVertex()], [pVc]
    the vertex coordinates of the mesh, [p] the problem definition of the
    simulation parameters. *)
Definition CalcPotential (g : dim) (sched : list nat) (cudaFlag : Z)
    (nVertex : Z) (p : ProblemDefinition) (pVc : list (real2 real))
    (vertPot : list real) : option (list real) :=
  if decide (cudaFlag = 1) then
    launch (devCalcPotential g nVertex p pVc) (s32 <$> thread_ids g) sched
           vertPot
  else
    for_lt 0 nVertex (fun i vertPot => CalcPotentialSingle i p pVc vertPot)
           vertPot.

(** *** blendx.cu *)

(** Lines 71-82: velocity and pressure-corrected velocity at vertex [a]. *)
Definition vertex_velocity (a : Z) (pState : list (real4 real))
    (pVp : list real) (G G1 : real) : option (real * real) :=
  let half := lit "0.5" in
  let one := lit "1.0" in
  let tenth := lit "0.1" in
  s ← rd pState a;
  let dens := rx4 s in
  let momx := ry4 s in
  let momy := rz4 s in
  let ener := rw4 s in
  let id1 := one / dens in
  let u1 := momx in
  let v1 := momy in
  vp ← rd pVp a;
  let p1 := G1 * (ener - half * id1 * (u1 * u1 + v1 * v1) - dens * vp) in
  let u1 := u1 + tenth * sqrt (G * p1 * id1) in
  Some (u1, v1).

(** [CalcShockSensorSingle] for four equations: the value written to
    [pShockSensor[i]].  [fuel] bounds the iterations of each of the
    index-reduction loops. *)
Definition CalcShockSensorSingle_read4 (fuel : nat) (i nVertex : Z)
    (pTv : list int3) (pTl : list (real3 real))
    (pTn1 pTn2 pTn3 : list (real2 real)) (iDv : real)
    (pState : list (real4 real)) (G G1 : real) (pVp : list real)
  : option real :=
  let zero := lit "0.0" in
  let half := lit "0.5" in
  let one := lit "1.0" in
  '(a, b, c) ← triangle_vertices fuel i nVertex pTv;
  '(u1, v1) ← vertex_velocity a pState pVp G G1;
  '(u2, v2) ← vertex_velocity b pState pVp G G1;
  '(u3, v3) ← vertex_velocity c pState pVp G G1;
  tl ← rd pTl i;
  let tl1 := rx3 tl in
  let tl2 := ry3 tl in
  let tl3 := rz3 tl in
  let s := half * (tl1 + tl2 + tl3) in
  let iA := rsqrtf (s * (s - tl1) * (s - tl2) * (s - tl3)) in
  let sc := - iDv * iA in
  n1 ← rd pTn1 i;
  n2 ← rd pTn2 i;
  n3 ← rd pTn3 i;
  let nx1 := rx2 n1 * tl1 in
  let ny1 := ry2 n1 * tl1 in
  let nx2 := rx2 n2 * tl2 in
  let ny2 := ry2 n2 * tl2 in
  let nx3 := rx2 n3 * tl3 in
  let ny3 := ry2 n3 * tl3 in
  let divuc := u1 * nx1 + v1 * ny1 + u2 * nx2 + v2 * ny2 + u3 * nx3
               + v3 * ny3 in
  let sc := rmax (sc * divuc) zero in
  Some (rmin one (sc * sc * rsqrtf iA)).

(** The version for three equations "just says shock". *)
Definition CalcShockSensorSingle_read3 : option real := Some (lit "1.0").

(** The version for one equation. *)
Definition CalcShockSensorSingle_read1 (CL : ConservationLaw) (fuel : nat)
    (i nVertex : Z) (pTv : list int3) (pTl : list (real3 real))
    (pTn1 pTn2 pTn3 : list (real2 real)) (iDv : real) (pState : list real)
  : option real :=
  if decide (CL = CL_BURGERS) then
    '(a, b, c) ← triangle_vertices fuel i nVertex pTv;
    u1 ← rd pState a;
    u2 ← rd pState b;
    u3 ← rd pState c;
    tl ← rd pTl i;
    let tl1 := rx3 tl in
    let tl2 := ry3 tl in
    let tl3 := rz3 tl in
    n1 ← rd pTn1 i;
    n2 ← rd pTn2 i;
    n3 ← rd pTn3 i;
    let nx1 := rx2 n1 * tl1 in
    let ny1 := ry2 n1 * tl1 in
    let nx2 := rx2 n2 * tl2 in
    let ny2 := ry2 n2 * tl2 in
    let nx3 := rx2 n3 * tl3 in
    let ny3 := ry2 n3 * tl3 in
    let divuc := u1 * nx1 + u1 * ny1 + u2 * nx2 + u2 * ny2 + u3 * nx3
                 + u3 * ny3 in
    let s := lit "0.5" * (tl1 + tl2 + tl3) in
    let iA := rsqrtf (s * (s - tl1) * (s - tl2) * (s - tl3)) in
    let sc := rmax (lit "0.0") (- lit "0.5" * divuc * iA * iDv) in
    Some (rmin (lit "1.0") (sc * sc * rsqrtf iA))
  else Some (lit "1.0").

(** The overloads of [CalcShockSensorSingle] are told apart by the type
    of the state vector. *)
Class ShockSensor (realNeq : Type) :=
  CalcShockSensorSingle_read :
    ConservationLaw -> nat -> Z -> Z -> list int3 -> list (real3 real) ->
    list (real2 real) -> list (real2 real) -> list (real2 real) -> real ->
    list realNeq -> real -> real -> list real -> option real.

Global Instance ShockSensor_real4 : ShockSensor (real4 real) :=
  fun CL fuel i nVertex pTv pTl pTn1 pTn2 pTn3 iDv pState G G1 pVp =>
    CalcShockSensorSingle_read4 fuel i nVertex pTv pTl pTn1 pTn2 pTn3 iDv
      pState G G1 pVp.
Global Instance ShockSensor_real3 : ShockSensor (real3 real) :=
  fun CL fuel i nVertex pTv pTl pTn1 pTn2 pTn3 iDv pState G G1 pVp =>
    CalcShockSensorSingle_read3.
Global Instance ShockSensor_real : ShockSensor real :=
  fun CL fuel i nVertex pTv pTl pTn1 pTn2 pTn3 iDv pState G G1 pVp =>
    CalcShockSensorSingle_read1 CL fuel i nVertex pTv pTl pTn1 pTn2 pTn3 iDv
      pState.

Section ShockSensorPass.
Context {realNeq : Type} `{!ShockSensor realNeq}.

(** [pShockSensor[i] = ...] after the reads. *)
Definition CalcShockSensorSingle (CL : ConservationLaw) (fuel : nat)
    (i nVertex : Z) (pTv : list int3) (pTl : list (real3 real))
    (pTn1 pTn2 pTn3 : list (real2 real)) (iDv : real)
    (pState : list realNeq) (pShockSensor : list real) (G G1 : real)
    (pVp : list real) : option (list real) :=
  v ← CalcShockSensorSingle_read CL fuel i nVertex pTv pTl pTn1 pTn2 pTn3
        iDv pState G G1 pVp;
  wr pShockSensor i v.

(** [unsigned int i = tid; while (i < nTriangle) { ...;
    i += gridDim.x*blockDim.x; }]: the comparison is one of unsigned
    numbers, and [i] is passed on as an [int]. *)
Definition devCalcShockSensor (CL : ConservationLaw) (fuel : nat) (g : dim)
    (nVertex nTriangle : Z) (pTv : list int3) (pTl : list (real3 real))
    (pTn1 pTn2 pTn3 : list (real2 real)) (iDv : real)
    (pState : list realNeq) (G G1 : real) (pVp : list real)
  : kernel Z Z real (list real) :=
  Kernel (fun i =>
            if decide (i < u32 nTriangle) then
              Some (s32 i, u32 (i + u32 (gridDim_x g * blockDim_x g)))
            else None)
         (fun i _ =>
            CalcShockSensorSingle_read CL fuel i nVertex pTv pTl pTn1 pTn2
              pTn3 iDv pState G G1 pVp)
         (fun i v pShockSensor => wr pShockSensor i v).

(** [Simulation::CalcShockSensor].  [minVel] and [maxVel] are what
    [FindMinMaxVelocity] returns, [pShockSensor] is the storage of
    [triangleShockSensor] once set to size [nTriangle]. *)
Definition CalcShockSensor (CL : ConservationLaw) (fuel : nat) (g : dim)
    (sched : list nat) (cudaFlag : Z) (minVel maxVel : real)
    (nVertex nTriangle : Z) (pTv : list int3)
    (pTn1 pTn2 pTn3 : list (real2 real)) (pTl : list (real3 real))
    (pState : list realNeq) (pVp : list real) (pShockSensor : list real)
    (G : real) : option (list real) :=
  if decide (cudaFlag = 1) then
    launch (devCalcShockSensor CL fuel g nVertex nTriangle pTv pTl pTn1 pTn2
              pTn3 (lit "1.0" / (maxVel - minVel)) pState G
              (G - lit "1.0") pVp)
           (thread_ids g) sched pShockSensor
  else
    for_lt 0 nTriangle
      (fun i pShockSensor =>
         CalcShockSensorSingle CL fuel i nVertex pTv pTl pTn1 pTn2 pTn3
           (lit "1.0" / (maxVel - minVel)) pState pShockSensor G
           (G - lit "1.0") pVp)
      pShockSensor.
End ShockSensorPass.

(** *** initial.cu *)

(** [SetInitialSingle] for three equations: the state written to
    [state[n]]. *)
Definition SetInitialSingle_read3 (n : Z) (pVc : list (real2 real))
    (problemDef : ProblemDefinition) (pVpot : list real) (G time Px Py : real)
  : option (real3 real) :=
  let zero := lit "0.0" in
  let one := lit "1.0" in
  let five := lit "5.0" in
  let half := lit "0.5" in
  vc ← rd pVc n;
  let vertX := rx2 vc in
  let vertY := ry2 vc in
  let dens := lit "1.0" in
  let momx := lit "0.0" in
  let momy := lit "0.0" in
  let '(dens, momx, momy) :=
    if decide (problemDef = MeshParameter.PROBLEM_VORTEX) then
      let x := vertX in
      let y := vertY in
      let vx := one in
      let vy := zero in
      let xc := five + vx * time in
      let yc := five in
      let beta := five in
      let r := sqrt (Sq (x - xc) + Sq (y - yc)) + lit "1.0e-10" in
      let dens := exp (- Sq (beta / M_PI) * exp (one - r * r) / lit "8.0") in
      let vx := vx - half * (y - yc) * beta * exp (half - half * r * r)
                     / M_PI in
      let vy := vy + half * (x - xc) * beta * exp (half - half * r * r)
                     / M_PI in
      let momx := lit "1.0e-10" + dens * vx in
      let momy := lit "2.0e-10" + dens * vy in
      (dens, momx, momy)
    else (dens, momx, momy) in
  let '(dens, momx, momy) :=
    if decide (problemDef = MeshParameter.PROBLEM_SOURCE) then
      let x := vertX in
      let y := vertY in
      let xc := five in
      let yc := five in
      let beta := five in
      let r := sqrt (Sq (x - xc) + Sq (y - yc)) + lit "1.0e-10" in
      let vx := - half * (y - yc) * beta * exp (half - half * r * r)
                / M_PI in
      let vy := half * (x - xc) * beta * exp (half - half * r * r)
                / M_PI in
      let momx := lit "1.0e-10" + dens * vx in
      let momy := lit "2.0e-10" + dens * vy in
      (dens, momx, momy)
    else (dens, momx, momy) in
  Some (mkReal3 dens momx momy).

(** [SetInitialSingle] for one equation. *)
Definition SetInitialSingle_read1 (n : Z) (pVc : list (real2 real))
    (problemDef : ProblemDefinition) (pVpot : list real) (G time Px Py : real)
  : option real :=
  vc ← rd pVc n;
  let vertX := rx2 vc in
  let vertY := ry2 vc in
  let dens := lit "1.0" in
  let dens :=
    if decide (problemDef = MeshParameter.PROBLEM_LINEAR) then
      for_pure (-1) 2
        (fun i dens =>
           let x := vertX in
           let xc := time + of_int i * Px in
           if fabs (x - xc) <=? lit "0.25"
           then dens + Sq (cos (lit "2.0" * M_PI * (x - xc)))
           else dens)
        dens
    else dens in
  let dens :=
    if decide (problemDef = MeshParameter.PROBLEM_VORTEX) then
      let half := lit "0.5" in
      for_pure (-1) 2
        (fun i dens =>
           let x := vertX in
           let y := vertY in
           let xc := half + of_int i * Px + time in
           let yc := half in
           let r := sqrt (Sq (x - xc) + Sq (y - yc)) in
           if r <=? lit "0.25"
           then dens + Sq (cos (lit "2.0" * M_PI * r))
           else dens)
        dens
    else dens in
  let dens :=
    if decide (problemDef = MeshParameter.PROBLEM_RIEMANN) then
      let x := vertX in
      let y := vertY in
      let dens := lit "1.0e-10" in
      if (x >? - lit "0.6") && (x <? - lit "0.1") &&
         (y >? - lit "0.35") && (y <? lit "0.15")
      then dens + lit "1.0" else dens
    else dens in
  let dens :=
    if decide (problemDef = MeshParameter.PROBLEM_SOURCE) then
      let k := lit "2.0" * M_PI in
      cos (k * (vertX + lit "0.0" * vertY - lit "1.0" * time))
      * exp (- time)
    else dens in
  Some dens.

(** The overloads of [SetInitialSingle] modelled here. *)
Class Initial (realNeq : Type) :=
  SetInitialSingle_read :
    Z -> list (real2 real) -> ProblemDefinition -> list real ->
    real -> real -> real -> real -> option realNeq.

Global Instance Initial_real3 : Initial (real3 real) :=
  SetInitialSingle_read3.
Global Instance Initial_real : Initial real := SetInitialSingle_read1.

Section SetInitialPass.
Context {realNeq : Type} `{!Initial realNeq}.

(** [state[n] = ...] after the reads. *)
Definition SetInitialSingle (n : Z) (pVc : list (real2 real))
    (problemDef : ProblemDefinition) (pVpot : list real)
    (state : list realNeq) (G time Px Py : real) : option (list realNeq) :=
  v ← SetInitialSingle_read n pVc problemDef pVpot G time Px Py;
  wr state n v.

Definition devSetInitial (g : dim) (nVertex : Z) (pVc : list (real2 real))
    (problemDef : ProblemDefinition) (pVertexPotential : list real)
    (G time Px Py : real) : kernel Z Z realNeq (list realNeq) :=
  Kernel (stride_next nVertex (u32 (blockDim_x g * gridDim_x g)))
         (fun n _ =>
            SetInitialSingle_read n pVc problemDef pVertexPotential G time
              Px Py)
         (fun n v state => wr state n v).

(** The eigenvector routines are not under initial.cu: each is a
    parameter, the state it leaves behind on the path given by
    [cudaFlag], whether it returns or throws (the exception is caught). *)
Variable KHAddEigenVector : Z -> list realNeq -> list realNeq.
Variable RTAddEigenVector : Z -> list realNeq -> list realNeq.

(** [Simulation::SetInitial]. *)
Definition SetInitial (CL : ConservationLaw) (g : dim) (sched : list nat)
    (cudaFlag : Z) (nVertex : Z) (pVc : list (real2 real))
    (p : ProblemDefinition) (pVertexPotential : list real)
    (state : list realNeq) (G time Px Py : real) : option (list realNeq) :=
  state ←
    (if decide (cudaFlag = 1) then
       launch (devSetInitial g nVertex pVc p pVertexPotential G time Px Py)
              (s32 <$> thread_ids g) sched state
     else
       for_lt 0 nVertex
         (fun n state =>
            SetInitialSingle n pVc p pVertexPotential state G time Px Py)
         state);
  let state :=
    if decide (p = MeshParameter.PROBLEM_KH)
    then KHAddEigenVector cudaFlag state else state in
  let state :=
    if decide (p = MeshParameter.PROBLEM_SOURCE ∧ CL = CL_CART_EULER)
    then RTAddEigenVector cudaFlag state else state in
  Some state.
End SetInitialPass.
End Passes.
End Simulation.

(** * Properties *)

(** ** Arrays and loops *)

Lemma rd_Some {A} (p : list A) i v :
  rd p i = Some v ↔ 0 <= i ∧ p !! Z.to_nat i = Some v.
Proof. unfold rd. case_decide; naive_solver. Qed.

Lemma rd_is_Some {A} (p : list A) i :
  is_Some (rd p i) ↔ 0 <= i < Z.of_nat (length p).
Proof.
  unfold rd. case_decide.
  - rewrite lookup_lt_is_Some. lia.
  - split; [intros [? ?]; done | lia].
Qed.

Lemma rd_nat {A} (p : list A) (n : nat) : rd p (Z.of_nat n) = p !! n.
Proof. unfold rd. case_decide; [by rewrite Nat2Z.id | lia]. Qed.

Lemma wr_Some {A} (p p' : list A) i v :
  wr p i v = Some p' ↔
  0 <= i < Z.of_nat (length p) ∧ p' = <[Z.to_nat i := v]> p.
Proof. unfold wr. case_decide; naive_solver. Qed.

Lemma wr_nat {A} (p : list A) i v :
  0 <= i →
  wr p i v = if decide (Z.to_nat i < length p)%nat
             then Some (<[Z.to_nat i := v]> p) else None.
Proof. intros Hi. unfold wr. repeat case_decide; try done; lia. Qed.

Lemma wr_length {A} (p p' : list A) i v :
  wr p i v = Some p' → length p' = length p.
Proof. rewrite wr_Some. intros [_ ->]. apply length_insert. Qed.

Lemma rd_wr_eq {A} (p p' : list A) i v :
  wr p i v = Some p' → rd p' i = Some v.
Proof.
  rewrite wr_Some, rd_Some. intros [Hi ->]. split; [lia |].
  apply list_lookup_insert_eq. lia.
Qed.

Lemma rd_wr_ne {A} (p p' : list A) i j v :
  wr p i v = Some p' → i ≠ j → rd p' j = rd p j.
Proof.
  rewrite wr_Some. intros [Hi ->] Hne. unfold rd. case_decide; [| done].
  apply list_lookup_insert_ne. lia.
Qed.

Lemma NoDup_omap_strong {A B} (f : A -> option B) (l : list A) :
  (∀ x y b, x ∈ l → y ∈ l → f x = Some b → f y = Some b → x = y) →
  NoDup l → NoDup (omap f l).
Proof.
  intros Hinj Hnd. induction Hnd as [| x l Hx Hnd IH]; simpl; [constructor |].
  assert (NoDup (omap f l)) as IH'.
  { apply IH. intros y z b Hy Hz. apply Hinj; by right. }
  destruct (f x) as [b |] eqn:Hfx; [| done]. constructor; [| done].
  rewrite list_elem_of_omap. intros (y & Hy & Hfy). apply Hx.
  rewrite (Hinj x y b); [done | by left | by right | done | done].
Qed.

(** A counting loop is a fold over the indices it visits. *)
Fixpoint exec_list {I S} (body : I -> S -> option S) (l : list I) (s : S)
  : option S :=
  match l with
  | [] => Some s
  | i :: l' => s' ← body i s; exec_list body l' s'
  end.

Lemma for_count_exec_list {S} n i (body : Z -> S -> option S) s :
  for_count n i body s = exec_list body (seqZ i (Z.of_nat n)) s.
Proof.
  revert i s. induction n as [| n IH]; intros i s; [done |].
  rewrite Nat2Z.inj_succ, seqZ_cons by lia. simpl.
  destruct (body i s) as [s' |]; simpl; [| done].
  rewrite IH. do 2 f_equal. all: lia.
Qed.

Lemma for_lt_exec_list {S} lo hi (body : Z -> S -> option S) s :
  for_lt lo hi body s = exec_list body (seqZ lo (hi - lo)) s.
Proof.
  unfold for_lt. rewrite for_count_exec_list.
  destruct (decide (0 <= hi - lo)).
  - by rewrite Z2Nat.id.
  - rewrite Z2Nat.nonpos by lia. by rewrite (seqZ_nil _ (hi - lo)) by lia.
Qed.

Lemma exec_list_ext {I S} (f g : I -> S -> option S) l s :
  (∀ i s, f i s = g i s) → exec_list f l s = exec_list g l s.
Proof.
  intros Hfg. revert s. induction l as [| i l IH]; intros s; simpl; [done |].
  rewrite Hfg. destruct (g i s); simpl; [apply IH | done].
Qed.

Lemma exec_list_app {I S} (body : I -> S -> option S) l1 l2 s :
  exec_list body (l1 ++ l2) s = s' ← exec_list body l1 s; exec_list body l2 s'.
Proof.
  revert s. induction l1 as [| i l1 IH]; intros s; simpl; [done |].
  destruct (body i s); simpl; [apply IH | done].
Qed.

(** ** Kernels whose work items each rewrite one cell

    The setting shared by the kernels of this development: the memory is
    one array, work item [it] reads at most the cell [cell it] of it and
    stores there a value computed from the old content. *)

Section GridTheory.
Context {Ctl Item Reg V : Type}.
Variable K : kernel Ctl Item Reg (list V).
Variable cell : Item -> option nat.
Variable upd : Item -> option V -> option Reg.
Variable out : Reg -> V.

Hypothesis load_cell : ∀ it m,
  k_load K it m = c ← cell it; upd it (m !! c).
Hypothesis store_cell : ∀ it c x r m,
  cell it = Some c → upd it x = Some r →
  k_store K it r m =
    if decide (c < length m)%nat then Some (<[c := out r]> m) else None.

(** The items a thread will execute from control state [c] on. *)
Inductive unfolds : Ctl -> list Item -> Prop :=
| unfolds_nil c : k_next K c = None → unfolds c []
| unfolds_cons c it c' its :
    k_next K c = Some (it, c') → unfolds c' its → unfolds c (it :: its).

Variable m0 : list V.

(** Item [it] can execute on the initial memory. *)
Definition ready (it : Item) : Prop :=
  ∃ c r, cell it = Some c ∧ (c < length m0)%nat ∧ upd it (m0 !! c) = Some r.

(** Memory [m] is [m0] with exactly the items [done] executed. *)
Definition post (done : list Item) (m : list V) : Prop :=
  length m = length m0 ∧
  (∀ it, it ∈ done →
     ∃ c r, cell it = Some c ∧ upd it (m0 !! c) = Some r ∧
            m !! c = Some (out r)) ∧
  (∀ c, (∀ it, it ∈ done → cell it ≠ Some c) → m !! c = m0 !! c).

Lemma post_nil : post [] m0.
Proof. split; [done |]. split; [| done]. intros it Hit. inversion Hit. Qed.

Lemma post_unique l1 l2 m1 m2 :
  (∀ it, it ∈ l1 ↔ it ∈ l2) → post l1 m1 → post l2 m2 → m1 = m2.
Proof.
  intros Hl (Hlen1 & Hd1 & Hf1) (Hlen2 & Hd2 & Hf2).
  apply list_eq. intros c.
  destruct (decide (Exists (λ it, cell it = Some c) l1)) as [Hex | Hnex].
  - apply Exists_exists in Hex as (it & Hit & Hc).
    destruct (Hd1 it Hit) as (c1 & r1 & Hc1 & Hu1 & Hm1).
    destruct (Hd2 it (proj1 (Hl it) Hit)) as (c2 & r2 & Hc2 & Hu2 & Hm2).
    simplify_eq. by rewrite Hm1, Hm2.
  - rewrite Exists_exists in Hnex.
    rewrite Hf1, Hf2; [done | |]; intros it Hit Hc; apply Hnex; exists it.
    + split; [by apply Hl | done].
    + done.
Qed.

Lemma post_proper l1 l2 m :
  (∀ it, it ∈ l1 ↔ it ∈ l2) → post l1 m → post l2 m.
Proof.
  intros Hl (Hlen & Hd & Hf). split; [done |]. split.
  - intros it Hit. apply Hd. by apply Hl.
  - intros c Hc. apply Hf. intros it Hit. apply Hc. by apply Hl.
Qed.

(** Executing one more item, whose cell no executed item shares. *)
Lemma post_insert done m it c r :
  post done m → cell it = Some c → upd it (m0 !! c) = Some r →
  (c < length m0)%nat →
  (∀ it', it' ∈ done → cell it' ≠ Some c) →
  post (it :: done) (<[c := out r]> m).
Proof.
  intros (Hlen & Hd & Hf) Hc Hu Hlt Hfresh. split; [| split].
  - by rewrite length_insert.
  - intros it' Hit'. apply elem_of_cons in Hit' as [-> | Hit'].
    + exists c, r. split_and!; [done | done |].
      apply list_lookup_insert_eq. lia.
    + destruct (Hd it' Hit') as (c' & r' & Hc' & Hu' & Hm').
      exists c', r'. split_and!; [done | done |].
      rewrite list_lookup_insert_ne; [done |].
      intros <-. by apply (Hfresh it' Hit').
  - intros c' Hc'.
    rewrite list_lookup_insert_ne.
    + apply Hf. intros it' Hit'. apply Hc'. by apply elem_of_cons; right.
    + intros <-. apply (Hc' it); [by apply elem_of_cons; left | done].
Qed.

Lemma exec_cell it m :
  exec K it m =
    c ← cell it; r ← upd it (m !! c);
    if decide (c < length m)%nat then Some (<[c := out r]> m) else None.
Proof.
  unfold exec. rewrite load_cell.
  destruct (cell it) as [c |] eqn:Hc; simpl; [| done].
  destruct (upd it (m !! c)) as [r |] eqn:Hu; simpl; [| done].
  by eapply store_cell.
Qed.

Lemma nodup_fresh done it rest c :
  NoDup (omap cell (done ++ it :: rest)) → cell it = Some c →
  ∀ it', it' ∈ done → cell it' ≠ Some c.
Proof.
  rewrite omap_app, NoDup_app. intros (_ & Hdis & _) Hc it' Hit' Hc'.
  apply (Hdis c); apply list_elem_of_omap.
  - by exists it'.
  - exists it. split; [by left | done].
Qed.

(** *** The host loop *)

Lemma exec_list_post items : ∀ done m m',
  post done m → NoDup (omap cell (done ++ items)) →
  exec_list (exec K) items m = Some m' →
  post (done ++ items) m' ∧ Forall ready items.
Proof.
  induction items as [| it items IH]; intros done m m' Hpost Hnd Hex.
  - simpl in Hex. injection Hex as <-. by rewrite app_nil_r.
  - simpl in Hex. rewrite exec_cell in Hex.
    destruct (cell it) as [c |] eqn:Hc; simpl in Hex; [| done].
    assert (m !! c = m0 !! c) as Hm.
    { destruct Hpost as (_ & _ & Hf). apply Hf. by eapply nodup_fresh. }
    rewrite Hm in Hex.
    destruct (upd it (m0 !! c)) as [r |] eqn:Hu; simpl in Hex; [| done].
    case_decide as Hlt; simpl in Hex; [| done].
    assert (c < length m0)%nat as Hlt0 by (destruct Hpost as [<- _]; done).
    destruct (IH (it :: done) (<[c := out r]> m) m') as [Hp Hr].
    + eapply post_insert; eauto using nodup_fresh.
    + eapply NoDup_Permutation_proper; [| exact Hnd].
      apply omap_Permutation. rewrite <- Permutation_middle. done.
    + done.
    + split.
      * eapply post_proper; [| exact Hp]. intros it'.
        rewrite !elem_of_app, !elem_of_cons. tauto.
      * constructor; [| done]. by exists c, r.
Qed.

Lemma exec_list_ready items : ∀ done m,
  post done m → NoDup (omap cell (done ++ items)) → Forall ready items →
  is_Some (exec_list (exec K) items m).
Proof.
  induction items as [| it items IH]; intros done m Hpost Hnd Hr.
  - by eexists.
  - apply Forall_cons in Hr as [(c & r & Hc & Hlt & Hu) Hr].
    simpl. rewrite exec_cell, Hc. simpl.
    assert (m !! c = m0 !! c) as ->.
    { destruct Hpost as (_ & _ & Hf). apply Hf. by eapply nodup_fresh. }
    rewrite Hu. simpl.
    rewrite decide_True by (destruct Hpost as [-> _]; done). simpl.
    apply (IH (it :: done)); [| | done].
    + eapply post_insert; eauto using nodup_fresh.
    + eapply NoDup_Permutation_proper; [| exact Hnd].
      apply omap_Permutation. rewrite <- Permutation_middle. done.
Qed.

Lemma join_insert_perm (rems : list (list Item)) k it its :
  rems !! k = Some (it :: its) →
  mjoin rems ≡ₚ it :: mjoin (<[k := its]> rems).
Proof.
  revert k. induction rems as [| rm rems IH]; intros [| k] Hk; simplify_eq/=.
  - done.
  - rewrite (IH k Hk). by rewrite Permutation_middle.
Qed.

(** *** Cells no work item names are left alone *)

Section Frame.
Variable items : list Item.

Definition frame (m : list V) : Prop :=
  length m = length m0 ∧
  ∀ c, (∀ it, it ∈ items → cell it ≠ Some c) → m !! c = m0 !! c.

Definition thread_fr (th : thread Ctl Item Reg) (rm : list Item) : Prop :=
  match reg th with
  | Some (it, r) =>
      ∃ its c x, rm = it :: its ∧ unfolds (ctl th) its ∧
                 cell it = Some c ∧ upd it x = Some r
  | None => unfolds (ctl th) rm
  end.

Definition inv_fr (rems : list (list Item))
    (pool : list (thread Ctl Item Reg)) (m : list V) : Prop :=
  Forall2 thread_fr pool rems ∧
  (∀ it, it ∈ mjoin rems → it ∈ items) ∧
  frame m.

Lemma frame_insert m it c r :
  frame m → it ∈ items → cell it = Some c → frame (<[c := out r]> m).
Proof.
  intros [Hlen Hf] Hit Hc. split; [by rewrite length_insert |].
  intros c' Hc'. rewrite list_lookup_insert_ne; [by apply Hf |].
  intros <-. by apply (Hc' it).
Qed.

Lemma exec_list_frame l : ∀ m m',
  frame m → (∀ it, it ∈ l → it ∈ items) →
  exec_list (exec K) l m = Some m' → frame m'.
Proof.
  induction l as [| it l IH]; intros m m' Hfr Hl; simpl.
  - by intros [= <-].
  - rewrite exec_cell.
    destruct (cell it) as [c |] eqn:Hc; simpl; [| done].
    destruct (upd it (m !! c)) as [r |]; simpl; [| done].
    case_decide; simpl; [| done].
    apply IH.
    + eapply frame_insert; [done | | done]. apply Hl. by left.
    + intros it' Hit'. apply Hl. by right.
Qed.

Lemma inv_fr_step rems pool m k th th' m' :
  inv_fr rems pool m → pool !! k = Some th →
  thread_step K th m = Some (th', m') →
  ∃ rems', inv_fr rems' (<[k := th']> pool) m'.
Proof.
  intros (Hths & Hsub & Hfr) Hk.
  destruct (Forall2_lookup_l _ _ _ _ _ Hths Hk) as (rm & Hrm & Hth).
  unfold thread_step. unfold thread_fr in Hth.
  destruct (reg th) as [[it r] |] eqn:Hreg.
  - destruct Hth as (its & c & x & -> & Hits & Hc & Hu).
    rewrite (store_cell _ _ _ _ _ Hc Hu).
    case_decide; simpl; [| done]. intros [= <- <-].
    pose proof (join_insert_perm _ _ _ _ Hrm) as Hj.
    exists (<[k := its]> rems). split_and!.
    + apply Forall2_insert; [done |]. unfold thread_fr. by simpl.
    + intros it' Hit'. apply Hsub. rewrite Hj. by right.
    + eapply frame_insert; [done | | done]. apply Hsub. rewrite Hj. by left.
  - destruct (k_next K (ctl th)) as [[it c'] |] eqn:Hn.
    + rewrite load_cell.
      destruct (cell it) as [c |] eqn:Hc; simpl; [| done].
      destruct (upd it (m !! c)) as [r |] eqn:Hu; simpl; [| done].
      intros [= <- <-]. exists rems. split_and!; [| done | done].
      inversion Hth as [| c0 it0 c0' its Hn' Hits]; subst; [congruence |].
      rewrite Hn in Hn'. injection Hn' as <- <-.
      rewrite <- (list_insert_id rems k (it :: its)) by done.
      apply Forall2_insert; [done |]. unfold thread_fr. simpl.
      by exists its, c, (m !! c).
    + intros [= <- <-]. exists rems. by rewrite list_insert_id.
Qed.

Lemma run_frame sched : ∀ rems pool m pool' m',
  inv_fr rems pool m → run K sched pool m = Some (pool', m') → frame m'.
Proof.
  induction sched as [| k sched IH]; intros rems pool m pool' m' Hinv; simpl.
  - intros [= <- <-]. apply Hinv.
  - destruct (pool !! k) as [th |] eqn:Hk; [| exact (IH _ _ _ _ _ Hinv)].
    destruct (thread_step K th m) as [[th1 m1] |] eqn:Hstep; simpl;
      [| done].
    destruct (inv_fr_step _ _ _ _ _ _ _ Hinv Hk Hstep) as (rems1 & Hinv1).
    exact (IH _ _ _ _ _ Hinv1).
Qed.

Lemma launch_frame inits futs sched m :
  Forall2 unfolds inits futs → (∀ it, it ∈ mjoin futs → it ∈ items) →
  launch K inits sched m0 = Some m → frame m.
Proof.
  intros Hun Hsub. unfold launch.
  destruct (run K sched _ m0) as [[pool m'] |] eqn:Hrun; simpl; [| done].
  destruct (forallb (returned K) pool); [| done]. intros [= <-].
  eapply run_frame; [| exact Hrun]. split_and!; [| done | done].
  apply Forall2_fmap_l. eapply Forall2_impl; [exact Hun |]. done.
Qed.
End Frame.

(** *** Interleaved runs

    [items] are the work items of the whole launch; their cells are
    pairwise distinct. *)

Variable items : list Item.
Hypothesis items_nodup : NoDup (omap cell items).

(** What a thread has left to do: the item in its registers, if any,
    followed by the items of its remaining iterations. *)
Definition thread_inv (th : thread Ctl Item Reg) (rm : list Item) : Prop :=
  match reg th with
  | Some (it, r) =>
      ∃ its c, rm = it :: its ∧ unfolds (ctl th) its ∧
               cell it = Some c ∧ upd it (m0 !! c) = Some r
  | None => unfolds (ctl th) rm
  end.

Record inv (done : list Item) (rems : list (list Item))
    (pool : list (thread Ctl Item Reg)) (m : list V) : Prop := Inv {
  inv_threads : Forall2 thread_inv pool rems;
  inv_items : items ≡ₚ done ++ mjoin rems;
  inv_post : post done m;
  inv_ready : Forall ready done
}.

Lemma inv_elem done rems pool m k it its :
  inv done rems pool m → rems !! k = Some (it :: its) → it ∈ items.
Proof.
  intros [_ Hperm _ _] Hk. rewrite Hperm, (join_insert_perm _ _ _ _ Hk).
  apply elem_of_app; right. by apply elem_of_cons; left.
Qed.

Lemma inv_fresh done rems pool m k it its c :
  inv done rems pool m → rems !! k = Some (it :: its) → cell it = Some c →
  ∀ it', it' ∈ done → cell it' ≠ Some c.
Proof.
  intros [_ Hperm _ _] Hk Hc.
  rewrite (join_insert_perm _ _ _ _ Hk) in Hperm.
  eapply nodup_fresh; [| done].
  eapply NoDup_Permutation_proper; [| exact items_nodup].
  apply omap_Permutation. by rewrite Hperm.
Qed.

(** A load that succeeds has read the initial content of its cell. *)
Lemma inv_load done rems pool m k th it c' r :
  inv done rems pool m → pool !! k = Some th → reg th = None →
  k_next K (ctl th) = Some (it, c') → k_load K it m = Some r →
  inv done rems (<[k := Thread c' (Some (it, r))]> pool) m.
Proof.
  intros Hinv Hk Hreg Hnext Hld.
  destruct (Forall2_lookup_l _ _ _ _ _ (inv_threads _ _ _ _ Hinv) Hk)
    as (rm & Hrm & Hth).
  unfold thread_inv in Hth. rewrite Hreg in Hth.
  inversion Hth as [c Hn | c it' c'' its Hn Hits]; subst; [congruence |].
  rewrite Hnext in Hn. injection Hn as <- <-.
  rewrite load_cell in Hld.
  destruct (cell it) as [cl |] eqn:Hc; simpl in Hld; [| done].
  destruct (inv_post _ _ _ _ Hinv) as (_ & _ & Hf).
  rewrite (Hf cl (inv_fresh _ _ _ _ _ _ _ _ Hinv Hrm Hc)) in Hld.
  destruct Hinv as [Hths Hperm Hpost Hrdy]. split; [| done | done | done].
  rewrite <- (list_insert_id rems k (it :: its)) by done.
  apply Forall2_insert; [done |].
  unfold thread_inv. simpl. by exists its, cl.
Qed.

(** A store that succeeds completes the execution of its item. *)
Lemma inv_store done rems pool m k th it r m' :
  inv done rems pool m → pool !! k = Some th → reg th = Some (it, r) →
  k_store K it r m = Some m' →
  ∃ its, rems !! k = Some (it :: its) ∧
    inv (it :: done) (<[k := its]> rems)
        (<[k := Thread (ctl th) None]> pool) m'.
Proof.
  intros Hinv Hk Hreg Hst.
  destruct (Forall2_lookup_l _ _ _ _ _ (inv_threads _ _ _ _ Hinv) Hk)
    as (rm & Hrm & Hth).
  unfold thread_inv in Hth. rewrite Hreg in Hth.
  destruct Hth as (its & c & -> & Hits & Hc & Hu).
  pose proof (inv_fresh _ _ _ _ _ _ _ _ Hinv Hrm Hc) as Hfr.
  destruct Hinv as [Hths Hperm Hpost Hrdy].
  rewrite (store_cell _ _ _ _ _ Hc Hu) in Hst.
  case_decide as Hlt; [| done]. injection Hst as <-.
  assert (c < length m0)%nat as Hlt0 by (destruct Hpost as [<- _]; done).
  exists its. split; [done |]. split.
  - by apply Forall2_insert.
  - rewrite Hperm, (join_insert_perm _ _ _ _ Hrm).
    by rewrite <- Permutation_middle.
  - by eapply post_insert.
  - constructor; [| done]. by exists c, r.
Qed.

Lemma inv_step done rems pool m k th th' m' :
  inv done rems pool m → pool !! k = Some th →
  thread_step K th m = Some (th', m') →
  ∃ done' rems', inv done' rems' (<[k := th']> pool) m'.
Proof.
  intros Hinv Hk. unfold thread_step.
  destruct (reg th) as [[it r] |] eqn:Hreg.
  - destruct (k_store K it r m) as [m1 |] eqn:Hst; simpl; [| done].
    intros [= <- <-].
    destruct (inv_store _ _ _ _ _ _ _ _ _ Hinv Hk Hreg Hst) as (its & _ & ?).
    by eauto.
  - destruct (k_next K (ctl th)) as [[it c'] |] eqn:Hn.
    + destruct (k_load K it m) as [r |] eqn:Hld; simpl; [| done].
      intros [= <- <-]. by eauto using inv_load.
    + intros [= <- <-]. exists done, rems. by rewrite list_insert_id.
Qed.

Lemma run_inv sched : ∀ done rems pool m pool' m',
  inv done rems pool m → run K sched pool m = Some (pool', m') →
  ∃ done' rems', inv done' rems' pool' m'.
Proof.
  induction sched as [| k sched IH]; intros done rems pool m pool' m' Hinv;
    simpl.
  - intros [= <- <-]. by eauto.
  - destruct (pool !! k) as [th |] eqn:Hk; [| exact (IH _ _ _ _ _ _ Hinv)].
    destruct (thread_step K th m) as [[th1 m1] |] eqn:Hstep; simpl; [| done].
    destruct (inv_step _ _ _ _ _ _ _ _ Hinv Hk Hstep) as (done1 & rems1 & Hinv1).
    exact (IH _ _ _ _ _ _ Hinv1).
Qed.

Lemma run_app s1 s2 (pool : list (thread Ctl Item Reg)) (m : list V) :
  run K (s1 ++ s2) pool m = pm ← run K s1 pool m; run K s2 pm.1 pm.2.
Proof.
  revert pool m. induction s1 as [| k s1 IH]; intros pool m; simpl; [done |].
  destruct (pool !! k) as [th |]; [| apply IH].
  destruct (thread_step K th m) as [[th' m'] |]; simpl; [apply IH | done].
Qed.

Lemma thread_inv_nil th : thread_inv th [] ↔ returned K th = true.
Proof.
  unfold thread_inv, returned. destruct (reg th) as [[it r] |].
  - split; [intros (? & ? & ? & _); done | done].
  - split.
    + inversion 1 as [c Hn |]; subst. by rewrite Hn.
    + destruct (k_next K (ctl th)) eqn:Hn; [done |]. intros _. by constructor.
Qed.

Lemma inv_returned done rems pool m :
  inv done rems pool m →
  forallb (returned K) pool = true ↔ Forall (.= []) rems.
Proof.
  intros [Hths _ _ _]. induction Hths as [| th rm pool rems Hth _ IH]; simpl.
  - split; [by constructor | done].
  - rewrite andb_true_iff, Forall_cons, IH. destruct rm as [| it its].
    + apply thread_inv_nil in Hth. tauto.
    + split; [| intros [? _]; done]. intros [Hr _]. exfalso.
      apply thread_inv_nil in Hr. revert Hth Hr. unfold thread_inv.
      destruct (reg th) as [[it' r] |].
      * by intros _ (? & ? & ? & _).
      * inversion 1; inversion 1; congruence.
Qed.

(** Once all threads have returned, every item has been executed. *)
Lemma inv_finished done rems pool m :
  inv done rems pool m → forallb (returned K) pool = true →
  post items m ∧ Forall ready items.
Proof.
  intros Hinv Hret. apply (inv_returned _ _ _ _ Hinv) in Hret.
  destruct Hinv as [_ Hperm Hpost Hrdy]. apply join_nil_2 in Hret.
  rewrite Hret, app_nil_r in Hperm. split.
  - eapply post_proper; [| exact Hpost]. intros it. by rewrite Hperm.
  - by rewrite Hperm.
Qed.

(** *** A schedule that lets every thread return *)

Section Progress.
Hypothesis items_ready : Forall ready items.

Lemma load_progress done rems pool m k th it c' :
  inv done rems pool m → pool !! k = Some th → reg th = None →
  k_next K (ctl th) = Some (it, c') → is_Some (k_load K it m).
Proof.
  intros Hinv Hk Hreg Hnext.
  destruct (Forall2_lookup_l _ _ _ _ _ (inv_threads _ _ _ _ Hinv) Hk)
    as (rm & Hrm & Hth).
  unfold thread_inv in Hth. rewrite Hreg in Hth.
  inversion Hth as [c Hn | c it' c'' its Hn Hits]; subst; [congruence |].
  rewrite Hnext in Hn. injection Hn as <- <-.
  destruct (proj1 (Forall_forall _ _) items_ready it)
    as (cl & r & Hc & Hlt & Hu); [by eapply inv_elem |].
  rewrite load_cell, Hc. simpl.
  destruct (inv_post _ _ _ _ Hinv) as (_ & _ & Hf).
  rewrite (Hf cl (inv_fresh _ _ _ _ _ _ _ _ Hinv Hrm Hc)). by eexists.
Qed.

Lemma store_progress done rems pool m k th it r :
  inv done rems pool m → pool !! k = Some th → reg th = Some (it, r) →
  is_Some (k_store K it r m).
Proof.
  intros Hinv Hk Hreg.
  destruct (Forall2_lookup_l _ _ _ _ _ (inv_threads _ _ _ _ Hinv) Hk)
    as (rm & Hrm & Hth).
  unfold thread_inv in Hth. rewrite Hreg in Hth.
  destruct Hth as (its & c & -> & Hits & Hc & Hu).
  destruct (proj1 (Forall_forall _ _) items_ready it)
    as (cl & r' & Hc' & Hlt & _); [by eapply inv_elem |].
  rewrite (store_cell _ _ _ _ _ Hc Hu).
  destruct (inv_post _ _ _ _ Hinv) as (Hlen & _). simplify_eq.
  rewrite decide_True by lia. by eexists.
Qed.

Lemma thread_finish k rm : ∀ done rems pool m,
  inv done rems pool m → rems !! k = Some rm →
  ∃ n done' pool' m',
    run K (replicate n k) pool m = Some (pool', m') ∧
    inv done' (<[k := []]> rems) pool' m'.
Proof.
  induction rm as [| it its IH]; intros done rems pool m Hinv Hrm.
  - exists O, done, pool, m. by rewrite list_insert_id.
  - assert (∀ pool th r, inv done rems pool m → pool !! k = Some th →
              reg th = Some (it, r) →
              ∃ n done' pool' m',
                run K (replicate n k) pool m = Some (pool', m') ∧
                inv done' (<[k := []]> rems) pool' m') as Hstore.
    { clear pool Hinv. intros pool th r Hinv Hk Hreg.
      destruct (store_progress _ _ _ _ _ _ _ _ Hinv Hk Hreg) as [m' Hst].
      destruct (inv_store _ _ _ _ _ _ _ _ _ Hinv Hk Hreg Hst)
        as (its' & Hrm' & Hinv').
      rewrite Hrm in Hrm'. injection Hrm' as <-.
      destruct (IH _ _ _ _ Hinv')
        as (n & done' & pool' & m'' & Hrun & Hinv'').
      { apply list_lookup_insert_eq. by eapply lookup_lt_Some. }
      rewrite list_insert_insert_eq in Hinv''.
      exists (S n), done', pool', m''. split; [| done].
      simpl. rewrite Hk. unfold thread_step. rewrite Hreg, Hst. simpl.
      done. }
    destruct (Forall2_lookup_r _ _ _ _ _ (inv_threads _ _ _ _ Hinv) Hrm)
      as (th & Hk & Hth).
    destruct (reg th) as [[it' r] |] eqn:Hreg.
    + unfold thread_inv in Hth. rewrite Hreg in Hth.
      destruct Hth as (? & ? & ? & _). simplify_eq. by eapply Hstore.
    + unfold thread_inv in Hth. rewrite Hreg in Hth.
      inversion Hth as [| c it' c' its' Hn Hits]; subst.
      destruct (load_progress _ _ _ _ _ _ _ _ Hinv Hk Hreg Hn) as [r Hld].
      pose proof (inv_load _ _ _ _ _ _ _ _ _ Hinv Hk Hreg Hn Hld) as Hinv'.
      destruct (Hstore _ (Thread c' (Some (it, r))) r Hinv')
        as (n & done' & pool' & m' & Hrun & Hinv''); [| done |].
      { apply list_lookup_insert_eq. by eapply lookup_lt_Some. }
      exists (S n), done', pool', m'. split; [| done].
      simpl. rewrite Hk. unfold thread_step. rewrite Hreg, Hn, Hld. simpl.
      done.
Qed.

Lemma threads_finish j : ∀ done rems pool m,
  inv done rems pool m → (j <= length rems)%nat →
  ∃ sched done' rems' pool' m',
    run K sched pool m = Some (pool', m') ∧ inv done' rems' pool' m' ∧
    length rems' = length rems ∧
    ∀ i, (i < j)%nat → rems' !! i = Some [].
Proof.
  induction j as [| j IH]; intros done rems pool m Hinv Hj.
  - exists [], done, rems, pool, m. split_and!; [done | done | done |].
    intros i Hi. lia.
  - destruct (IH _ _ _ _ Hinv) as
      (s1 & done1 & rems1 & pool1 & m1 & Hrun1 & Hinv1 & Hlen1 & Hnil1);
      [lia |].
    destruct (lookup_lt_is_Some_2 rems1 j) as [rm Hrm]; [lia |].
    destruct (thread_finish _ _ _ _ _ _ Hinv1 Hrm)
      as (n & done2 & pool2 & m2 & Hrun2 & Hinv2).
    exists (s1 ++ replicate n j), done2, (<[j := []]> rems1), pool2, m2.
    split_and!; [| done | by rewrite length_insert |].
    + rewrite run_app, Hrun1. done.
    + intros i Hi. destruct (decide (i = j)) as [-> | Hne].
      * apply list_lookup_insert_eq. lia.
      * rewrite list_lookup_insert_ne by done. apply Hnil1. lia.
Qed.
End Progress.

(** *** Launches *)

Variable inits : list Ctl.
Variable futs : list (list Item).
Hypothesis inits_unfold : Forall2 unfolds inits futs.
Hypothesis items_futs : items ≡ₚ mjoin futs.

Lemma inv_init : inv [] futs ((λ c, Thread c None) <$> inits) m0.
Proof.
  split; [| done | apply post_nil | constructor].
  apply Forall2_fmap_l. eapply Forall2_impl; [exact inits_unfold |]. done.
Qed.

(** Whatever the schedule, a launch that completes leaves the memory in
    which every item has executed once on the initial content of its
    cell. *)
Lemma launch_post sched m :
  launch K inits sched m0 = Some m → post items m ∧ Forall ready items.
Proof.
  unfold launch. intros Hl.
  destruct (run K sched _ m0) as [[pool m'] |] eqn:Hrun; simpl in Hl; [| done].
  destruct (run_inv _ _ _ _ _ _ _ inv_init Hrun) as (dn & rems & Hinv).
  destruct (forallb (returned K) pool) eqn:Hret; [| done].
  injection Hl as <-. by eapply inv_finished.
Qed.

(** When every item can execute, some schedule lets the launch
    complete. *)
Lemma launch_completes :
  Forall ready items → ∃ sched m, launch K inits sched m0 = Some m.
Proof.
  intros Hrdy.
  destruct (threads_finish Hrdy (length futs) _ _ _ _ inv_init)
    as (sched & dn & rems & pool & m & Hrun & Hinv & Hlen & Hnil); [done |].
  exists sched, m. unfold launch. rewrite Hrun. simpl.
  rewrite (proj2 (inv_returned _ _ _ _ Hinv)); [done |].
  apply Forall_lookup. intros i rm Hi.
  rewrite Hnil in Hi; [congruence |].
  apply lookup_lt_Some in Hi. lia.
Qed.

(** The launch and the host loop over the same items agree. *)
Lemma launch_exec_list sched m host_items :
  (∀ it, it ∈ host_items ↔ it ∈ items) →
  NoDup (omap cell host_items) →
  launch K inits sched m0 = Some m →
  exec_list (exec K) host_items m0 = Some m.
Proof.
  intros Hmem Hnd Hl. destruct (launch_post _ _ Hl) as [Hpost Hrdy].
  destruct (exec_list_ready host_items [] m0) as [m' Hm'].
  - apply post_nil.
  - done.
  - apply Forall_forall. intros it Hit.
    apply (proj1 (Forall_forall _ _) Hrdy). by apply Hmem.
  - rewrite Hm'. f_equal.
    destruct (exec_list_post host_items [] m0 m') as [Hp _];
      [apply post_nil | done | done |].
    eapply post_unique; [| exact Hp | exact Hpost]. done.
Qed.

Lemma exec_list_launch m host_items :
  (∀ it, it ∈ host_items ↔ it ∈ items) →
  NoDup (omap cell host_items) →
  exec_list (exec K) host_items m0 = Some m →
  (∃ sched, launch K inits sched m0 = Some m) ∧
  (∀ sched m', launch K inits sched m0 = Some m' → m' = m).
Proof.
  intros Hmem Hnd Hex.
  destruct (exec_list_post host_items [] m0 m) as [Hp Hr];
    [apply post_nil | done | done |].
  assert (∀ sched m', launch K inits sched m0 = Some m' → m' = m) as Hdet.
  { intros sched m' Hl. destruct (launch_post _ _ Hl) as [Hpost _].
    eapply post_unique; [| exact Hpost | exact Hp].
    intros it. symmetry. apply Hmem. }
  split; [| done].
  destruct launch_completes as (sched & m' & Hl).
  - apply Forall_forall. intros it Hit.
    apply (proj1 (Forall_forall _ _) Hr). by apply Hmem.
  - exists sched. by rewrite Hl, (Hdet _ _ Hl).
Qed.
End GridTheory.

(** ** Grid-stride loops *)

Lemma u32_id z : 0 <= z < 4294967296 → u32 z = z.
Proof. intros Hz. unfold u32. by apply Z.mod_small. Qed.

Lemma s32_id z : -2147483648 <= z < 2147483648 → s32 z = z.
Proof. intros Hz. unfold s32. rewrite Z.mod_small; lia. Qed.

(** A launch geometry as [cudaOccupancyMaxPotentialBlockSize] returns it:
    at least one block of at least one thread, and a thread count that
    fits an [int]. *)
Definition geometry (g : dim) : Prop :=
  0 < gridDim_x g ∧ 0 < blockDim_x g ∧
  gridDim_x g * blockDim_x g < 2147483648.

Lemma grid_stride_id g : geometry g → grid_stride g = gridDim_x g * blockDim_x g.
Proof. intros (? & ? & ?). unfold grid_stride. apply u32_id. nia. Qed.

Lemma grid_stride_pos g : geometry g → 0 < grid_stride g < 2147483648.
Proof. intros Hg. rewrite grid_stride_id by done. destruct Hg as (? & ? & ?). nia. Qed.

Lemma bind_singleton_fmap {A B} (f : A -> B) (l : list A) :
  (l ≫= λ x, [f x]) = f <$> l.
Proof. induction l as [| x l IH]; [done |]. by rewrite bind_cons, IH. Qed.

Lemma thread_ids_seqZ g : geometry g → thread_ids g = seqZ 0 (grid_stride g).
Proof.
  intros Hg. rewrite grid_stride_id by done. destruct Hg as (HG & HB & HT).
  unfold thread_ids.
  assert (∀ n : nat, Z.of_nat n <= gridDim_x g →
            (seqZ 0 (Z.of_nat n) ≫= λ b,
               seqZ 0 (blockDim_x g) ≫= λ t, [u32 (b * blockDim_x g + t)])
            = seqZ 0 (Z.of_nat n * blockDim_x g)) as Hn.
  { induction n as [| n IH]; intros Hle; [done |].
    rewrite seqZ_S, bind_app, IH, bind_singleton by lia.
    replace (Z.of_nat (S n) * blockDim_x g)
      with (Z.of_nat n * blockDim_x g + blockDim_x g) by lia.
    rewrite seqZ_app by nia. f_equal.
    rewrite bind_singleton_fmap.
    replace (0 + Z.of_nat n * blockDim_x g)
      with (Z.of_nat n * blockDim_x g + 0) by lia.
    rewrite <- (fmap_add_seqZ (Z.of_nat n * blockDim_x g) 0).
    apply Forall_fmap_ext, Forall_seqZ. intros t Ht. apply u32_id. nia. }
  specialize (Hn (Z.to_nat (gridDim_x g))).
  rewrite Z2Nat.id in Hn by lia. apply Hn. lia.
Qed.

(** The indices [i, i + T, i + 2T, ...] below [N] that a grid-stride loop
    starting at [i] visits. *)
Fixpoint stride_items (fuel : nat) (N T i : Z) : list Z :=
  match fuel with
  | O => []
  | S fuel' =>
      if decide (i < N) then i :: stride_items fuel' N T (i + T) else []
  end.

Lemma elem_of_stride_items fuel N T : ∀ i x,
  0 < T → N - i <= Z.of_nat fuel →
  x ∈ stride_items fuel N T i ↔ x < N ∧ ∃ k, 0 <= k ∧ x = i + k * T.
Proof.
  induction fuel as [| fuel IH]; intros i x HT Hfuel; simpl.
  - split; [inversion 1 |]. intros (Hx & k & Hk & ->). nia.
  - case_decide as Hi.
    + rewrite elem_of_cons, IH by lia. split.
      * intros [-> | (Hx & k & Hk & ->)].
        -- split; [done |]. exists 0. lia.
        -- split; [done |]. exists (k + 1). lia.
      * intros (Hx & k & Hk & ->).
        destruct (decide (k = 0)) as [-> | Hk0]; [left; lia |].
        right. split; [done |]. exists (k - 1). lia.
    + split; [inversion 1 |]. intros (Hx & k & Hk & ->). nia.
Qed.

Lemma NoDup_stride_items fuel N T : ∀ i, 0 < T → NoDup (stride_items fuel N T i).
Proof.
  induction fuel as [| fuel IH]; intros i HT; simpl; [constructor |].
  case_decide; [| constructor]. constructor; [| by apply IH].
  clear IH. generalize (i + T) (Z.lt_add_pos_r T i HT). clear H.
  induction fuel as [| fuel IH]; intros j Hj; simpl; [inversion 1 |].
  case_decide; [| inversion 1]. rewrite elem_of_cons. intros [-> | Hin]; [lia |].
  apply (IH (j + T)); [lia | done].
Qed.

Lemma stride_unfolds {Reg V} (K : kernel Z Z Reg (list V)) N T fuel : ∀ i,
  (∀ i, k_next K i = stride_next N T i) →
  0 < T → N + T <= 2147483648 → -2147483648 <= i → N - i <= Z.of_nat fuel →
  unfolds K i (stride_items fuel N T i).
Proof.
  intros i Hnext HT HN. revert i.
  induction fuel as [| fuel IH]; intros i Hi Hfuel; simpl.
  - constructor. rewrite Hnext. unfold stride_next.
    by rewrite decide_False by lia.
  - case_decide as HiN.
    + apply unfolds_cons with (c' := i + T).
      * rewrite Hnext. unfold stride_next. rewrite decide_True by done.
        by rewrite s32_id by lia.
      * apply IH; lia.
    + constructor. rewrite Hnext. unfold stride_next.
      by rewrite decide_False by lia.
Qed.

(** All the indices a grid of [T] threads visits. *)
Definition grid_items (N T : Z) : list Z :=
  seqZ 0 T ≫= stride_items (Z.to_nat N) N T.

Lemma elem_of_grid_items N T x :
  0 < T → x ∈ grid_items N T ↔ 0 <= x < N.
Proof.
  intros HT. unfold grid_items. rewrite list_elem_of_bind. split.
  - intros (tid & Hx & Htid). apply elem_of_seqZ in Htid.
    apply elem_of_stride_items in Hx as (Hx & k & Hk & ->); [nia | done | lia].
  - intros Hx. exists (x mod T). split.
    + apply elem_of_stride_items; [done | |].
      * pose proof (Z.mod_pos_bound x T HT). lia.
      * split; [lia |]. exists (x / T). split; [apply Z.div_pos; lia |].
        rewrite (Z.div_mod x T) at 1 by lia. lia.
    + apply elem_of_seqZ. pose proof (Z.mod_pos_bound x T HT). lia.
Qed.

Lemma NoDup_grid_items N T : 0 < T → NoDup (grid_items N T).
Proof.
  intros HT. unfold grid_items. apply NoDup_bind.
  - intros t1 t2 x Ht1 Ht2 Hx1 Hx2.
    apply elem_of_seqZ in Ht1, Ht2.
    apply elem_of_stride_items in Hx1 as (_ & k1 & Hk1 & ->); [| done | lia].
    apply elem_of_stride_items in Hx2 as (_ & k2 & Hk2 & Heq); [| done | lia].
    assert (k1 = k2) by nia. subst. lia.
  - intros t _. by apply NoDup_stride_items.
  - apply NoDup_seqZ.
Qed.

(** A grid-stride kernel over the indices below [N] against the host loop
    [for (i = 0; i < N; i++)] with the same body. *)
Section StrideKernel.
Context {Reg V : Type}.
Variable K : kernel Z Z Reg (list V).
Variable cell : Z -> option nat.
Variable upd : Z -> option V -> option Reg.
Variable out : Reg -> V.
Variables (g : dim) (N : Z).

Hypothesis load_cell : ∀ it m,
  k_load K it m = c ← cell it; upd it (m !! c).
Hypothesis store_cell : ∀ it c x r m,
  cell it = Some c → upd it x = Some r →
  k_store K it r m =
    if decide (c < length m)%nat then Some (<[c := out r]> m) else None.
Hypothesis next_stride : ∀ i, k_next K i = stride_next N (grid_stride g) i.
Hypothesis cell_inj : ∀ i j c,
  0 <= i < N → 0 <= j < N → cell i = Some c → cell j = Some c → i = j.
Hypothesis Hg : geometry g.
Hypothesis HN : N + grid_stride g <= 2147483648.

Let T := grid_stride g.
Let futs := stride_items (Z.to_nat N) N T <$> seqZ 0 T.

Lemma stride_inits : s32 <$> thread_ids g = seqZ 0 T.
Proof.
  rewrite thread_ids_seqZ by done.
  transitivity (id <$> seqZ 0 T); [| apply list_fmap_id].
  apply Forall_fmap_ext, Forall_seqZ. intros t Ht. apply s32_id.
  pose proof (grid_stride_pos g Hg). unfold T, id in *. lia.
Qed.

Lemma stride_futs : Forall2 (unfolds K) (s32 <$> thread_ids g) futs.
Proof.
  rewrite stride_inits. unfold futs. apply Forall2_fmap_r, Forall_Forall2_diag.
  apply Forall_seqZ. intros t Ht.
  pose proof (grid_stride_pos g Hg).
  apply stride_unfolds; [done | unfold T; lia | done | lia | lia].
Qed.

Lemma stride_items_join : grid_items N T ≡ₚ mjoin futs.
Proof. unfold futs, grid_items. by rewrite list_join_bind, list_fmap_bind. Qed.

Lemma stride_nodup : NoDup (omap cell (grid_items N T)).
Proof.
  pose proof (grid_stride_pos g Hg).
  apply NoDup_omap_strong; [| apply NoDup_grid_items; unfold T; lia].
  intros i j c Hi Hj. apply elem_of_grid_items in Hi, Hj; [| unfold T; lia ..].
  by apply cell_inj.
Qed.

Lemma host_nodup : NoDup (omap cell (seqZ 0 N)).
Proof.
  apply NoDup_omap_strong; [| apply NoDup_seqZ].
  intros i j c Hi Hj. apply elem_of_seqZ in Hi, Hj. apply cell_inj; lia.
Qed.

Lemma host_items_grid it : it ∈ seqZ 0 N ↔ it ∈ grid_items N T.
Proof.
  pose proof (grid_stride_pos g Hg).
  rewrite elem_of_seqZ, elem_of_grid_items by (unfold T; lia). lia.
Qed.

(** A launch that completes computes what the host loop computes. *)
Lemma stride_launch_host sched m0 m :
  launch K (s32 <$> thread_ids g) sched m0 = Some m →
  for_lt 0 N (exec K) m0 = Some m.
Proof.
  intros Hl. rewrite for_lt_exec_list, Z.sub_0_r.
  eapply (launch_exec_list K cell upd out load_cell store_cell m0
            (grid_items N T) stride_nodup _ futs stride_futs
            stride_items_join); [apply host_items_grid | apply host_nodup |].
  exact Hl.
Qed.

(** When the host loop succeeds, some launch completes, and every launch
    that completes yields the memory of the host loop. *)
Lemma stride_host_launch m0 m :
  for_lt 0 N (exec K) m0 = Some m →
  (∃ sched, launch K (s32 <$> thread_ids g) sched m0 = Some m) ∧
  (∀ sched m', launch K (s32 <$> thread_ids g) sched m0 = Some m' → m' = m).
Proof.
  rewrite for_lt_exec_list, Z.sub_0_r. intros Hex.
  eapply (exec_list_launch K cell upd out load_cell store_cell m0
            (grid_items N T) stride_nodup _ futs stride_futs
            stride_items_join); [apply host_items_grid | apply host_nodup |].
  exact Hex.
Qed.
End StrideKernel.

(** ** Edge repair *)

(** Edge [i] is one of the three edges of a triangle. *)
Definition has_edge (te : int3) (i : Z) : Prop :=
  i = x3 te ∨ i = y3 te ∨ i = z3 te.

Global Instance has_edge_dec te i : Decision (has_edge te i).
Proof. unfold has_edge. apply _. Defined.

(** What [SingleEdgeRepair] does to one slot of the entry of edge [i]. *)
Definition repair_slot (i : Z) (pTsub : list Z) (pTe : list int3) (t : Z)
  : option Z :=
  if decide (t ≠ -1) then
    tS ← rd pTsub t;
    te ← rd pTe t;
    Some (if decide (i ≠ x3 te ∧ i ≠ y3 te ∧ i ≠ z3 te) then tS else t)
  else Some t.

Definition repair_entry (i : Z) (pTsub : list Z) (pTe : list int3)
    (et : int2) : option int2 :=
  t1 ← repair_slot i pTsub pTe (x2 et);
  t2 ← repair_slot i pTsub pTe (y2 et);
  Some (mkInt2 t1 t2).

(** The slot [pEt[i].x] ([true]) or [pEt[i].y] ([false]). *)
Definition slot (s : bool) (et : int2) : Z := if s then x2 et else y2 et.

(** The spec's reading of the repair of one reference: follow the
    substitutes from [t] until a triangle whose edges contain [i]. *)
Fixpoint walk_chain (fuel : nat) (i : Z) (pTsub : list Z) (pTe : list int3)
    (t : Z) : option Z :=
  match fuel with
  | O => None
  | S fuel' =>
      te ← rd pTe t;
      if decide (has_edge te i) then Some t
      else tS ← rd pTsub t; walk_chain fuel' i pTsub pTe tS
  end.

Lemma SingleEdgeRepair_read_entry i pTsub pTe pEt :
  SingleEdgeRepair_read i pTsub pTe pEt =
    et ← rd pEt i; repair_entry i pTsub pTe et.
Proof. reflexivity. Qed.

Lemma SingleEdgeRepair_Some i pTsub pTe pEt pEt' :
  SingleEdgeRepair i pTsub pTe pEt = Some pEt' ↔
  ∃ et et', rd pEt i = Some et ∧ repair_entry i pTsub pTe et = Some et' ∧
            pEt' = <[Z.to_nat i := et']> pEt.
Proof.
  unfold SingleEdgeRepair. rewrite SingleEdgeRepair_read_entry. split.
  - destruct (rd pEt i) as [et |] eqn:Het; simpl; [| done].
    destruct (repair_entry i pTsub pTe et) as [et' |] eqn:Hr; simpl; [| done].
    rewrite wr_Some. intros [_ ->]. by exists et, et'.
  - intros (et & et' & Het & Hr & ->). rewrite Het. simpl. rewrite Hr. simpl.
    apply wr_Some. split; [| done]. apply rd_is_Some. by eexists.
Qed.

Lemma repair_slot_Some i pTsub pTe t t' :
  repair_slot i pTsub pTe t = Some t' ↔
  (t = -1 ∧ t' = -1) ∨
  (t ≠ -1 ∧ ∃ tS te, rd pTsub t = Some tS ∧ rd pTe t = Some te ∧
                     t' = if decide (has_edge te i) then t else tS).
Proof.
  unfold repair_slot. case_decide as Ht.
  - destruct (rd pTsub t) as [tS |]; simpl; [| naive_solver].
    destruct (rd pTe t) as [te |]; simpl; [| naive_solver].
    assert ((if decide (i ≠ x3 te ∧ i ≠ y3 te ∧ i ≠ z3 te) then tS else t)
            = if decide (has_edge te i) then t else tS) as ->.
    { unfold has_edge. repeat case_decide; try done; lia. }
    naive_solver.
  - assert (t = -1) as -> by lia. naive_solver.
Qed.

Lemma repair_entry_Some i pTsub pTe et et' :
  repair_entry i pTsub pTe et = Some et' ↔
  ∀ s, repair_slot i pTsub pTe (slot s et) = Some (slot s et').
Proof.
  unfold repair_entry. split.
  - destruct (repair_slot i pTsub pTe (x2 et)) as [t1 |] eqn:H1; simpl; [| done].
    destruct (repair_slot i pTsub pTe (y2 et)) as [t2 |] eqn:H2; simpl; [| done].
    intros [= <-]. by intros [].
  - intros Hs. pose proof (Hs true) as H1. pose proof (Hs false) as H2.
    simpl in H1, H2. rewrite H1. simpl. rewrite H2. simpl. by destruct et'.
Qed.

(** The cell of the edge-triangle table that edge [i] owns. *)
Definition edge_cell (i : Z) : option nat :=
  if decide (0 <= i) then Some (Z.to_nat i) else None.

Lemma edge_cell_Some i c : edge_cell i = Some c ↔ 0 <= i ∧ c = Z.to_nat i.
Proof. unfold edge_cell. case_decide; naive_solver. Qed.

Lemma rd_edge_cell {A} (p : list A) i : rd p i = c ← edge_cell i; p !! c.
Proof. unfold rd, edge_cell. by case_decide. Qed.

Lemma wr_edge_cell {A} (p : list A) i c v :
  edge_cell i = Some c →
  wr p i v = if decide (c < length p)%nat then Some (<[c := v]> p) else None.
Proof. rewrite edge_cell_Some. intros [Hi ->]. by apply wr_nat. Qed.

Section EdgeKernels.
Variables (pTsub : list Z) (pTe : list int3).

Definition edge_upd (i : Z) (x : option int2) : option int2 :=
  et ← x; repair_entry i pTsub pTe et.

Lemma devEdgeRepair_load g N i m :
  k_load (devEdgeRepair g N pTsub pTe) i m =
    c ← edge_cell i; edge_upd i (m !! c).
Proof.
  simpl. rewrite SingleEdgeRepair_read_entry, rd_edge_cell.
  by destruct (edge_cell i).
Qed.

Lemma devEdgeRepair_store g N i c (x : option int2) r m :
  edge_cell i = Some c → edge_upd i x = Some r →
  k_store (devEdgeRepair g N pTsub pTe) i r m =
    if decide (c < length m)%nat then Some (<[c := id r]> m) else None.
Proof. intros Hc _. simpl. by apply wr_edge_cell. Qed.

Lemma edge_cell_inj i j c : edge_cell i = Some c → edge_cell j = Some c → i = j.
Proof. rewrite !edge_cell_Some. intros [? ->] [? ?]. lia. Qed.

(** The host loop over all edges, entry by entry. *)
Lemma repair_all_entries N pEt pEt' :
  for_lt 0 N (λ i pEt, SingleEdgeRepair i pTsub pTe pEt) pEt = Some pEt' →
  length pEt' = length pEt ∧
  (∀ i et, 0 <= i < N → rd pEt i = Some et →
     ∃ et', repair_entry i pTsub pTe et = Some et' ∧ rd pEt' i = Some et') ∧
  (∀ i, ¬ (0 <= i < N) → rd pEt' i = rd pEt i).
Proof.
  rewrite for_lt_exec_list, Z.sub_0_r. intros Hex.
  destruct (exec_list_post (devEdgeRepair (Dim 1 1) N pTsub pTe)
              edge_cell edge_upd id (devEdgeRepair_load _ _)
              (devEdgeRepair_store _ _) pEt (seqZ 0 N) [] pEt pEt')
    as [(Hlen & Hd & Hf) _]; [apply post_nil | | exact Hex |].
  { apply NoDup_omap_strong; [| apply NoDup_seqZ].
    intros i j c _ _. apply edge_cell_inj. }
  simpl in Hd. split_and!; [done | |].
  - intros i et Hi Het.
    destruct (Hd i) as (c & r & Hc & Hu & Hr); [apply elem_of_seqZ; lia |].
    rewrite rd_edge_cell, Hc in Het. simpl in Het.
    unfold edge_upd in Hu. rewrite Het in Hu. simpl in Hu.
    exists r. split; [done |]. by rewrite rd_edge_cell, Hc.
  - intros i Hi. rewrite !rd_edge_cell.
    destruct (edge_cell i) as [c |] eqn:Hc; simpl; [| done].
    apply Hf. intros j Hj Hcj. apply elem_of_seqZ in Hj.
    rewrite (edge_cell_inj _ _ _ Hc Hcj) in Hi. lia.
Qed.

(** The host loop succeeds when every entry it visits can be repaired. *)
Lemma repair_all_defined N pEt :
  (∀ i, 0 <= i < N →
     ∃ et et', rd pEt i = Some et ∧ repair_entry i pTsub pTe et = Some et') →
  is_Some (for_lt 0 N (λ i pEt, SingleEdgeRepair i pTsub pTe pEt) pEt).
Proof.
  intros Hall. rewrite for_lt_exec_list, Z.sub_0_r.
  apply (exec_list_ready (devEdgeRepair (Dim 1 1) N pTsub pTe)
           edge_cell edge_upd id (devEdgeRepair_load _ _)
           (devEdgeRepair_store _ _) pEt (seqZ 0 N) [] pEt).
  - apply post_nil.
  - apply NoDup_omap_strong; [| apply NoDup_seqZ].
    intros i j c _ _. apply edge_cell_inj.
  - apply Forall_seqZ. intros i Hi.
    destruct (Hall i) as (et & et' & Het & Hr); [lia |].
    exists (Z.to_nat i), et'. split_and!.
    + apply edge_cell_Some. split; [lia | done].
    + apply rd_Some in Het as [_ Het]. by eapply lookup_lt_Some.
    + apply rd_Some in Het as [_ Het]. unfold edge_upd. by rewrite Het.
Qed.
End EdgeKernels.

(** The conditions under which the grid-stride loop over [N] indices does
    not overflow its [int] counter. *)
Definition launch_ok (g : dim) (N : Z) : Prop :=
  geometry g ∧ N + grid_stride g <= 2147483648.

Section EdgeLimitKernel.
Variables (pEnC pTsub : list Z) (pTe : list int3).

Definition limit_cell (k : Z) : option nat := e ← rd pEnC k; edge_cell e.

Definition limit_upd (k : Z) (x : option int2) : option (Z * int2) :=
  e ← rd pEnC k; et ← x; r ← repair_entry e pTsub pTe et; Some (e, r).

Lemma devEdgeRepairLimit_load g N k m :
  k_load (devEdgeRepairLimit g N pEnC pTsub pTe) k m =
    c ← limit_cell k; limit_upd k (m !! c).
Proof.
  simpl. unfold limit_cell, limit_upd.
  destruct (rd pEnC k) as [e |]; simpl; [| done].
  rewrite SingleEdgeRepair_read_entry, rd_edge_cell.
  destruct (edge_cell e) as [c |]; simpl; [| done].
  by destruct (m !! c).
Qed.

Lemma devEdgeRepairLimit_store g N k c (x : option int2) er m :
  limit_cell k = Some c → limit_upd k x = Some er →
  k_store (devEdgeRepairLimit g N pEnC pTsub pTe) k er m =
    if decide (c < length m)%nat then Some (<[c := er.2]> m) else None.
Proof.
  unfold limit_cell, limit_upd. simpl.
  destruct (rd pEnC k) as [e |]; simpl; [| done].
  intros Hc Hu. destruct x as [et |]; simpl in Hu; [| done].
  destruct (repair_entry e pTsub pTe et); simpl in Hu; [| done].
  injection Hu as <-. simpl. by apply wr_edge_cell.
Qed.

Lemma devEdgeRepairLimit_exec g N k m :
  exec (devEdgeRepairLimit g N pEnC pTsub pTe) k m =
    e ← rd pEnC k; SingleEdgeRepair e pTsub pTe m.
Proof.
  unfold exec, SingleEdgeRepair. simpl.
  destruct (rd pEnC k) as [e |]; simpl; [| done].
  by destruct (SingleEdgeRepair_read e pTsub pTe m).
Qed.

Lemma limit_host_exec_list g N (m : list int2) :
  for_lt 0 N (λ i pEt, e ← rd pEnC i; SingleEdgeRepair e pTsub pTe pEt) m =
  exec_list (exec (devEdgeRepairLimit g N pEnC pTsub pTe))
            (seqZ 0 N) m.
Proof.
  rewrite for_lt_exec_list, Z.sub_0_r. generalize (seqZ 0 N). intros l.
  revert m. induction l as [| k l IH]; intros m; simpl; [done |].
  rewrite devEdgeRepairLimit_exec.
  destruct (rd pEnC k ≫= _); simpl; [apply IH | done].
Qed.
End EdgeLimitKernel.

(** *** [Delaunay::EdgeRepair] *)

Lemma EdgeRepair_Some g sched D c enc n D' c' :
  EdgeRepair g sched D c enc n = Some (D', c') →
  D' = D ∧ triangleEdges c' = triangleEdges c.
Proof.
  unfold EdgeRepair.
  destruct (match enc with None => _ | Some _ => _ end); simpl; [| done].
  by intros [= <- <-].
Qed.

(** Over all edges, either path computes what the host loop computes. *)
Lemma EdgeRepair_all_host g sched D c n D' c' :
  EdgeRepair g sched D c None n = Some (D', c') →
  (cudaFlag D = 1 → launch_ok g (Z.of_nat (length (edgeTriangles c)))) →
  for_lt 0 (Z.of_nat (length (edgeTriangles c)))
    (λ i pEt, SingleEdgeRepair i (triangleSubstitute D) (triangleEdges c) pEt)
    (edgeTriangles c) = Some (edgeTriangles c').
Proof.
  unfold EdgeRepair. intros Hrep Hok.
  destruct (decide (cudaFlag D = 1)) as [Hcuda | Hcuda].
  - destruct (Hok Hcuda) as [Hg HN].
    destruct (launch _ _ _ _) as [pEt' |] eqn:Hl; simpl in Hrep; [| done].
    injection Hrep as <- <-. simpl.
    change (for_lt 0 (Z.of_nat (length (edgeTriangles c)))
              (exec (devEdgeRepair g (Z.of_nat (length (edgeTriangles c)))
                       (triangleSubstitute D) (triangleEdges c)))
              (edgeTriangles c) = Some pEt').
    eapply (stride_launch_host _ edge_cell
              (edge_upd (triangleSubstitute D) (triangleEdges c)) id g);
      [apply devEdgeRepair_load | apply devEdgeRepair_store | done | | done
      | done | exact Hl].
    intros i j k _ _. apply edge_cell_inj.
  - destruct (for_lt _ _ _ _) as [pEt' |] eqn:Hl; simpl in Hrep; [| done].
    by injection Hrep as <- <-.
Qed.

(** The entry of every edge after a pass over all edges. *)
Lemma EdgeRepair_all_entries g sched D c n D' c' :
  EdgeRepair g sched D c None n = Some (D', c') →
  (cudaFlag D = 1 → launch_ok g (Z.of_nat (length (edgeTriangles c)))) →
  ∀ i et, rd (edgeTriangles c) i = Some et →
    ∃ et', repair_entry i (triangleSubstitute D) (triangleEdges c) et = Some et'
           ∧ rd (edgeTriangles c') i = Some et'.
Proof.
  intros Hrep Hok i et Het.
  pose proof (EdgeRepair_all_host _ _ _ _ _ _ _ Hrep Hok) as Hhost.
  apply repair_all_entries in Hhost as (_ & Hent & _).
  apply Hent; [| done]. apply rd_is_Some. by eexists.
Qed.

(** With a candidate list, either path leaves alone every cell that no
    listed edge owns. *)
Lemma EdgeRepair_limit_frame g sched D c pEnC n D' c' :
  EdgeRepair g sched D c (Some pEnC) n = Some (D', c') →
  (cudaFlag D = 1 → launch_ok g n) →
  frame (limit_cell pEnC) (edgeTriangles c) (seqZ 0 n) (edgeTriangles c').
Proof.
  unfold EdgeRepair. intros Hrep Hok.
  assert (frame (limit_cell pEnC) (edgeTriangles c) (seqZ 0 n)
            (edgeTriangles c)) as Hinit by done.
  destruct (decide (cudaFlag D = 1)) as [Hcuda | Hcuda].
  - destruct (Hok Hcuda) as [Hg HN].
    destruct (launch _ _ _ _) as [pEt' |] eqn:Hl; simpl in Hrep; [| done].
    injection Hrep as <- <-. simpl.
    eapply (launch_frame _ (limit_cell pEnC)
              (limit_upd pEnC (triangleSubstitute D) (triangleEdges c)) snd);
      [apply devEdgeRepairLimit_load | apply devEdgeRepairLimit_store | | |
       exact Hl].
    + by apply (stride_futs _ g n).
    + intros k. rewrite list_join_bind, list_fmap_bind.
      pose proof (grid_stride_pos g Hg).
      intros Hk. apply (elem_of_grid_items n (grid_stride g)) in Hk; [| lia].
      apply elem_of_seqZ. lia.
  - rewrite (limit_host_exec_list _ _ _ g) in Hrep.
    destruct (exec_list _ _ _) as [pEt' |] eqn:Hl; simpl in Hrep; [| done].
    injection Hrep as <- <-. simpl.
    eapply (exec_list_frame _ (limit_cell pEnC)
              (limit_upd pEnC (triangleSubstitute D) (triangleEdges c)) snd);
      [apply devEdgeRepairLimit_load | apply devEdgeRepairLimit_store
      | exact Hinit | | exact Hl].
    done.
Qed.

(** No edge occurs twice among the first [n] entries of the list. *)
Definition listed_once (pEnC : list Z) (n : Z) : Prop :=
  ∀ k1 k2 e, 0 <= k1 < n → 0 <= k2 < n →
    rd pEnC k1 = Some e → rd pEnC k2 = Some e → k1 = k2.

Lemma limit_cell_inj pEnC n k1 k2 c :
  listed_once pEnC n → 0 <= k1 < n → 0 <= k2 < n →
  limit_cell pEnC k1 = Some c → limit_cell pEnC k2 = Some c → k1 = k2.
Proof.
  unfold limit_cell. intros Honce Hk1 Hk2.
  destruct (rd pEnC k1) as [e1 |] eqn:He1; simpl; [| done].
  destruct (rd pEnC k2) as [e2 |] eqn:He2; simpl; [| done].
  intros Hc1 Hc2. rewrite (edge_cell_inj _ _ _ Hc1 Hc2) in He1.
  by eapply Honce.
Qed.

Lemma limit_nodup pEnC n :
  listed_once pEnC n → NoDup (omap (limit_cell pEnC) (seqZ 0 n)).
Proof.
  intros Honce. apply NoDup_omap_strong; [| apply NoDup_seqZ].
  intros i j c Hi Hj. apply elem_of_seqZ in Hi, Hj.
  apply (limit_cell_inj pEnC n); [done | lia | lia].
Qed.

(** With a candidate list that names no edge twice, either path computes
    what the host loop computes. *)
Lemma EdgeRepair_limit_host g sched D c pEnC n D' c' :
  EdgeRepair g sched D c (Some pEnC) n = Some (D', c') →
  (cudaFlag D = 1 → launch_ok g n) → listed_once pEnC n →
  for_lt 0 n
    (λ i pEt,
       e ← rd pEnC i;
       SingleEdgeRepair e (triangleSubstitute D) (triangleEdges c) pEt)
    (edgeTriangles c) = Some (edgeTriangles c').
Proof.
  unfold EdgeRepair. intros Hrep Hok Honce.
  destruct (decide (cudaFlag D = 1)) as [Hcuda | Hcuda].
  - destruct (Hok Hcuda) as [Hg HN].
    destruct (launch _ _ _ _) as [pEt' |] eqn:Hl; simpl in Hrep; [| done].
    injection Hrep as <- <-. simpl.
    rewrite (limit_host_exec_list _ _ _ g).
    rewrite <- (Z.sub_0_r n) at 2. rewrite <- for_lt_exec_list.
    eapply (stride_launch_host
              (devEdgeRepairLimit g n pEnC (triangleSubstitute D)
                 (triangleEdges c))
              (limit_cell pEnC)
              (limit_upd pEnC (triangleSubstitute D) (triangleEdges c)) snd g);
      [apply devEdgeRepairLimit_load | apply devEdgeRepairLimit_store | done
      | | done | done | exact Hl].
    intros i j k. by apply limit_cell_inj.
  - destruct (for_lt _ _ _ _) as [pEt' |] eqn:Hl; simpl in Hrep; [| done].
    by injection Hrep as <- <-.
Qed.

(** The host loop over a candidate list that names no edge twice. *)
Lemma repair_limit_entries pEnC pTsub pTe n pEt pEt' :
  listed_once pEnC n →
  for_lt 0 n (λ i pEt, e ← rd pEnC i; SingleEdgeRepair e pTsub pTe pEt) pEt
    = Some pEt' →
  ∀ k, 0 <= k < n →
    ∃ e et et', rd pEnC k = Some e ∧ rd pEt e = Some et ∧
                repair_entry e pTsub pTe et = Some et' ∧
                rd pEt' e = Some et'.
Proof.
  intros Honce. rewrite (limit_host_exec_list _ _ _ (Dim 1 1)).
  intros Hex k Hk.
  destruct (exec_list_post (devEdgeRepairLimit (Dim 1 1) n pEnC pTsub pTe)
              (limit_cell pEnC) (limit_upd pEnC pTsub pTe) snd
              (devEdgeRepairLimit_load _ _ _ _ _)
              (devEdgeRepairLimit_store _ _ _ _ _) pEt (seqZ 0 n) [] pEt pEt')
    as [(Hlen & Hd & Hf) _];
    [apply post_nil | by apply limit_nodup | exact Hex |].
  destruct (Hd k) as (c & r & Hc & Hu & Hr); [apply elem_of_seqZ; lia |].
  unfold limit_cell in Hc. unfold limit_upd in Hu.
  destruct (rd pEnC k) as [e |] eqn:He; simpl in Hc, Hu; [| done].
  destruct (pEt !! c) as [et |] eqn:Het; simpl in Hu; [| done].
  destruct (repair_entry e pTsub pTe et) as [et' |] eqn:Hrep; simpl in Hu;
    [| done].
  injection Hu as <-. simpl in Hr.
  exists e, et, et'. rewrite !rd_edge_cell, Hc. simpl. done.
Qed.

(** The number of loop indices of a pass, and the edges it processes. *)
Definition pass_size (enc : option (list Z)) (n : Z) (c : Connectivity) : Z :=
  match enc with
  | None => Z.of_nat (length (edgeTriangles c))
  | Some _ => n
  end.

Definition processed (enc : option (list Z)) (n : Z) (c : Connectivity)
    (i : Z) : Prop :=
  match enc with
  | None => 0 <= i < Z.of_nat (length (edgeTriangles c))
  | Some pEnC => ∃ k, 0 <= k < n ∧ rd pEnC k = Some i
  end.

(** Every processed edge is processed once. *)
Definition once (enc : option (list Z)) (n : Z) : Prop :=
  match enc with
  | None => True
  | Some pEnC => listed_once pEnC n
  end.

(** What a pass that returns has written: nothing outside the listed
    edges with a candidate list, the repaired entry of every edge with the
    null list, and neither the triangle-edge table nor the substitute
    array. *)
Lemma EdgeRepair_frame g sched D c enc n D' c' :
  EdgeRepair g sched D c enc n = Some (D', c') →
  (cudaFlag D = 1 → launch_ok g (pass_size enc n c)) →
  triangleEdges c' = triangleEdges c ∧
  triangleSubstitute D' = triangleSubstitute D ∧
  match enc with
  | Some pEnC =>
      ∀ j, (∀ k, 0 <= k < n → rd pEnC k ≠ Some j) →
           rd (edgeTriangles c') j = rd (edgeTriangles c) j
  | None =>
      ∀ i, 0 <= i < Z.of_nat (length (edgeTriangles c)) →
        ∃ et',
          SingleEdgeRepair_read i (triangleSubstitute D) (triangleEdges c)
            (edgeTriangles c) = Some et' ∧
          rd (edgeTriangles c') i = Some et'
  end.
Proof.
  intros Hrep Hok. destruct (EdgeRepair_Some _ _ _ _ _ _ _ _ Hrep) as [-> Hte].
  split_and!; [done | done |]. destruct enc as [pEnC |].
  - intros j Hj.
    destruct (EdgeRepair_limit_frame _ _ _ _ _ _ _ _ Hrep Hok) as [_ Hf].
    rewrite !rd_edge_cell. destruct (edge_cell j) as [cj |] eqn:Hcj; [| done].
    simpl. apply Hf. intros k Hk. apply elem_of_seqZ in Hk.
    unfold limit_cell. destruct (rd pEnC k) as [e |] eqn:He; simpl; [| done].
    intros Hce. apply (Hj k); [lia |].
    by rewrite He, (edge_cell_inj _ _ _ Hce Hcj).
  - intros i Hi. apply rd_is_Some in Hi as [et Het].
    destruct (EdgeRepair_all_entries _ _ _ _ _ _ _ Hrep Hok i et Het)
      as (et' & Hr & Het').
    exists et'. split; [| done].
    rewrite SingleEdgeRepair_read_entry, Het. done.
Qed.

(** The entry of every processed edge after a pass that processes each
    edge once. *)
Lemma EdgeRepair_entries g sched D c enc n D' c' :
  EdgeRepair g sched D c enc n = Some (D', c') →
  (cudaFlag D = 1 → launch_ok g (pass_size enc n c)) →
  once enc n →
  ∀ i, processed enc n c i →
    ∃ et et', rd (edgeTriangles c) i = Some et ∧
      repair_entry i (triangleSubstitute D) (triangleEdges c) et = Some et' ∧
      rd (edgeTriangles c') i = Some et'.
Proof.
  intros Hrep Hok Honce i Hi. destruct enc as [pEnC |]; simpl in *.
  - destruct Hi as (k & Hk & He).
    pose proof (EdgeRepair_limit_host _ _ _ _ _ _ _ _ Hrep Hok Honce) as Hhost.
    destruct (repair_limit_entries _ _ _ _ _ _ Honce Hhost k Hk)
      as (e & et & et' & He' & Het & Hr & Het').
    rewrite He in He'. injection He' as <-. by exists et, et'.
  - apply rd_is_Some in Hi as [et Het].
    destruct (EdgeRepair_all_entries _ _ _ _ _ _ _ Hrep Hok i et Het)
      as (et' & Hr & Het').
    by exists et, et'.
Qed.

(** C1 (as the code has it): for every edge [i] that a pass of
    [EdgeRepair] processes once and whose entry references a triangle [t]
    whose edge list does not contain [i], the pass rewrites that reference
    to [triangleSubstitute[t]]: one step along the substitute chain, taken
    without looking at the substitute's edge list.  When the substitute's
    edge list does contain [i], that is where the chain walk ends. *)
Theorem EdgeRepair_one_substitute g sched D c enc n D' c' :
  EdgeRepair g sched D c enc n = Some (D', c') →
  (cudaFlag D = 1 → launch_ok g (pass_size enc n c)) →
  once enc n →
  ∀ i et s te,
    processed enc n c i →
    rd (edgeTriangles c) i = Some et →
    slot s et ≠ -1 →
    rd (triangleEdges c) (slot s et) = Some te →
    ¬ has_edge te i →
    ∃ et', rd (edgeTriangles c') i = Some et' ∧
      rd (triangleSubstitute D) (slot s et) = Some (slot s et') ∧
      (∀ te', rd (triangleEdges c) (slot s et') = Some te' →
              has_edge te' i →
              walk_chain 2 i (triangleSubstitute D) (triangleEdges c)
                (slot s et) = Some (slot s et')).
Proof.
  intros Hrep Hok Honce i et s te Hi Het Hs Hte Hstale.
  destruct (EdgeRepair_entries _ _ _ _ _ _ _ _ Hrep Hok Honce i Hi)
    as (et0 & et' & Het0 & Hr & Het').
  rewrite Het in Het0. injection Het0 as <-.
  exists et'. split; [done |].
  pose proof (proj1 (repair_entry_Some _ _ _ _ _) Hr s) as Hslot.
  apply repair_slot_Some in Hslot as [[? _] | (_ & tS & te0 & HtS & Hte0 & Hs')];
    [done |].
  rewrite Hte in Hte0. injection Hte0 as <-.
  rewrite decide_False in Hs' by done. subst tS. split; [done |].
  intros te' Hte' Hhas. simpl. rewrite Hte. simpl.
  rewrite decide_False by done. rewrite HtS. simpl. rewrite Hte'. simpl.
  by rewrite decide_True.
Qed.

(** A mesh in which the substitute chain of a stale reference has two
    links: edge 0 names triangle 0, whose substitute is triangle 1, whose
    substitute is triangle 2; only triangle 2 has edge 0. *)
Definition chain_D (cudaFlag : Z) : Delaunay := mkDelaunay cudaFlag [1; 2; 2].
Definition chain_c : Connectivity :=
  mkConnectivity [mkInt3 5 5 5; mkInt3 5 5 5; mkInt3 0 5 5] [mkInt2 0 (-1)].

Lemma EdgeRepair_one_substitute_witness :
  ∃ et', rd [mkInt2 1 (-1)] 0 = Some et' ∧
    rd [1; 2; 2] 0 = Some (slot true et') ∧
    (∀ te', rd (triangleEdges chain_c) (slot true et') = Some te' →
            has_edge te' 0 →
            walk_chain 2 0 [1; 2; 2] (triangleEdges chain_c) 0
              = Some (slot true et')).
Proof.
  refine (EdgeRepair_one_substitute (Dim 2 1) [0; 1; 0; 1]%nat (chain_D 1) chain_c
            None 0 (chain_D 1)
            (mkConnectivity (triangleEdges chain_c) [mkInt2 1 (-1)])
            eq_refl _ I 0 (mkInt2 0 (-1)) true (mkInt3 5 5 5) _
            eq_refl _ eq_refl _).
  - intros _. unfold launch_ok, geometry. simpl. vm_compute. intuition congruence.
  - simpl. lia.
  - simpl. lia.
  - unfold has_edge. simpl. lia.
Defined.

(** C1 (as the spec words it) fails on the chain mesh: the pass leaves
    edge 0 pointing at triangle 1, whose edge list does not contain edge
    0, although the chain walk from the stale reference ends at triangle
    2, and never at triangle 1. *)
Lemma EdgeRepair_chain_counterexample :
  EdgeRepair (Dim 1 1) [] (chain_D 0) chain_c None 0
    = Some (chain_D 0, mkConnectivity (triangleEdges chain_c) [mkInt2 1 (-1)])
  ∧ rd (triangleEdges chain_c) 0 = Some (mkInt3 5 5 5)
  ∧ ¬ has_edge (mkInt3 5 5 5) 0
  ∧ rd (triangleEdges chain_c) 1 = Some (mkInt3 5 5 5)
  ∧ walk_chain 3 0 [1; 2; 2] (triangleEdges chain_c) 0 = Some 2
  ∧ ∀ fuel, walk_chain fuel 0 [1; 2; 2] (triangleEdges chain_c) 0 ≠ Some 1.
Proof.
  split_and!; [reflexivity | reflexivity | | reflexivity | reflexivity |].
  - unfold has_edge. simpl. lia.
  - intros [| [| [| fuel]]]; vm_compute; congruence.
Qed.

(** The chain mesh with a second edge, edge 1 of triangle 2; only edge 0
    is listed for repair. *)
Definition frame_c : Connectivity :=
  mkConnectivity [mkInt3 5 5 5; mkInt3 5 5 5; mkInt3 0 1 5]
                 [mkInt2 0 (-1); mkInt2 2 (-1)].

(** [SingleEdgeRepair] returns exactly when the entry of edge [i] and the
    two tables at its slots that are not sentinels can be read. *)
Lemma SingleEdgeRepair_defined i pTsub pTe pEt :
  is_Some (SingleEdgeRepair i pTsub pTe pEt) ↔
  ∃ et, rd pEt i = Some et ∧
    ∀ s, slot s et ≠ -1 →
         is_Some (rd pTsub (slot s et)) ∧ is_Some (rd pTe (slot s et)).
Proof.
  split.
  - intros [pEt' Hrep]. apply SingleEdgeRepair_Some in Hrep
      as (et & et' & Het & Hr & _).
    exists et. split; [done |]. intros s Hs.
    pose proof (proj1 (repair_entry_Some _ _ _ _ _) Hr s) as Hslot.
    apply repair_slot_Some in Hslot
      as [[? _] | (_ & tS & te & -> & -> & _)]; [done |].
    by split; eexists.
  - intros (et & Het & Hs).
    assert (∀ s, is_Some (repair_slot i pTsub pTe (slot s et))) as Hsl.
    { intros s. unfold repair_slot. case_decide as Hne; [| by eexists].
      destruct (Hs s Hne) as [[tS ->] [te ->]]. by eexists. }
    destruct (Hsl true) as [t1 H1]. destruct (Hsl false) as [t2 H2].
    exists (<[Z.to_nat i := mkInt2 t1 t2]> pEt).
    apply SingleEdgeRepair_Some. exists et, (mkInt2 t1 t2).
    split_and!; [done | | done].
    apply repair_entry_Some. by intros [].
Qed.

(** C8: [SingleEdgeRepair] keeps the sentinels: a slot of an
    edge-triangle entry that equals -1 before the repair of edge [i]
    equals -1 after it, in the entry of [i] and in every other entry. *)
Theorem SingleEdgeRepair_keeps_sentinel i pTsub pTe pEt pEt' :
  SingleEdgeRepair i pTsub pTe pEt = Some pEt' →
  ∀ j et s, rd pEt j = Some et → slot s et = -1 →
    ∃ et', rd pEt' j = Some et' ∧ slot s et' = -1.
Proof.
  intros Hrep j et s Het Hs.
  apply SingleEdgeRepair_Some in Hrep as (eti & eti' & Heti & Hr & ->).
  destruct (decide (j = i)) as [-> | Hne].
  - rewrite Het in Heti. injection Heti as <-. exists eti'. split.
    + apply rd_Some in Het as [Hi Het]. apply rd_Some. split; [done |].
      apply list_lookup_insert_eq. by eapply lookup_lt_Some.
    + pose proof (proj1 (repair_entry_Some _ _ _ _ _) Hr s) as Hslot.
      apply repair_slot_Some in Hslot as [[_ ?] | [? _]]; done.
  - exists et. split; [| done].
    apply rd_Some in Het as [Hj Het]. apply rd_Some. split; [done |].
    rewrite list_lookup_insert_ne; [done |].
    apply rd_Some in Heti as [Hi _]. lia.
Qed.

Lemma SingleEdgeRepair_keeps_sentinel_witness :
  SingleEdgeRepair 0 [1; 2; 2] (triangleEdges chain_c) [mkInt2 0 (-1)]
    = Some [mkInt2 1 (-1)]
  ∧ ∃ et', rd [mkInt2 1 (-1)] 0 = Some et' ∧ slot false et' = -1.
Proof.
  split; [reflexivity |].
  exact (SingleEdgeRepair_keeps_sentinel 0 [1; 2; 2] (triangleEdges chain_c)
           [mkInt2 0 (-1)] [mkInt2 1 (-1)] eq_refl 0 (mkInt2 0 (-1)) false
           eq_refl eq_refl).
Defined.

(** Every slot of the entry of edge [i] that is not the sentinel names a
    triangle whose edge list contains [i]. *)
Definition consistent (i : Z) (pTe : list int3) (et : int2) : Prop :=
  ∀ s, slot s et ≠ -1 → ∃ te, rd pTe (slot s et) = Some te ∧ has_edge te i.

Lemma repair_entry_consistent i pTsub pTe et et' :
  consistent i pTe et → repair_entry i pTsub pTe et = Some et' → et' = et.
Proof.
  intros Hcons Hr.
  assert (∀ s, slot s et' = slot s et) as Hs.
  { intros s. pose proof (proj1 (repair_entry_Some _ _ _ _ _) Hr s) as Hslot.
    apply repair_slot_Some in Hslot
      as [[-> ->] | (Hne & tS & te & _ & Hte & ->)]; [done |].
    destruct (Hcons s Hne) as (te' & Hte' & Hhas).
    rewrite Hte in Hte'. injection Hte' as <-. by rewrite decide_True. }
  pose proof (Hs true) as H1. pose proof (Hs false) as H2. simpl in H1, H2.
  destruct et, et'. simpl in *. by subst.
Qed.

(** The substitute of every stale reference in the table has the
    referencing edge in its edge list. *)
Definition substitutes_contain (pTsub : list Z) (pTe : list int3)
    (pEt : list int2) : Prop :=
  ∀ i et s te, rd pEt i = Some et → slot s et ≠ -1 →
    rd pTe (slot s et) = Some te → ¬ has_edge te i →
    ∃ tS te', rd pTsub (slot s et) = Some tS ∧ rd pTe tS = Some te' ∧
              has_edge te' i.

Lemma repair_entry_makes_consistent i pTsub pTe pEt et et' :
  substitutes_contain pTsub pTe pEt → rd pEt i = Some et →
  repair_entry i pTsub pTe et = Some et' → consistent i pTe et'.
Proof.
  intros Hsub Het Hr s Hs'.
  pose proof (proj1 (repair_entry_Some _ _ _ _ _) Hr s) as Hslot.
  apply repair_slot_Some in Hslot
    as [[_ ?] | (Hne & tS & te & HtS & Hte & Heq)]; [done |].
  destruct (decide (has_edge te i)) as [Hhas | Hstale].
  - rewrite Heq. by exists te.
  - destruct (Hsub i et s te Het Hne Hte Hstale) as (tS' & te' & HtS' & Hte' & ?).
    rewrite HtS in HtS'. injection HtS' as <-. rewrite Heq. by exists te'.
Qed.

Lemma rd_ext {A} (l1 l2 : list A) :
  length l1 = length l2 → (∀ i x, rd l1 i = Some x → rd l2 i = Some x) →
  l1 = l2.
Proof.
  intros Hlen Hrd. apply list_eq. intros k.
  destruct (l1 !! k) as [x |] eqn:Hk.
  - symmetry. rewrite <- rd_nat. apply Hrd. by rewrite rd_nat.
  - symmetry. apply lookup_ge_None. apply lookup_ge_None in Hk. lia.
Qed.

(** When the host loop over all edges succeeds, so does [EdgeRepair] on
    either path, under some schedule. *)
Lemma EdgeRepair_all_exists g D c n pEt' :
  for_lt 0 (Z.of_nat (length (edgeTriangles c)))
    (λ i pEt, SingleEdgeRepair i (triangleSubstitute D) (triangleEdges c) pEt)
    (edgeTriangles c) = Some pEt' →
  (cudaFlag D = 1 → launch_ok g (Z.of_nat (length (edgeTriangles c)))) →
  ∃ sched, EdgeRepair g sched D c None n
           = Some (D, mkConnectivity (triangleEdges c) pEt').
Proof.
  intros Hhost Hok. unfold EdgeRepair.
  destruct (decide (cudaFlag D = 1)) as [Hcuda | Hcuda].
  - destruct (Hok Hcuda) as [Hg HN].
    destruct (stride_host_launch
                (devEdgeRepair g (Z.of_nat (length (edgeTriangles c)))
                   (triangleSubstitute D) (triangleEdges c))
                edge_cell
                (edge_upd (triangleSubstitute D) (triangleEdges c)) id g
                (Z.of_nat (length (edgeTriangles c)))
                (devEdgeRepair_load _ _ _ _) (devEdgeRepair_store _ _ _ _)
                (λ _, eq_refl) (λ i j k _ _, edge_cell_inj i j k) Hg HN
                (edgeTriangles c) pEt' Hhost) as [[sched Hl] _].
    exists sched. by rewrite Hl.
  - exists []. by rewrite Hhost.
Qed.

(** C9: [SingleEdgeRepair] is the identity on a consistent entry: when
    every slot of the entry of edge [i] that is not the sentinel names a
    triangle whose edge list contains [i], the repair of [i] returns the
    table unchanged.  Consequently, when the substitute of every stale
    reference contains the repaired edge, a second pass over all edges
    changes nothing: it returns the table the first pass returned. *)
Theorem EdgeRepair_idempotent :
  (∀ i pTsub pTe pEt et,
     rd pEt i = Some et → consistent i pTe et →
     (∀ pEt', SingleEdgeRepair i pTsub pTe pEt = Some pEt' → pEt' = pEt) ∧
     ((∀ s, slot s et ≠ -1 → is_Some (rd pTsub (slot s et))) →
      SingleEdgeRepair i pTsub pTe pEt = Some pEt)) ∧
  (∀ g sched D c n D1 c1,
     EdgeRepair g sched D c None n = Some (D1, c1) →
     (cudaFlag D = 1 → launch_ok g (pass_size None n c)) →
     substitutes_contain (triangleSubstitute D) (triangleEdges c)
       (edgeTriangles c) →
     (∀ sched2 r, EdgeRepair g sched2 D1 c1 None n = Some r → r = (D1, c1)) ∧
     (length (triangleSubstitute D) = length (triangleEdges c) →
      ∃ sched2, EdgeRepair g sched2 D1 c1 None n = Some (D1, c1))).
Proof.
  assert (∀ i pTsub pTe pEt et pEt',
            rd pEt i = Some et → consistent i pTe et →
            SingleEdgeRepair i pTsub pTe pEt = Some pEt' → pEt' = pEt) as Hid.
  { intros i pTsub pTe pEt et pEt' Het Hcons Hrep.
    apply SingleEdgeRepair_Some in Hrep as (et0 & et' & Het0 & Hr & ->).
    rewrite Het in Het0. injection Het0 as <-.
    rewrite (repair_entry_consistent _ _ _ _ _ Hcons Hr).
    apply list_insert_id. by apply rd_Some in Het as [_ ?]. }
  split.
  - intros i pTsub pTe pEt et Het Hcons. split; [by eauto |].
    intros Hsub.
    destruct (proj2 (SingleEdgeRepair_defined i pTsub pTe pEt)) as [pEt' Hrep].
    { exists et. split; [done |]. intros s Hs. split; [by apply Hsub |].
      destruct (Hcons s Hs) as (te & -> & _). by eexists. }
    by rewrite Hrep, (Hid _ _ _ _ _ _ Het Hcons Hrep).
  - intros g sched D c n D1 c1 Hrep Hok Hsub. simpl in Hok.
    destruct (EdgeRepair_Some _ _ _ _ _ _ _ _ Hrep) as [-> Hte].
    pose proof (EdgeRepair_all_host _ _ _ _ _ _ _ Hrep Hok) as Hhost.
    apply repair_all_entries in Hhost as (Hlen & Hent & _).
    assert (∀ i et1, rd (edgeTriangles c1) i = Some et1 →
              consistent i (triangleEdges c) et1) as Hcons.
    { intros i et1 Het1.
      assert (is_Some (rd (edgeTriangles c) i)) as [et Het].
      { apply rd_is_Some. rewrite <- Hlen. apply rd_is_Some. by eexists. }
      destruct (Hent i et) as (et' & Hr & Het'); [| done |].
      { apply rd_is_Some. by eexists. }
      rewrite Het1 in Het'. injection Het' as <-.
      by eapply repair_entry_makes_consistent. }
    assert (cudaFlag D = 1 →
            launch_ok g (Z.of_nat (length (edgeTriangles c1)))) as Hok1.
    { by rewrite Hlen. }
    split.
    + intros sched2 [D2 c2] Hrep2.
      destruct (EdgeRepair_Some _ _ _ _ _ _ _ _ Hrep2) as [-> Hte2].
      pose proof (EdgeRepair_all_host _ _ _ _ _ _ _ Hrep2 Hok1) as Hhost2.
      apply repair_all_entries in Hhost2 as (Hlen2 & Hent2 & _).
      f_equal. destruct c1 as [te1 et1], c2 as [te2 et2]. simpl in *.
      f_equal; [done |]. symmetry. apply rd_ext; [done |].
      intros i x Hx. destruct (Hent2 i x) as (x' & Hr & Hx'); [| done |].
      { apply rd_is_Some. by eexists. }
      rewrite Hx'. f_equal. eapply repair_entry_consistent; [| exact Hr].
      rewrite Hte. by apply Hcons.
    + intros HlenT.
      destruct (repair_all_defined (triangleSubstitute D) (triangleEdges c1)
                  (Z.of_nat (length (edgeTriangles c1))) (edgeTriangles c1))
        as [pEt2 Hhost2].
      { intros i Hi. apply rd_is_Some in Hi as [et1 Het1].
        destruct (proj2 (SingleEdgeRepair_defined i (triangleSubstitute D)
                           (triangleEdges c1) (edgeTriangles c1)))
          as [pEt2 Hrep2].
        - exists et1. split; [done |]. intros s Hs.
          destruct (Hcons i et1 Het1 s Hs) as (te & Hrd & _).
          rewrite Hte. split; [| by eexists].
          apply rd_is_Some. rewrite HlenT. apply rd_is_Some. by eexists.
        - apply SingleEdgeRepair_Some in Hrep2 as (et0 & et' & Het0 & Hr & _).
          by exists et0, et'. }
      destruct (EdgeRepair_all_exists g D c1 n pEt2 Hhost2 Hok1)
        as [sched2 Hrep2].
      exists sched2. rewrite Hrep2. f_equal.
      destruct (EdgeRepair_Some _ _ _ _ _ _ _ _ Hrep2) as [_ Hte2].
      pose proof (EdgeRepair_all_host _ _ _ _ _ _ _ Hrep2 Hok1) as Hh.
      apply repair_all_entries in Hh as (Hlen2 & Hent2 & _). simpl in *.
      destruct c1 as [te1 et1]. simpl in *. f_equal. f_equal.
      symmetry. apply rd_ext; [done |].
      intros i x Hx. destruct (Hent2 i x) as (x' & Hr & Hx'); [| done |].
      { apply rd_is_Some. by eexists. }
      rewrite Hx'. f_equal. eapply repair_entry_consistent; [| exact Hr].
      rewrite Hte. by apply Hcons.
Qed.

(** A mesh after one flip: edge 0 still names triangle 0, which lost it to
    its substitute, triangle 1. *)
Definition flip_D (cudaFlag : Z) : Delaunay := mkDelaunay cudaFlag [1; 1].
Definition flip_c : Connectivity :=
  mkConnectivity [mkInt3 5 5 5; mkInt3 0 5 5] [mkInt2 0 (-1)].
Definition flip_c' : Connectivity :=
  mkConnectivity [mkInt3 5 5 5; mkInt3 0 5 5] [mkInt2 1 (-1)].

Lemma flip_substitutes_contain :
  substitutes_contain (triangleSubstitute (flip_D 0)) (triangleEdges flip_c)
    (edgeTriangles flip_c).
Proof.
  intros i et s te Het Hs Hte Hstale. apply rd_Some in Het as [Hi Het].
  simpl in Het. destruct (Z.to_nat i) as [| k] eqn:Hk; [| done].
  assert (i = 0) as -> by lia. simpl in Het. injection Het as <-.
  destruct s; simpl in *; [| done].
  exists 1, (mkInt3 0 5 5). split_and!; [done | done |]. by left.
Qed.

Lemma EdgeRepair_idempotent_witness :
  SingleEdgeRepair 0 [1; 1] (triangleEdges flip_c') (edgeTriangles flip_c')
    = Some (edgeTriangles flip_c')
  ∧ (∀ sched2 r, EdgeRepair (Dim 1 1) sched2 (flip_D 0) flip_c' None 0 = Some r →
                 r = (flip_D 0, flip_c'))
  ∧ ∃ sched2, EdgeRepair (Dim 1 1) sched2 (flip_D 0) flip_c' None 0
              = Some (flip_D 0, flip_c').
Proof.
  split.
  - refine (proj2 (proj1 EdgeRepair_idempotent 0 [1; 1] (triangleEdges flip_c')
                     (edgeTriangles flip_c') (mkInt2 1 (-1)) eq_refl _) _).
    + intros [] Hs; simpl in *; [| done].
      exists (mkInt3 0 5 5). split; [done | by left].
    + intros [] Hs; simpl in *; [by eexists | done].
  - destruct (proj2 EdgeRepair_idempotent (Dim 1 1) [] (flip_D 0) flip_c 0
                (flip_D 0) flip_c' eq_refl) as [Hdet Hex].
    + intros Hflag. simpl in Hflag. lia.
    + exact flip_substitutes_contain.
    + split; [exact Hdet | by apply Hex].
Defined.

(** *** The two paths of [EdgeRepair] *)

(** The sequential loop of [EdgeRepair] (the [else] branches). *)
Definition host_pass (pTsub : list Z) (c : Connectivity)
    (enc : option (list Z)) (n : Z) : option (list int2) :=
  match enc with
  | None =>
      for_lt 0 (Z.of_nat (length (edgeTriangles c)))
        (λ i pEt, SingleEdgeRepair i pTsub (triangleEdges c) pEt)
        (edgeTriangles c)
  | Some pEnC =>
      for_lt 0 n
        (λ i pEt, e ← rd pEnC i; SingleEdgeRepair e pTsub (triangleEdges c) pEt)
        (edgeTriangles c)
  end.

Lemma EdgeRepair_host_path g sched D c enc n :
  cudaFlag D ≠ 1 →
  EdgeRepair g sched D c enc n =
    pEt' ← host_pass (triangleSubstitute D) c enc n;
    Some (D, mkConnectivity (triangleEdges c) pEt').
Proof.
  intros Hflag. unfold EdgeRepair, host_pass.
  destruct enc; by rewrite decide_False by done.
Qed.

Lemma EdgeRepair_host g sched D c enc n D' c' :
  EdgeRepair g sched D c enc n = Some (D', c') →
  (cudaFlag D = 1 → launch_ok g (pass_size enc n c)) → once enc n →
  host_pass (triangleSubstitute D) c enc n = Some (edgeTriangles c').
Proof.
  intros Hrep Hok Honce. destruct enc as [pEnC |]; simpl in *.
  - by eapply EdgeRepair_limit_host.
  - by eapply EdgeRepair_all_host.
Qed.

Lemma EdgeRepair_exists g D c enc n pEt' :
  host_pass (triangleSubstitute D) c enc n = Some pEt' →
  (cudaFlag D = 1 → launch_ok g (pass_size enc n c)) → once enc n →
  ∃ sched, EdgeRepair g sched D c enc n
           = Some (D, mkConnectivity (triangleEdges c) pEt').
Proof.
  intros Hhost Hok Honce. destruct enc as [pEnC |]; simpl in *;
    [| by apply EdgeRepair_all_exists].
  unfold EdgeRepair.
  destruct (decide (cudaFlag D = 1)) as [Hcuda | Hcuda].
  - destruct (Hok Hcuda) as [Hg HN].
    rewrite (limit_host_exec_list _ _ _ g) in Hhost.
    rewrite <- (Z.sub_0_r n) in Hhost at 2. rewrite <- for_lt_exec_list in Hhost.
    destruct (stride_host_launch
                (devEdgeRepairLimit g n pEnC (triangleSubstitute D)
                   (triangleEdges c))
                (limit_cell pEnC)
                (limit_upd pEnC (triangleSubstitute D) (triangleEdges c)) snd
                g n
                (devEdgeRepairLimit_load _ _ _ _ _)
                (devEdgeRepairLimit_store _ _ _ _ _)
                (λ _, eq_refl) (λ i j k, limit_cell_inj pEnC n i j k Honce)
                Hg HN (edgeTriangles c) pEt' Hhost) as [[sched Hl] _].
    exists sched. by rewrite Hl.
  - exists []. by rewrite Hhost.
Qed.

(** Every slot of an entry that is not the sentinel is a subscript of the
    substitute array and of the triangle-edge table. *)
Definition slots_in_bounds (pTsub : list Z) (pTe : list int3) (et : int2)
  : Prop :=
  ∀ s, slot s et ≠ -1 →
       is_Some (rd pTsub (slot s et)) ∧ is_Some (rd pTe (slot s et)).

Lemma repair_entry_defined i pTsub pTe et :
  is_Some (repair_entry i pTsub pTe et) ↔ slots_in_bounds pTsub pTe et.
Proof.
  split.
  - intros [et' Hr] s Hs.
    pose proof (proj1 (repair_entry_Some _ _ _ _ _) Hr s) as Hslot.
    apply repair_slot_Some in Hslot
      as [[? _] | (_ & tS & te & HtS & Hte & _)]; [done |].
    rewrite HtS, Hte. by split; eexists.
  - intros Hb.
    assert (∀ s, is_Some (repair_slot i pTsub pTe (slot s et))) as Hs.
    { intros s. unfold repair_slot. case_decide as Hne; [| by eexists].
      destruct (Hb s Hne) as [[tS ->] [te ->]]. by eexists. }
    destruct (Hs true) as [t1 H1]. destruct (Hs false) as [t2 H2].
    exists (mkInt2 t1 t2). apply repair_entry_Some. by intros [].
Qed.

Lemma repair_limit_defined pEnC pTsub pTe n pEt :
  listed_once pEnC n →
  (∀ k, 0 <= k < n →
     ∃ e et, rd pEnC k = Some e ∧ rd pEt e = Some et ∧
             slots_in_bounds pTsub pTe et) →
  is_Some (for_lt 0 n
             (λ i pEt, e ← rd pEnC i; SingleEdgeRepair e pTsub pTe pEt) pEt).
Proof.
  intros Honce Hall. rewrite (limit_host_exec_list _ _ _ (Dim 1 1)).
  apply (exec_list_ready (devEdgeRepairLimit (Dim 1 1) n pEnC pTsub pTe)
           (limit_cell pEnC) (limit_upd pEnC pTsub pTe) snd
           (devEdgeRepairLimit_load _ _ _ _ _)
           (devEdgeRepairLimit_store _ _ _ _ _) pEt (seqZ 0 n) [] pEt);
    [apply post_nil | by apply limit_nodup |].
  apply Forall_seqZ. intros k Hk.
  destruct (Hall k) as (e & et & He & Het & Hb); [lia |].
  destruct (proj2 (repair_entry_defined e pTsub pTe et) Hb) as [et' Hr].
  apply rd_Some in Het as [He0 Het].
  exists (Z.to_nat e), (e, et'). unfold limit_cell, limit_upd.
  rewrite He. simpl. rewrite Het. simpl. rewrite Hr. simpl.
  split_and!; [| by eapply lookup_lt_Some | done].
  apply edge_cell_Some. done.
Qed.

(** C4: with a candidate list, [EdgeRepair] leaves unchanged the
    edge-triangle entry of every edge that is not among the first
    [nEdgeCheck] listed edges; with the null list it processes every edge
    index below the edge count, the entry becoming what [SingleEdgeRepair]
    computes from it.  In both modes the triangle-edge table and the
    substitute array come out as they went in.  And the pass does return,
    on the host path and under some schedule of the launch, when the
    candidates it reads are in the list and the entries of the edges it
    processes name triangles of the two tables. *)
Theorem EdgeRepair_scope g D c enc n :
  (cudaFlag D = 1 → launch_ok g (pass_size enc n c)) →
  (once enc n →
   (∀ pEnC k, enc = Some pEnC → 0 <= k < n → is_Some (rd pEnC k)) →
   (∀ i, processed enc n c i →
      ∃ et, rd (edgeTriangles c) i = Some et ∧
            slots_in_bounds (triangleSubstitute D) (triangleEdges c) et) →
   ∃ sched D' c', EdgeRepair g sched D c enc n = Some (D', c')) ∧
  (∀ sched D' c',
     EdgeRepair g sched D c enc n = Some (D', c') →
     triangleEdges c' = triangleEdges c ∧
     triangleSubstitute D' = triangleSubstitute D ∧
     match enc with
     | Some pEnC =>
         ∀ j, (∀ k, 0 <= k < n → rd pEnC k ≠ Some j) →
              rd (edgeTriangles c') j = rd (edgeTriangles c) j
     | None =>
         ∀ i, 0 <= i < Z.of_nat (length (edgeTriangles c)) →
           ∃ et',
             SingleEdgeRepair_read i (triangleSubstitute D) (triangleEdges c)
               (edgeTriangles c) = Some et' ∧
             rd (edgeTriangles c') i = Some et'
     end).
Proof.
  intros Hok. split.
  - intros Honce Hcand Hproc.
    assert (is_Some (host_pass (triangleSubstitute D) c enc n)) as [pEt' Hh].
    { destruct enc as [pEnC |]; simpl in *.
      - apply repair_limit_defined; [done |]. intros k Hk.
        destruct (Hcand pEnC k eq_refl Hk) as [e He].
        destruct (Hproc e) as (et & Het & Hb); [by exists k |].
        by exists e, et.
      - apply repair_all_defined. intros i Hi.
        destruct (Hproc i Hi) as (et & Het & Hb).
        destruct (proj2 (repair_entry_defined i _ _ et) Hb) as [et' Hr].
        by exists et, et'. }
    destruct (EdgeRepair_exists g D c enc n pEt' Hh Hok Honce) as [sched Hs].
    by eauto.
  - intros sched D' c' Hrep. by eapply EdgeRepair_frame.
Qed.

(** The chain mesh with its second edge: all edges on the accelerator
    path, and the one listed edge on the host path. *)
Lemma EdgeRepair_scope_witness :
  ((∃ sched D' c',
      EdgeRepair (Dim 2 1) sched (chain_D 1) frame_c None 0 = Some (D', c')) ∧
   (∀ sched D' c',
      EdgeRepair (Dim 2 1) sched (chain_D 1) frame_c None 0 = Some (D', c') →
      triangleEdges c' = triangleEdges frame_c ∧
      triangleSubstitute D' = [1; 2; 2] ∧
      ∀ i, 0 <= i < 2 →
        ∃ et',
          SingleEdgeRepair_read i [1; 2; 2] (triangleEdges frame_c)
            (edgeTriangles frame_c) = Some et' ∧
          rd (edgeTriangles c') i = Some et')) ∧
  ((∃ sched D' c',
      EdgeRepair (Dim 2 1) sched (chain_D 0) frame_c (Some [0]) 1
      = Some (D', c')) ∧
   (∀ sched D' c',
      EdgeRepair (Dim 2 1) sched (chain_D 0) frame_c (Some [0]) 1
      = Some (D', c') →
      triangleEdges c' = triangleEdges frame_c ∧
      triangleSubstitute D' = [1; 2; 2] ∧
      ∀ j, (∀ k, 0 <= k < 1 → rd [0] k ≠ Some j) →
           rd (edgeTriangles c') j = rd (edgeTriangles frame_c) j)).
Proof.
  assert (∀ i, 0 <= i < 2 →
            ∃ et, rd (edgeTriangles frame_c) i = Some et ∧
                  slots_in_bounds [1; 2; 2] (triangleEdges frame_c) et)
    as Hentries.
  { intros i Hi. assert (i = 0 ∨ i = 1) as [-> | ->] by lia.
    - exists (mkInt2 0 (-1)). split; [reflexivity |].
      intros [] Hs; simpl in *; [by split; eexists | done].
    - exists (mkInt2 2 (-1)). split; [reflexivity |].
      intros [] Hs; simpl in *; [by split; eexists | done]. }
  split.
  - destruct (EdgeRepair_scope (Dim 2 1) (chain_D 1) frame_c None 0)
      as [Hex Hall].
    + intros _. unfold launch_ok, geometry. simpl. vm_compute.
      intuition congruence.
    + split; [| exact Hall]. apply Hex; [exact I | done | exact Hentries].
  - destruct (EdgeRepair_scope (Dim 2 1) (chain_D 0) frame_c (Some [0]) 1)
      as [Hex Hall].
    + intros Hflag. simpl in Hflag. lia.
    + split; [| exact Hall]. apply Hex.
      * intros k1 k2 e Hk1 Hk2 _ _. lia.
      * intros pEnC k [= <-] Hk. replace k with 0 by lia. by eexists.
      * intros i (k & Hk & Hi). replace k with 0 in Hi by lia.
        injection Hi as <-. apply Hentries. lia.
Defined.

(** The accelerator path and the host path of [EdgeRepair] return the
    same tables, provided the pass processes no edge twice. *)
Lemma EdgeRepair_paths g pTsub c enc n :
  launch_ok g (pass_size enc n c) → once enc n →
  (∀ sched c',
     EdgeRepair g sched (mkDelaunay 1 pTsub) c enc n
       = Some (mkDelaunay 1 pTsub, c') →
     ∀ sched', EdgeRepair g sched' (mkDelaunay 0 pTsub) c enc n
               = Some (mkDelaunay 0 pTsub, c')) ∧
  (∀ sched' c',
     EdgeRepair g sched' (mkDelaunay 0 pTsub) c enc n
       = Some (mkDelaunay 0 pTsub, c') →
     ∃ sched, EdgeRepair g sched (mkDelaunay 1 pTsub) c enc n
              = Some (mkDelaunay 1 pTsub, c')).
Proof.
  intros Hok Honce. split.
  - intros sched c' Hrep sched'.
    destruct (EdgeRepair_Some _ _ _ _ _ _ _ _ Hrep) as [_ Hte].
    apply EdgeRepair_host in Hrep; [| done | done]. simpl in Hrep.
    rewrite EdgeRepair_host_path by done. simpl. rewrite Hrep. simpl.
    destruct c'. simpl in *. by subst.
  - intros sched' c' Hrep.
    destruct (EdgeRepair_Some _ _ _ _ _ _ _ _ Hrep) as [_ Hte].
    apply EdgeRepair_host in Hrep; [| done | done]. simpl in Hrep.
    destruct (EdgeRepair_exists g (mkDelaunay 1 pTsub) c enc n _ Hrep)
      as [sched Hs]; [done | done |].
    exists sched. rewrite Hs. destruct c'. simpl in *. by subst.
Qed.

(** Why the candidate list is taken to name each edge once.  A list that
    names edge 0 twice, on the chain mesh: the host loop repairs edge 0
    twice and so takes two steps along the chain; two threads of the
    launch that both read the entry before either writes it take one
    step. *)
Example EdgeRepair_paths_differ :
  EdgeRepair (Dim 2 1) [0; 1; 0; 1]%nat (chain_D 1) chain_c (Some [0; 0]) 2
    = Some (chain_D 1, mkConnectivity (triangleEdges chain_c) [mkInt2 1 (-1)])
  ∧ EdgeRepair (Dim 2 1) [0; 1; 0; 1]%nat (chain_D 0) chain_c (Some [0; 0]) 2
    = Some (chain_D 0, mkConnectivity (triangleEdges chain_c) [mkInt2 2 (-1)]).
Proof. split; reflexivity. Qed.

(** ** [Array::SetToValue] *)

Lemma exec_list_bind {I J S} (body : J -> S -> option S) (f : I -> list J)
    (l : list I) (s : S) :
  exec_list body (l ≫= f) s = exec_list (λ x s, exec_list body (f x) s) l s.
Proof.
  revert s. induction l as [| x l IH]; intros s; [done |].
  rewrite bind_cons, exec_list_app. simpl.
  destruct (exec_list body (f x) s); simpl; [apply IH | done].
Qed.

Lemma exec_list_fmap {I J S} (body : J -> S -> option S) (f : I -> J)
    (l : list I) (s : S) :
  exec_list body (f <$> l) s = exec_list (λ x s, body (f x) s) l s.
Proof.
  revert s. induction l as [| x l IH]; intros s; [done |].
  rewrite fmap_cons. simpl. destruct (body (f x) s); simpl; [apply IH | done].
Qed.

Lemma unfolds_next_eq {Ctl Item Reg V} (K : kernel Ctl Item Reg (list V))
    c c' l :
  k_next K c = k_next K c' → unfolds K c l → unfolds K c' l.
Proof.
  intros Heq Hun. inversion Hun as [c0 Hn | c0 it c1 its Hn Hits]; subst.
  - constructor. by rewrite <- Heq.
  - econstructor; [| done]. by rewrite <- Heq.
Qed.

Section SetToValueKernel.
Context {T : Type}.
Variables (g : dim) (value : T) (startIndex endIndex realSize nDims : Z).

Let K := Array.devSetToValue g value startIndex endIndex realSize nDims.
Let stride := grid_stride g.

(** The cell [array + i + n*realSize]. *)
Definition set_cell (ni : Z * Z) : option nat :=
  Some (Z.to_nat (u32 (ni.2 + ni.1 * realSize))).

Definition set_upd (ni : Z * Z) (x : option T) : option unit := Some tt.

Lemma u32_nonneg z : 0 <= u32 z.
Proof. unfold u32. apply Z.mod_pos_bound. lia. Qed.

Lemma devSetToValue_load it m :
  k_load K it m = c ← set_cell it; set_upd it (m !! c).
Proof. done. Qed.

Lemma devSetToValue_store it c (x : option T) r m :
  set_cell it = Some c → set_upd it x = Some r →
  k_store K it r m =
    if decide (c < length m)%nat then Some (<[c := value]> m) else None.
Proof.
  intros [= <-] _. simpl. apply wr_nat, u32_nonneg.
Qed.

(** The host loops are the host execution of the kernel's items, one
    dimension after the other. *)
Definition set_host_items : list (Z * Z) :=
  seqZ 0 nDims ≫= λ n, pair n <$> seqZ startIndex (endIndex - startIndex).

Lemma hostSetToValue_exec_list (m : list T) :
  Array.hostSetToValue value startIndex endIndex realSize nDims m =
  exec_list (exec K) set_host_items m.
Proof.
  unfold Array.hostSetToValue, set_host_items.
  rewrite for_lt_exec_list, Z.sub_0_r, exec_list_bind.
  generalize (seqZ 0 nDims). intros l. revert m.
  induction l as [| n l IH]; intros m; [done |]. simpl.
  rewrite for_lt_exec_list, exec_list_fmap.
  match goal with |- ?a ≫= _ = ?b ≫= _ => replace b with a end.
  - destruct (exec_list _ _ m); simpl; [apply IH | done].
  - done.
Qed.

Lemma elem_of_set_host_items n i :
  (n, i) ∈ set_host_items ↔ 0 <= n < nDims ∧ startIndex <= i < endIndex.
Proof.
  clear K stride. unfold set_host_items. rewrite list_elem_of_bind. split.
  - intros (n' & Hin & Hn'). apply list_elem_of_fmap in Hin as (i' & [= -> ->] & Hi').
    apply elem_of_seqZ in Hn', Hi'. lia.
  - intros [Hn Hi]. exists n. split; [| apply elem_of_seqZ; lia].
    apply list_elem_of_fmap. exists i. split; [done |]. apply elem_of_seqZ. lia.
Qed.

Lemma NoDup_pairs (f : Z -> list Z) (l : list Z) :
  NoDup l → (∀ n, NoDup (f n)) → NoDup (l ≫= λ n, pair n <$> f n).
Proof.
  intros Hl Hf. apply NoDup_bind; [| | done].
  - intros n1 n2 [n i] _ _ H1 H2.
    apply list_elem_of_fmap in H1 as (? & [= -> _] & _).
    by apply list_elem_of_fmap in H2 as (? & [= -> _] & _).
  - intros n _. apply NoDup_fmap_2; [| done]. by intros ?? [= ->].
Qed.

Lemma NoDup_set_host_items : NoDup set_host_items.
Proof. apply NoDup_pairs; [apply NoDup_seqZ | intros _; apply NoDup_seqZ]. Qed.

(** *** The items of a thread *)

Hypothesis Hg : geometry g.
Hypothesis Hstart : 0 <= startIndex ∧ startIndex + stride <= 4294967296.
Hypothesis Hend : endIndex + stride <= 4294967296.

Definition round_items (tid n : Z) : list (Z * Z) :=
  pair n <$> stride_items (Z.to_nat endIndex) endIndex stride
               (tid + startIndex).

Definition set_thread_items (tid : Z) : list (Z * Z) :=
  seqZ 0 nDims ≫= round_items tid.

Lemma set_next_round tid n i :
  n < nDims → ¬ i < endIndex →
  k_next K (tid, n, i) = k_next K (tid, n + 1, u32 (tid + startIndex)).
Proof.
  intros Hn Hi. simpl.
  replace (Z.to_nat (nDims - n)) with (S (Z.to_nat (nDims - (n + 1)))) by lia.
  simpl. by rewrite decide_False.
Qed.

Lemma set_next_item tid n i :
  n < nDims → i < endIndex →
  k_next K (tid, n, i) = Some ((n, i), (tid, n, u32 (i + stride))).
Proof.
  intros Hn Hi. simpl.
  replace (Z.to_nat (nDims - n)) with (S (Z.to_nat (nDims - (n + 1)))) by lia.
  simpl. by rewrite decide_True.
Qed.

Lemma set_round_unfolds tid n rest fuel : ∀ i,
  n < nDims → endIndex - i <= Z.of_nat fuel → 0 <= i →
  unfolds K (tid, n + 1, u32 (tid + startIndex)) rest →
  unfolds K (tid, n, i)
    ((pair n <$> stride_items fuel endIndex stride i) ++ rest).
Proof.
  pose proof (grid_stride_pos g Hg) as HT. fold stride in HT.
  induction fuel as [| fuel IH]; intros i Hn Hfuel Hi Hrest; simpl.
  - eapply unfolds_next_eq; [| exact Hrest].
    symmetry. apply set_next_round; [done | lia].
  - case_decide as Hlt.
    + rewrite fmap_cons. simpl. eapply unfolds_cons.
      * by apply set_next_item.
      * rewrite u32_id by lia. apply IH; [done | lia | lia | done].
    + eapply unfolds_next_eq; [| exact Hrest].
      symmetry. by apply set_next_round.
Qed.

Lemma set_thread_unfolds tid (k : nat) : ∀ n,
  0 <= tid < stride →
  Z.of_nat k = nDims - n ∨ (k = O ∧ nDims <= n) →
  unfolds K (tid, n, u32 (tid + startIndex))
    (seqZ n (Z.of_nat k) ≫= round_items tid).
Proof.
  intros n Htid. revert n. induction k as [| k IH]; intros n Hk.
  - constructor. simpl. replace (Z.to_nat (nDims - n)) with O by lia. done.
  - rewrite seqZ_cons by lia. rewrite bind_cons.
    rewrite (u32_id (tid + startIndex)) at 1 by lia.
    apply set_round_unfolds; [lia | lia | lia |].
    replace (Z.pred (Z.of_nat (S k))) with (Z.of_nat k) by lia.
    apply IH. lia.
Qed.

(** *** The items of the whole launch *)

Definition set_items : list (Z * Z) := seqZ 0 stride ≫= set_thread_items.

Lemma elem_of_set_items n i :
  (n, i) ∈ set_items ↔ 0 <= n < nDims ∧ startIndex <= i < endIndex.
Proof.
  pose proof (grid_stride_pos g Hg) as HT. fold stride in HT.
  unfold set_items, set_thread_items, round_items.
  rewrite list_elem_of_bind. split.
  - intros (tid & Hin & Htid). apply elem_of_seqZ in Htid.
    apply list_elem_of_bind in Hin as (n' & Hin & Hn').
    apply elem_of_seqZ in Hn'.
    apply list_elem_of_fmap in Hin as (i' & [= -> ->] & Hi').
    apply elem_of_stride_items in Hi' as (Hlt & k & Hk & ->); [nia | lia | lia].
  - intros [Hn Hi]. exists ((i - startIndex) mod stride).
    pose proof (Z.mod_pos_bound (i - startIndex) stride) as Hmod.
    split; [| apply elem_of_seqZ; lia].
    apply list_elem_of_bind. exists n. split; [| apply elem_of_seqZ; lia].
    apply list_elem_of_fmap. exists i. split; [done |].
    apply elem_of_stride_items; [lia | lia |]. split; [lia |].
    exists ((i - startIndex) / stride). split; [apply Z.div_pos; lia |].
    pose proof (Z.div_mod (i - startIndex) stride). lia.
Qed.

Lemma NoDup_set_items : NoDup set_items.
Proof.
  pose proof (grid_stride_pos g Hg) as HT. fold stride in HT.
  unfold set_items. apply NoDup_bind; [| | apply NoDup_seqZ].
  - intros t1 t2 [n i] Ht1 Ht2 H1 H2. apply elem_of_seqZ in Ht1, Ht2.
    unfold set_thread_items, round_items in H1, H2.
    apply list_elem_of_bind in H1 as (n1 & H1 & _).
    apply list_elem_of_bind in H2 as (n2 & H2 & _).
    apply list_elem_of_fmap in H1 as (i1 & [= -> ->] & H1).
    apply list_elem_of_fmap in H2 as (i2 & [= _ <-] & H2).
    apply elem_of_stride_items in H1 as (_ & k1 & Hk1 & ->); [| lia | lia].
    apply elem_of_stride_items in H2 as (_ & k2 & Hk2 & Heq); [| lia | lia].
    assert (k1 = k2) by nia. subst. lia.
  - intros tid _. unfold set_thread_items, round_items.
    apply NoDup_pairs; [apply NoDup_seqZ |].
    intros _. apply NoDup_stride_items. lia.
Qed.

Hypothesis Hreal : endIndex <= realSize.
Hypothesis Hsize : nDims * realSize <= 4294967296.

Lemma set_cell_id n i :
  0 <= n < nDims → startIndex <= i < endIndex →
  u32 (i + n * realSize) = i + n * realSize.
Proof. intros Hn Hi. apply u32_id. nia. Qed.

Lemma set_cell_inj ni nj c :
  0 <= ni.1 < nDims → startIndex <= ni.2 < endIndex →
  0 <= nj.1 < nDims → startIndex <= nj.2 < endIndex →
  set_cell ni = Some c → set_cell nj = Some c → ni = nj.
Proof.
  destruct ni as [n i], nj as [n' i']. unfold set_cell. simpl.
  intros Hn Hi Hn' Hi' [= <-] [= Heq].
  rewrite !set_cell_id in Heq by done.
  assert (i' + n' * realSize = i + n * realSize) as Heq' by nia.
  assert (n = n') by nia. subst. f_equal. lia.
Qed.

Lemma set_items_nodup : NoDup (omap set_cell set_items).
Proof.
  apply NoDup_omap_strong; [| apply NoDup_set_items].
  intros [n i] [n' i'] c H1 H2. apply elem_of_set_items in H1, H2.
  apply set_cell_inj; simpl; tauto.
Qed.

Lemma set_host_nodup : NoDup (omap set_cell set_host_items).
Proof.
  apply NoDup_omap_strong; [| apply NoDup_set_host_items].
  intros [n i] [n' i'] c H1 H2. apply elem_of_set_host_items in H1, H2.
  apply set_cell_inj; simpl; tauto.
Qed.

Lemma set_inits_unfold :
  Forall2 (unfolds K) (Array.devSetToValue_init g startIndex)
    (set_thread_items <$> seqZ 0 stride).
Proof.
  unfold Array.devSetToValue_init. rewrite thread_ids_seqZ by done.
  apply Forall2_fmap, Forall_Forall2_diag, Forall_seqZ. intros tid Htid.
  unfold set_thread_items.
  replace (seqZ 0 nDims) with (seqZ 0 (Z.of_nat (Z.to_nat nDims))).
  - apply (set_thread_unfolds tid (Z.to_nat nDims) 0); [lia |].
    destruct (decide (0 <= nDims)); [left | right]; lia.
  - destruct (decide (0 <= nDims)); [by rewrite Z2Nat.id |].
    by rewrite !seqZ_nil by lia.
Qed.

Lemma set_items_join : set_items ≡ₚ mjoin (set_thread_items <$> seqZ 0 stride).
Proof. unfold set_items. by rewrite list_join_bind, list_fmap_bind. Qed.

Lemma set_items_host it : it ∈ set_host_items ↔ it ∈ set_items.
Proof.
  destruct it as [n i]. by rewrite elem_of_set_host_items, elem_of_set_items.
Qed.

(** A launch of [devSetToValue] that completes computes what the host
    loops compute, and when these succeed a launch completes. *)
Lemma set_launch_host sched m0 m :
  launch K (Array.devSetToValue_init g startIndex) sched m0 = Some m →
  Array.hostSetToValue value startIndex endIndex realSize nDims m0 = Some m.
Proof.
  intros Hl. rewrite hostSetToValue_exec_list.
  eapply (launch_exec_list K set_cell set_upd (λ _, value)
            devSetToValue_load devSetToValue_store m0 set_items
            set_items_nodup _ _ set_inits_unfold set_items_join);
    [apply set_items_host | apply set_host_nodup | exact Hl].
Qed.

Lemma set_host_launch m0 m :
  Array.hostSetToValue value startIndex endIndex realSize nDims m0 = Some m →
  ∃ sched,
    launch K (Array.devSetToValue_init g startIndex) sched m0 = Some m.
Proof.
  rewrite hostSetToValue_exec_list. intros Hex.
  eapply (exec_list_launch K set_cell set_upd (λ _, value)
            devSetToValue_load devSetToValue_store m0 set_items
            set_items_nodup _ _ set_inits_unfold set_items_join);
    [apply set_items_host | apply set_host_nodup | exact Hex].
Qed.
End SetToValueKernel.

(** An array whose storage holds [nDims] dimensions of [realSize]
    elements, addressable with [unsigned int] subscripts. *)
Definition array_ok {T} (A : Array.Array T) : Prop :=
  0 <= Array.nDims A ∧ 0 <= Array.realSize A ∧
  Z.of_nat (length (Array.vec A)) = Array.nDims A * Array.realSize A ∧
  Array.nDims A * Array.realSize A <= 4294967296.

(** The conditions under which the loop counters of a [devSetToValue]
    launch do not wrap around and the [int] kernel parameters hold the
    array's dimensions. *)
Definition set_launch_ok {T} (g : dim) (A : Array.Array T)
    (startIndex endIndex : Z) : Prop :=
  geometry g ∧
  startIndex + grid_stride g <= 4294967296 ∧
  endIndex + grid_stride g <= 4294967296 ∧
  Array.realSize A < 2147483648 ∧ Array.nDims A < 2147483648.

Section SetToValue.
Context {T : Type}.
Variables (value : T) (startIndex endIndex realSize nDims : Z).
Hypothesis Hstart : 0 <= startIndex.
Hypothesis Hreal : endIndex <= realSize.
Hypothesis Hsize : nDims * realSize <= 4294967296.

(** What the host loops leave in the storage. *)
Lemma hostSetToValue_post (m0 m : list T) :
  Array.hostSetToValue value startIndex endIndex realSize nDims m0 = Some m →
  length m = length m0 ∧
  (∀ n i, 0 <= n < nDims → startIndex <= i < endIndex →
          rd m (i + n * realSize) = Some value) ∧
  (∀ j, (∀ n i, 0 <= n < nDims → startIndex <= i < endIndex →
                j ≠ i + n * realSize) →
        rd m j = rd m0 j).
Proof.
  rewrite (hostSetToValue_exec_list (Dim 1 1)). intros Hex.
  destruct (exec_list_post
              (Array.devSetToValue (Dim 1 1) value startIndex endIndex
                 realSize nDims)
              (set_cell realSize) set_upd (λ _, value)
              (devSetToValue_load (Dim 1 1) value startIndex endIndex
                 realSize nDims)
              (devSetToValue_store (Dim 1 1) value startIndex endIndex
                 realSize nDims)
              m0 (set_host_items startIndex endIndex nDims) [] m0 m)
    as [(Hlen & Hd & Hf) _]; [apply post_nil | | exact Hex |].
  { apply NoDup_omap_strong; [| apply NoDup_set_host_items].
    intros [n i] [n' i'] c H1 H2. apply elem_of_set_host_items in H1, H2.
    unfold set_cell. simpl. intros [= <-] [= Heq].
    rewrite !u32_id in Heq by nia.
    assert (i' + n' * realSize = i + n * realSize) as Heq' by nia.
    assert (n = n') by nia. subst. f_equal. lia. }
  split_and!; [done | |].
  - intros n i Hn Hi.
    destruct (Hd (n, i)) as (c & r & [= <-] & _ & Hr).
    { apply elem_of_set_host_items. done. }
    simpl in Hr. rewrite u32_id in Hr by nia.
    apply rd_Some. split; [nia | done].
  - intros j Hj. rewrite !rd_edge_cell.
    destruct (edge_cell j) as [c |] eqn:Hc; simpl; [| done].
    apply edge_cell_Some in Hc as [Hj0 ->].
    apply Hf. intros [n i] Hin. apply elem_of_set_host_items in Hin.
    unfold set_cell. simpl. rewrite u32_id by nia. intros [= Heq].
    apply (Hj n i); [tauto | tauto | nia].
Qed.

(** The host loops succeed on a storage that holds all dimensions. *)
Lemma hostSetToValue_defined (m0 : list T) :
  nDims * realSize <= Z.of_nat (length m0) →
  is_Some (Array.hostSetToValue value startIndex endIndex realSize nDims m0).
Proof.
  intros Hlen. rewrite (hostSetToValue_exec_list (Dim 1 1)).
  apply (exec_list_ready
           (Array.devSetToValue (Dim 1 1) value startIndex endIndex
              realSize nDims)
           (set_cell realSize) set_upd (λ _, value)
           (devSetToValue_load (Dim 1 1) value startIndex endIndex
              realSize nDims)
           (devSetToValue_store (Dim 1 1) value startIndex endIndex
              realSize nDims)
           m0 (set_host_items startIndex endIndex nDims) [] m0).
  - apply post_nil.
  - apply NoDup_omap_strong; [| apply NoDup_set_host_items].
    intros [n i] [n' i'] c H1 H2. apply elem_of_set_host_items in H1, H2.
    unfold set_cell. simpl. intros [= <-] [= Heq].
    rewrite !u32_id in Heq by nia.
    assert (i' + n' * realSize = i + n * realSize) as Heq' by nia.
    assert (n = n') by nia. subst. f_equal. lia.
  - apply Forall_forall. intros [n i] Hin.
    apply elem_of_set_host_items in Hin.
    exists (Z.to_nat (i + n * realSize)), tt. unfold set_cell. simpl.
    rewrite u32_id by nia. split_and!; [done | nia | done].
Qed.
End SetToValue.

Lemma SetToValue1_range {T} g sched (value : T) A :
  Array.SetToValue1 g sched value A =
  Array.SetToValue g sched value 0 (Array.size A) A.
Proof. reflexivity. Qed.

(** Either path of [SetToValue] computes what the host loops compute. *)
Lemma SetToValue_host {T} g sched (value : T) startIndex endIndex A A' :
  Array.SetToValue g sched value startIndex endIndex A = Some A' →
  Array.cudaFlag A = 0 ∨ Array.cudaFlag A = 1 →
  (Array.cudaFlag A = 1 → set_launch_ok g A startIndex endIndex) →
  array_ok A → 0 <= startIndex → endIndex <= Array.realSize A →
  ∃ m, Array.hostSetToValue value startIndex endIndex (Array.realSize A)
         (Array.nDims A) (Array.vec A) = Some m ∧
       A' = Array.set_vec A m.
Proof.
  unfold Array.SetToValue.
  intros Hset Hflag Hok (HnD & HrS & Hlen & Hsize) Hstart Hreal.
  destruct Hflag as [Hflag | Hflag]; rewrite Hflag in Hset; simpl in Hset.
  - destruct (Array.hostSetToValue _ _ _ _ _ _) as [m |]; simpl in Hset;
      [| done].
    injection Hset as <-. by exists m.
  - destruct (Hok Hflag) as (Hg & Hs & He & HrS' & HnD').
    rewrite !s32_id in Hset by lia.
    destruct (launch _ _ _ _) as [m |] eqn:Hl; simpl in Hset; [| done].
    injection Hset as <-. exists m. split; [| done].
    by eapply set_launch_host.
Qed.

Lemma SetToValue_exists {T} g (value : T) startIndex endIndex A m :
  Array.hostSetToValue value startIndex endIndex (Array.realSize A)
    (Array.nDims A) (Array.vec A) = Some m →
  Array.cudaFlag A = 0 ∨ Array.cudaFlag A = 1 →
  (Array.cudaFlag A = 1 → set_launch_ok g A startIndex endIndex) →
  array_ok A → 0 <= startIndex → endIndex <= Array.realSize A →
  ∃ sched, Array.SetToValue g sched value startIndex endIndex A
           = Some (Array.set_vec A m).
Proof.
  unfold Array.SetToValue.
  intros Hhost Hflag Hok (HnD & HrS & Hlen & Hsize) Hstart Hreal.
  destruct Hflag as [Hflag | Hflag]; rewrite Hflag; simpl.
  - exists []. by rewrite Hhost.
  - destruct (Hok Hflag) as (Hg & Hs & He & HrS' & HnD').
    rewrite !s32_id by lia.
    destruct (set_host_launch g value startIndex endIndex (Array.realSize A)
                (Array.nDims A) Hg (conj Hstart Hs) He Hreal Hsize
                (Array.vec A) m Hhost) as [sched Hl].
    exists sched. by rewrite Hl.
Qed.

(** C6: [SetToValue(v, startIndex, endIndex)] on an array, with the range
    inside the storage of a dimension, returns (on the host path, and under
    some schedule on the accelerator path); whenever it returns, every
    element with index in [[startIndex, endIndex)] equals [v] in every
    dimension, and every element with index below [startIndex] or at or
    above [endIndex] is as before. *)
Theorem SetToValue_range {T} g (v : T) startIndex endIndex A :
  array_ok A →
  Array.cudaFlag A = 0 ∨ Array.cudaFlag A = 1 →
  (Array.cudaFlag A = 1 → set_launch_ok g A startIndex endIndex) →
  0 <= startIndex → endIndex <= Array.realSize A →
  (∃ sched A', Array.SetToValue g sched v startIndex endIndex A = Some A') ∧
  ∀ sched A',
    Array.SetToValue g sched v startIndex endIndex A = Some A' →
    (∀ n i, 0 <= n < Array.nDims A → startIndex <= i < endIndex →
            rd (Array.vec A') (i + n * Array.realSize A) = Some v) ∧
    (∀ n i, 0 <= n < Array.nDims A → 0 <= i < Array.realSize A →
            ¬ (startIndex <= i < endIndex) →
            rd (Array.vec A') (i + n * Array.realSize A)
            = rd (Array.vec A) (i + n * Array.realSize A)) ∧
    A' = Array.set_vec A (Array.vec A').
Proof.
  intros Hok Hflag Hlaunch Hstart Hreal.
  pose proof Hok as (HnD & HrS & Hlen & Hsize). split.
  - destruct (hostSetToValue_defined v startIndex endIndex (Array.realSize A)
                (Array.nDims A) Hstart Hreal Hsize (Array.vec A)) as [m Hm];
      [lia |].
    destruct (SetToValue_exists g v startIndex endIndex A m Hm Hflag Hlaunch
                Hok Hstart Hreal) as [sched Hs].
    by eauto.
  - intros sched A' Hset.
    destruct (SetToValue_host _ _ _ _ _ _ _ Hset Hflag Hlaunch Hok Hstart Hreal)
      as (m & Hm & ->).
    apply hostSetToValue_post in Hm as (_ & Hin & Hout); [| done ..].
    simpl. split_and!; [done | | done].
    intros n i Hn Hi Hni. apply Hout. intros n' i' Hn' Hi' Heq.
    assert (n = n') by nia. subst. lia.
Qed.

(** An array of two dimensions of four elements, three of them in use. *)
Definition sample_array (cudaFlag : Z) : Array.Array Z :=
  Array.mk 2 cudaFlag 3 4 [1; 2; 3; 4; 5; 6; 7; 8].

Lemma SetToValue_range_witness :
  (∃ sched A',
     Array.SetToValue (Dim 2 2) sched 9 1 3 (sample_array 1) = Some A') ∧
  ∀ sched A',
    Array.SetToValue (Dim 2 2) sched 9 1 3 (sample_array 1) = Some A' →
    (∀ n i, 0 <= n < 2 → 1 <= i < 3 →
            rd (Array.vec A') (i + n * 4) = Some 9) ∧
    (∀ n i, 0 <= n < 2 → 0 <= i < 4 → ¬ (1 <= i < 3) →
            rd (Array.vec A') (i + n * 4)
            = rd [1; 2; 3; 4; 5; 6; 7; 8] (i + n * 4)) ∧
    A' = Array.set_vec (sample_array 1) (Array.vec A').
Proof.
  apply (SetToValue_range (Dim 2 2) 9 1 3 (sample_array 1)).
  - unfold array_ok. simpl. lia.
  - by right.
  - intros _. unfold set_launch_ok, geometry. simpl. vm_compute.
    intuition congruence.
  - lia.
  - simpl. lia.
Defined.

(** The same array on the other path. *)
Definition with_flag {T} (f : Z) (A : Array.Array T) : Array.Array T :=
  Array.mk (Array.nDims A) f (Array.size A) (Array.realSize A) (Array.vec A).

(** The accelerator path and the host path of [SetToValue] return the
    same array contents. *)
Lemma SetToValue_paths {T} g (v : T) startIndex endIndex A :
  array_ok A → set_launch_ok g A startIndex endIndex →
  0 <= startIndex → endIndex <= Array.realSize A →
  (∀ sched A',
     Array.SetToValue g sched v startIndex endIndex (with_flag 1 A) = Some A' →
     ∀ sched', Array.SetToValue g sched' v startIndex endIndex (with_flag 0 A)
               = Some (with_flag 0 A')) ∧
  (∀ sched' A',
     Array.SetToValue g sched' v startIndex endIndex (with_flag 0 A) = Some A' →
     ∃ sched, Array.SetToValue g sched v startIndex endIndex (with_flag 1 A)
              = Some (with_flag 1 A')).
Proof.
  intros Hok Hlaunch Hstart Hreal. split.
  - intros sched A' Hset sched'.
    apply SetToValue_host in Hset as (m & Hm & ->);
      [| by right | done | done | done | done].
    simpl in Hm. unfold Array.SetToValue. simpl. by rewrite Hm.
  - intros sched' A' Hset.
    apply SetToValue_host in Hset as (m & Hm & ->);
      [| by left | done | done | done | done].
    simpl in Hm.
    destruct (SetToValue_exists g v startIndex endIndex (with_flag 1 A) m)
      as [sched Hs]; [done | by right | done | done | done | done |].
    by exists sched.
Qed.

(** ** [Array::SelectLargerThan] *)

(** The flag of one element. *)
Definition larger_flag (value d : Z) : Z := if decide (d > value) then 1 else 0.

Section SelectKernel.
Variables (data : list Z) (value : Z).

Definition select_upd (i : Z) (x : option Z) : option Z :=
  d ← rd data i; Some (larger_flag value d).

Lemma devSelectLargerThan_load g N i (m : list Z) :
  k_load (Array.devSelectLargerThan g N data value) i m =
    c ← edge_cell i; select_upd i (m !! c).
Proof.
  simpl. unfold select_upd, edge_cell, rd. by case_decide.
Qed.

Lemma devSelectLargerThan_store g N i c (x : option Z) r (m : list Z) :
  edge_cell i = Some c → select_upd i x = Some r →
  k_store (Array.devSelectLargerThan g N data value) i r m =
    if decide (c < length m)%nat then Some (<[c := id r]> m) else None.
Proof. intros Hc _. simpl. by apply wr_edge_cell. Qed.

Lemma hostSelectLargerThan_exec g N (m : list Z) :
  Array.hostSelectLargerThan N data value m =
  for_lt 0 N (exec (Array.devSelectLargerThan g N data value)) m.
Proof.
  unfold Array.hostSelectLargerThan. rewrite !for_lt_exec_list.
  apply exec_list_ext. intros i p. unfold exec. simpl.
  by destruct (rd data i).
Qed.

(** The flags the host loop computes. *)
Lemma hostSelectLargerThan_post N (m0 m : list Z) :
  Array.hostSelectLargerThan N data value m0 = Some m →
  length m = length m0 ∧
  ∀ i, 0 <= i < N →
    ∃ d, rd data i = Some d ∧ rd m i = Some (larger_flag value d).
Proof.
  rewrite (hostSelectLargerThan_exec (Dim 1 1)), for_lt_exec_list, Z.sub_0_r.
  intros Hex.
  destruct (exec_list_post (Array.devSelectLargerThan (Dim 1 1) N data value)
              edge_cell select_upd id (devSelectLargerThan_load _ _)
              (devSelectLargerThan_store _ _) m0 (seqZ 0 N) [] m0 m)
    as [(Hlen & Hd & _) _]; [apply post_nil | | exact Hex |].
  { apply NoDup_omap_strong; [| apply NoDup_seqZ].
    intros i j c _ _. apply edge_cell_inj. }
  split; [done |]. intros i Hi.
  destruct (Hd i) as (c & r & Hc & Hu & Hr); [apply elem_of_seqZ; lia |].
  unfold select_upd in Hu.
  destruct (rd data i) as [d |]; simpl in Hu; [| done].
  injection Hu as <-. exists d. split; [done |].
  by rewrite rd_edge_cell, Hc.
Qed.

Lemma hostSelectLargerThan_defined N (m0 : list Z) :
  N <= Z.of_nat (length data) → N <= Z.of_nat (length m0) →
  is_Some (Array.hostSelectLargerThan N data value m0).
Proof.
  intros Hdata Hm0.
  rewrite (hostSelectLargerThan_exec (Dim 1 1)), for_lt_exec_list, Z.sub_0_r.
  apply (exec_list_ready (Array.devSelectLargerThan (Dim 1 1) N data value)
           edge_cell select_upd id (devSelectLargerThan_load _ _)
           (devSelectLargerThan_store _ _) m0 (seqZ 0 N) [] m0).
  - apply post_nil.
  - apply NoDup_omap_strong; [| apply NoDup_seqZ].
    intros i j c _ _. apply edge_cell_inj.
  - apply Forall_seqZ. intros i Hi.
    destruct (proj2 (rd_is_Some data i)) as [d Hd]; [lia |].
    exists (Z.to_nat i), (larger_flag value d). split_and!.
    + apply edge_cell_Some. split; [lia | done].
    + lia.
    + unfold select_upd. by rewrite Hd.
Qed.

(** The flag kernel against the host flag loop. *)
Lemma select_launch_host g N sched (m0 m : list Z) :
  launch_ok g N →
  launch (Array.devSelectLargerThan g N data value) (s32 <$> thread_ids g)
         sched m0 = Some m →
  Array.hostSelectLargerThan N data value m0 = Some m.
Proof.
  intros [Hg HN] Hl. rewrite (hostSelectLargerThan_exec g).
  eapply (stride_launch_host _ edge_cell select_upd id g N);
    [apply devSelectLargerThan_load | apply devSelectLargerThan_store | done
    | | done | done | exact Hl].
  intros i j c _ _. apply edge_cell_inj.
Qed.

Lemma select_host_launch g N (m0 m : list Z) :
  launch_ok g N →
  Array.hostSelectLargerThan N data value m0 = Some m →
  ∃ sched,
    launch (Array.devSelectLargerThan g N data value) (s32 <$> thread_ids g)
           sched m0 = Some m.
Proof.
  intros [Hg HN]. rewrite (hostSelectLargerThan_exec g). intros Hex.
  eapply (stride_host_launch _ edge_cell select_upd id g N);
    [apply devSelectLargerThan_load | apply devSelectLargerThan_store | done
    | | done | done | exact Hex].
  intros i j c _ _. apply edge_cell_inj.
Qed.
End SelectKernel.

(** *** Scan and compaction *)

(** The elements of [xs] whose flag is 1, in order. *)
Fixpoint keep {T} (flags : list Z) (xs : list T) : list T :=
  match flags, xs with
  | f :: flags', x :: xs' =>
      if decide (f = 1) then x :: keep flags' xs' else keep flags' xs'
  | _, _ => []
  end.

Definition sumZ (l : list Z) : Z := foldr Z.add 0 l.

Definition is_flag (f : Z) : Prop := f = 0 ∨ f = 1.

Lemma sumZ_app l1 l2 : sumZ (l1 ++ l2) = sumZ l1 + sumZ l2.
Proof. induction l1 as [| x l1 IH]; simpl; [done |]. rewrite IH. lia. Qed.

Lemma keep_snoc {T} (fl : list Z) (xs : list T) f x :
  length fl = length xs →
  keep (fl ++ [f]) (xs ++ [x]) =
    keep fl xs ++ (if decide (f = 1) then [x] else []).
Proof.
  revert xs. induction fl as [| f' fl IH]; intros [| x' xs] Hlen; try done.
  simpl in *. rewrite IH by lia. by destruct (decide (f' = 1)).
Qed.

Lemma sumZ_keep {T} (fl : list Z) (xs : list T) :
  Forall is_flag fl → length fl = length xs →
  sumZ fl = Z.of_nat (length (keep fl xs)).
Proof.
  revert xs. induction fl as [| f fl IH]; intros [| x xs] Hfl Hlen; try done.
  apply Forall_cons in Hfl as [Hf Hfl]. simpl in *.
  rewrite (IH xs) by (done || lia).
  destruct Hf as [-> | ->]; simpl; lia.
Qed.

Lemma length_keep_le {T} (fl : list Z) (xs : list T) :
  (length (keep fl xs) <= length fl)%nat.
Proof.
  revert xs. induction fl as [| f fl IH]; intros [| x xs]; simpl; try lia.
  specialize (IH xs). case_decide; simpl; lia.
Qed.

Lemma exclusive_scan_total acc l : (Array.exclusive_scan acc l).2 = acc + sumZ l.
Proof.
  revert acc. induction l as [| f l IH]; intros acc; simpl; [lia |].
  specialize (IH (acc + f)). destruct (Array.exclusive_scan (acc + f) l).
  simpl in *. lia.
Qed.

Lemma exclusive_scan_length acc l :
  length (Array.exclusive_scan acc l).1 = length l.
Proof.
  revert acc. induction l as [| f l IH]; intros acc; simpl; [done |].
  specialize (IH (acc + f)). destruct (Array.exclusive_scan (acc + f) l).
  simpl in *. lia.
Qed.

Lemma exclusive_scan_lookup l : ∀ acc i,
  (i < length l)%nat →
  (Array.exclusive_scan acc l).1 !! i = Some (acc + sumZ (take i l)).
Proof.
  induction l as [| f l IH]; intros acc i Hi; simpl in *; [lia |].
  specialize (IH (acc + f)). destruct (Array.exclusive_scan (acc + f) l).
  destruct i as [| i]; simpl in *; [f_equal; lia |].
  rewrite IH by lia. f_equal. lia.
Qed.

Lemma keep_larger_filter value (xs : list Z) :
  keep (larger_flag value <$> xs) xs = filter (λ x, x > value) xs.
Proof.
  induction xs as [| x xs IH]; [done |]. rewrite fmap_cons. simpl.
  rewrite IH, filter_cons. unfold larger_flag.
  destruct (decide (x > value)); by simpl.
Qed.

Lemma larger_flag_is_flag value (xs : list Z) :
  Forall is_flag (larger_flag value <$> xs).
Proof.
  apply Forall_fmap, Forall_forall. intros x _. unfold larger_flag, is_flag.
  simpl. case_decide; auto.
Qed.

Section Compact.
Context {T : Type}.
Variables (flags scan : list Z) (src : list T) (rs : Z).

(** The body of the loops of [Compact] for element [i] of dimension [n]. *)
Definition compact_body (n i : Z) (dst : list T) : option (list T) :=
  f ← rd flags i;
  if decide (f = 1) then
    s ← rd scan i; x ← rd src (i + n * rs); wr dst (s + n * rs) x
  else Some dst.

(** The kept elements of the first [k] elements of dimension [n]. *)
Definition kept (n : Z) (k : nat) : list T :=
  keep (take k flags) (take k (drop (Z.to_nat (n * rs)) src)).

Lemma compact_dim n (k : nat) dst0 :
  0 <= n * rs → (k <= length flags)%nat → Forall is_flag (take k flags) →
  (∀ i, (i < k)%nat → scan !! i = Some (sumZ (take i flags))) →
  n * rs + Z.of_nat k <= Z.of_nat (length src) →
  n * rs + Z.of_nat k <= Z.of_nat (length dst0) →
  ∃ dst,
    exec_list (compact_body n) (seqZ 0 (Z.of_nat k)) dst0 = Some dst ∧
    length dst = length dst0 ∧
    (∀ j y, kept n k !! j = Some y →
            dst !! (Z.to_nat (n * rs) + j)%nat = Some y) ∧
    (∀ c, ¬ (Z.to_nat (n * rs) <= c
             < Z.to_nat (n * rs) + length (kept n k))%nat →
          dst !! c = dst0 !! c).
Proof.
  intros Hoff. induction k as [| k IH]; intros Hk Hfl Hscan Hsrc Hdst.
  - exists dst0. split_and!; [done | done | | done].
    intros j y Hj. unfold kept in Hj. by rewrite take_0 in Hj.
  - destruct (lookup_lt_is_Some_2 flags k) as [f Hf]; [lia |].
    destruct (lookup_lt_is_Some_2 src (Z.to_nat (n * rs) + k)) as [x Hx];
      [lia |].
    rewrite (take_S_r _ _ _ Hf) in Hfl.
    apply Forall_app in Hfl as [Hfl Hflag]. apply Forall_singleton in Hflag.
    destruct IH as (dst & Hex & Hlen & Hin & Hout);
      [lia | done | intros i Hi; apply Hscan; lia | lia | lia |].
    assert (kept n (S k) = kept n k ++ (if decide (f = 1) then [x] else []))
      as Hkept.
    { unfold kept. rewrite (take_S_r _ _ _ Hf).
      rewrite (take_S_r _ _ x) by (by rewrite lookup_drop).
      apply keep_snoc. rewrite !length_take, length_drop. lia. }
    assert (sumZ (take k flags) = Z.of_nat (length (kept n k))) as Hsum.
    { apply sumZ_keep; [done |].
      rewrite !length_take, length_drop. lia. }
    assert (length (kept n k) <= k)%nat as Hle.
    { etrans; [apply length_keep_le |]. rewrite length_take. lia. }
    assert (compact_body n (Z.of_nat k) dst =
              if decide (f = 1)
              then Some (<[(Z.to_nat (n * rs) + length (kept n k))%nat := x]>
                           dst)
              else Some dst) as Hbody.
    { unfold compact_body. rewrite (rd_nat flags), Hf. simpl.
      case_decide; [| done].
      rewrite (rd_nat scan), (Hscan k) by lia. simpl.
      replace (Z.of_nat k + n * rs) with (Z.of_nat (Z.to_nat (n * rs) + k))
        by lia.
      rewrite (rd_nat src), Hx. simpl. rewrite Hsum.
      replace (Z.of_nat (length (kept n k)) + n * rs)
        with (Z.of_nat (Z.to_nat (n * rs) + length (kept n k))) by lia.
      rewrite wr_nat, Nat2Z.id by lia. by rewrite decide_True by lia. }
    rewrite seqZ_S, exec_list_app, Hex. simpl.
    rewrite Z.add_0_l, Hbody, Hkept. case_decide as Hf1; simpl.
    + eexists. split_and!; [done | by rewrite length_insert | |].
      * intros j y Hj.
        destruct (decide (j = length (kept n k))) as [-> | Hne].
        -- rewrite lookup_app_r, Nat.sub_diag in Hj by lia.
           injection Hj as <-. apply list_lookup_insert_eq. lia.
        -- rewrite list_lookup_insert_ne by lia. apply Hin.
           rewrite lookup_app_l in Hj; [done |].
           apply lookup_lt_Some in Hj. rewrite length_app in Hj.
           simpl in Hj. lia.
      * intros c Hc. rewrite length_app in Hc. simpl in Hc.
        rewrite list_lookup_insert_ne by lia. apply Hout. lia.
    + rewrite app_nil_r. eexists. split_and!; [done | done | done | done].
Qed.

(** All dimensions. *)
Lemma compact_dims (k : nat) (d : nat) :
  0 <= rs → Z.of_nat k <= rs →
  (k <= length flags)%nat → Forall is_flag (take k flags) →
  (∀ i, (i < k)%nat → scan !! i = Some (sumZ (take i flags))) →
  Z.of_nat d * rs <= Z.of_nat (length src) →
  ∃ dst,
    exec_list (λ n dst, exec_list (compact_body n) (seqZ 0 (Z.of_nat k)) dst)
              (seqZ 0 (Z.of_nat d)) src = Some dst ∧
    length dst = length src ∧
    (∀ n j y, 0 <= n < Z.of_nat d → kept n k !! j = Some y →
              dst !! (Z.to_nat (n * rs) + j)%nat = Some y) ∧
    (∀ c, (Z.to_nat (Z.of_nat d * rs) <= c)%nat → dst !! c = src !! c).
Proof.
  intros Hrs Hk Hkf Hfl Hscan. induction d as [| d IH]; intros Hlen.
  - exists src. split_and!; [done | done | | done]. intros n j y Hn. lia.
  - destruct IH as (dst & Hex & Hl & Hin & Hout); [nia |].
    destruct (compact_dim (Z.of_nat d) k dst)
      as (dst' & Hex' & Hl' & Hin' & Hout'); [nia | done | done | done
                                              | nia | nia |].
    assert (length (kept (Z.of_nat d) k) <= k)%nat as Hle.
    { etrans; [apply length_keep_le |]. rewrite length_take. lia. }
    exists dst'. rewrite seqZ_S, exec_list_app, Hex. simpl.
    rewrite Z.add_0_l, Hex'. simpl.
    split_and!; [done | lia | |].
    + intros n j y Hn Hj.
      destruct (decide (n = Z.of_nat d)) as [-> | Hne]; [by apply Hin' |].
      rewrite Hout'; [apply Hin; [lia | done] |].
      assert (length (kept n k) <= k)%nat.
      { etrans; [apply length_keep_le |]. rewrite length_take. lia. }
      apply lookup_lt_Some in Hj. nia.
    + intros c Hc. rewrite Hout' by nia. apply Hout. nia.
Qed.
End Compact.

(** The elements in use of dimension [n] of an array. *)
Definition dim_elems {T} (A : Array.Array T) (n : Z) : list T :=
  take (Z.to_nat (Array.size A))
       (drop (Z.to_nat (n * Array.realSize A)) (Array.vec A)).

Lemma take_lookup_eq {T} (ys dst : list T) (off : nat) :
  (∀ j y, ys !! j = Some y → dst !! (off + j)%nat = Some y) →
  take (length ys) (drop off dst) = ys.
Proof.
  intros Hin. apply list_eq. intros j.
  destruct (decide (j < length ys)%nat) as [Hj | Hj].
  - rewrite lookup_take_lt, lookup_drop by done.
    destruct (lookup_lt_is_Some_2 ys j Hj) as [y Hy].
    by rewrite Hy, (Hin j y Hy).
  - rewrite lookup_take_ge by lia. symmetry. apply lookup_ge_None. lia.
Qed.

(** [Compact] with the flags of a select and their exclusive scan. *)
Lemma Compact_spec {T} nKeep (F S : Array.Array Z) (A : Array.Array T) :
  let k := Z.to_nat (Array.size A) in
  let flags := take k (Array.vec F) in
  array_ok A → 0 <= Array.size A <= Array.realSize A →
  (k <= length (Array.vec F))%nat → Forall is_flag flags →
  (∀ i, (i < k)%nat → Array.vec S !! i = Some (sumZ (take i flags))) →
  nKeep = sumZ flags →
  ∃ A', Array.Compact nKeep F S A = Some A' ∧
    Array.size A' = nKeep ∧ Array.nDims A' = Array.nDims A ∧
    Array.realSize A' = Array.realSize A ∧
    Array.cudaFlag A' = Array.cudaFlag A ∧
    length (Array.vec A') = length (Array.vec A) ∧
    ∀ n, 0 <= n < Array.nDims A →
         dim_elems A' n = keep flags (dim_elems A n).
Proof.
  intros k flags (HnD & HrS & Hlen & Hsize) Hsz Hk Hfl Hscan ->.
  assert (take k (Array.vec F) = flags) as Htk by done.
  assert (∀ i, (i < k)%nat → take i (Array.vec F) = take i flags) as Hti.
  { intros i Hi. unfold flags. rewrite take_take. f_equal. lia. }
  destruct (compact_dims (Array.vec F) (Array.vec S) (Array.vec A)
              (Array.realSize A) k (Z.to_nat (Array.nDims A)))
    as (dst & Hex & Hl & Hin & _); [done | lia | done | by rewrite Htk | | lia |].
  { intros i Hi. rewrite (Hti i Hi). by apply Hscan. }
  exists (Array.mk (Array.nDims A) (Array.cudaFlag A) (sumZ flags)
            (Array.realSize A) dst).
  split_and!; try done.
  - unfold Array.Compact. rewrite for_lt_exec_list, Z.sub_0_r.
    rewrite <- (Z2Nat.id (Array.nDims A)) at 1 by lia.
    erewrite exec_list_ext; [rewrite Hex; done |].
    intros n dst'. rewrite for_lt_exec_list, Z.sub_0_r.
    rewrite <- (Z2Nat.id (Array.size A)) at 1 by lia. done.
  - intros n Hn. unfold dim_elems. simpl.
    assert (sumZ flags = Z.of_nat (length (kept (Array.vec F) (Array.vec A)
                                             (Array.realSize A) n k))) as ->.
    { unfold kept. rewrite Htk. apply sumZ_keep; [done |].
      unfold flags. rewrite !length_take, length_drop. nia. }
    rewrite Nat2Z.id.
    apply (take_lookup_eq
             (kept (Array.vec F) (Array.vec A) (Array.realSize A) n k)).
    intros j y Hj. apply Hin; [lia | done].
Qed.

(** What [SelectLargerThan] does once the flags are computed. *)
Definition select_tail {S} (fresh2 : list Z) (self : Array.Array Z)
    (A : Array.Array S) (pSelectFlag : list Z)
  : option (Z * Array.Array Z * Array.Array S) :=
  let selectFlag :=
    Array.mk 1 (Array.cudaFlag self) (Array.size self) (Array.size self)
      pSelectFlag in
  let selectFlagScan :=
    Array.mk 1 (Array.cudaFlag self) (Array.size self) (Array.size self)
      fresh2 in
  let '(nSelect, selectFlagScan) :=
    Array.ExclusiveScan selectFlag selectFlagScan in
  self' ← Array.Compact nSelect selectFlag selectFlagScan self;
  A' ← Array.Compact nSelect selectFlag selectFlagScan A;
  Some (nSelect, self', A').

Lemma SelectLargerThan_tail {S} g sched fresh1 fresh2 value self
    (A : Array.Array S) :
  Array.SelectLargerThan g sched fresh1 fresh2 value self A =
    pSelectFlag ←
      (if decide (Array.cudaFlag self = 1) then
         launch (Array.devSelectLargerThan g (s32 (Array.size self))
                   (Array.vec self) value)
                (s32 <$> thread_ids g) sched fresh1
       else Array.hostSelectLargerThan (Array.size self) (Array.vec self)
              value fresh1);
    select_tail fresh2 self A pSelectFlag.
Proof. reflexivity. Qed.

(** The flags of the elements in use are the flags of a select. *)
Lemma select_flags_take value (data m : list Z) (N : Z) :
  (∀ i, 0 <= i < N →
     ∃ d, rd data i = Some d ∧ rd m i = Some (larger_flag value d)) →
  take (Z.to_nat N) m = larger_flag value <$> take (Z.to_nat N) data.
Proof.
  intros Hfl. apply list_eq. intros j. rewrite list_lookup_fmap, !lookup_take.
  case_decide as Hj; [| done].
  destruct (Hfl (Z.of_nat j)) as (d & Hd & Hm); [lia |].
  rewrite rd_nat in Hd, Hm. by rewrite Hd, Hm.
Qed.

Lemma select_tail_spec {S} fresh2 value self (A : Array.Array S) m :
  array_ok self → 0 <= Array.size self <= Array.realSize self →
  array_ok A → Array.size A = Array.size self →
  Array.size A <= Array.realSize A →
  (Z.to_nat (Array.size self) <= length m)%nat →
  take (Z.to_nat (Array.size self)) m
    = larger_flag value <$> dim_elems self 0 →
  ∃ self' A',
    select_tail fresh2 self A m
      = Some (Z.of_nat (length (filter (λ x, x > value) (dim_elems self 0))),
              self', A') ∧
    Array.size self' = Array.size A' ∧
    Array.size self'
      = Z.of_nat (length (filter (λ x, x > value) (dim_elems self 0))) ∧
    (∀ n, 0 <= n < Array.nDims self →
       dim_elems self' n
       = keep (larger_flag value <$> dim_elems self 0) (dim_elems self n)) ∧
    (∀ n, 0 <= n < Array.nDims A →
       dim_elems A' n
       = keep (larger_flag value <$> dim_elems self 0) (dim_elems A n)).
Proof.
  intros Hself Hsz HA HszA HrA Hm Hflags.
  set (k := Z.to_nat (Array.size self)) in *.
  set (mask := larger_flag value <$> dim_elems self 0) in *.
  assert (length mask = k) as Hmask.
  { rewrite <- Hflags, length_take. lia. }
  assert (sumZ mask
          = Z.of_nat (length (filter (λ x, x > value) (dim_elems self 0))))
    as Hsum.
  { rewrite <- keep_larger_filter. apply sumZ_keep.
    - apply larger_flag_is_flag.
    - unfold mask. by rewrite length_fmap. }
  unfold select_tail, Array.ExclusiveScan. simpl. fold k. rewrite Hflags.
  pose proof (exclusive_scan_total 0 mask) as Htot.
  pose proof (exclusive_scan_length 0 mask) as Hslen.
  pose proof (exclusive_scan_lookup mask 0) as Hslook.
  destruct (Array.exclusive_scan 0 mask) as [s total]. simpl in *.
  rewrite Z.add_0_l in Htot. subst total.
  set (F := Array.mk 1 (Array.cudaFlag self) (Array.size self)
              (Array.size self) m).
  set (Sc := Array.set_vec _ _).
  assert (∀ i, (i < k)%nat →
            Array.vec Sc !! i = Some (sumZ (take i mask))) as Hscan.
  { intros i Hi. simpl. rewrite lookup_app_l by lia.
    by (rewrite Hslook by lia). }
  destruct (Compact_spec (sumZ mask) F Sc self)
    as (self' & Hc1 & Hs1 & _ & _ & _ & _ & Hd1); try done.
  { simpl. fold k. rewrite Hflags. apply larger_flag_is_flag. }
  { simpl. fold k. rewrite Hflags. done. }
  { simpl. fold k. by rewrite Hflags. }
  destruct (Compact_spec (sumZ mask) F Sc A)
    as (A' & Hc2 & Hs2 & _ & _ & _ & _ & Hd2); try done.
  { lia. }
  { simpl. rewrite HszA. done. }
  { simpl. rewrite HszA. fold k. rewrite Hflags. apply larger_flag_is_flag. }
  { simpl. rewrite HszA. fold k. rewrite Hflags. done. }
  { simpl. rewrite HszA. fold k. by rewrite Hflags. }
  exists self', A'. rewrite Hc1. simpl. rewrite Hc2. simpl.
  rewrite Hsum. split_and!; [done | lia | lia | |].
  - intros n Hn. rewrite (Hd1 n Hn). simpl. fold k. by rewrite Hflags.
  - intros n Hn. rewrite (Hd2 n Hn). simpl. rewrite HszA. fold k.
    by rewrite Hflags.
Qed.

(** Either path of [SelectLargerThan] computes the flags of the host
    loop. *)
Lemma SelectLargerThan_host {S} g sched fresh1 fresh2 value self
    (A : Array.Array S) r :
  Array.SelectLargerThan g sched fresh1 fresh2 value self A = Some r →
  0 <= Array.size self →
  (Array.cudaFlag self = 1 → launch_ok g (Array.size self)) →
  ∃ m, Array.hostSelectLargerThan (Array.size self) (Array.vec self) value
         fresh1 = Some m ∧
       select_tail fresh2 self A m = Some r.
Proof.
  rewrite SelectLargerThan_tail. intros Hsel Hsz Hok.
  destruct (decide (Array.cudaFlag self = 1)) as [Hflag | Hflag].
  - pose proof (Hok Hflag) as Hl. pose proof Hl as [Hg HN].
    pose proof (grid_stride_pos g Hg).
    rewrite s32_id in Hsel by lia.
    destruct (launch _ _ _ _) as [m |] eqn:Hlaunch; simpl in Hsel; [| done].
    exists m. split; [| done]. by eapply select_launch_host.
  - destruct (Array.hostSelectLargerThan _ _ _ _) as [m |]; simpl in Hsel;
      [| done].
    by exists m.
Qed.

Lemma SelectLargerThan_exists {S} g fresh1 fresh2 value self
    (A : Array.Array S) m r :
  Array.hostSelectLargerThan (Array.size self) (Array.vec self) value fresh1
    = Some m →
  select_tail fresh2 self A m = Some r →
  0 <= Array.size self →
  (Array.cudaFlag self = 1 → launch_ok g (Array.size self)) →
  ∃ sched, Array.SelectLargerThan g sched fresh1 fresh2 value self A = Some r.
Proof.
  intros Hhost Htail Hsz Hok.
  destruct (decide (Array.cudaFlag self = 1)) as [Hflag | Hflag].
  - pose proof (Hok Hflag) as Hl. pose proof Hl as [Hg HN].
    pose proof (grid_stride_pos g Hg).
    destruct (select_host_launch _ _ g _ _ _ Hl Hhost) as [sched Hs].
    exists sched. rewrite SelectLargerThan_tail, decide_True by done.
    rewrite s32_id by lia. rewrite Hs. done.
  - exists []. rewrite SelectLargerThan_tail, decide_False by done.
    rewrite Hhost. done.
Qed.

(** C5: [SelectLargerThan(v, A)] on an array of [size] elements returns
    (on the host path, and under some schedule on the accelerator path);
    whenever it returns, the result is the number of indices below [size]
    whose element is strictly greater than [v], and the receiver and the
    companion array [A] hold, in every dimension, exactly the elements at
    those indices, at the front and in their original order. *)
Theorem SelectLargerThan_spec {S} g fresh1 fresh2 v (self : Array.Array Z)
    (A : Array.Array S) :
  array_ok self → 1 <= Array.nDims self →
  0 <= Array.size self <= Array.realSize self →
  array_ok A → Array.size A = Array.size self →
  Array.size A <= Array.realSize A →
  Array.size self <= Z.of_nat (length fresh1) →
  (Array.cudaFlag self = 1 → launch_ok g (Array.size self)) →
  (∃ sched r,
     Array.SelectLargerThan g sched fresh1 fresh2 v self A = Some r) ∧
  ∀ sched nSelect self' A',
    Array.SelectLargerThan g sched fresh1 fresh2 v self A
      = Some (nSelect, self', A') →
    nSelect = Z.of_nat (length (filter (λ x, x > v) (dim_elems self 0))) ∧
    Array.size self' = nSelect ∧ Array.size A' = nSelect ∧
    dim_elems self' 0 = filter (λ x, x > v) (dim_elems self 0) ∧
    (∀ n, 0 <= n < Array.nDims self →
       dim_elems self' n
       = keep (larger_flag v <$> dim_elems self 0) (dim_elems self n)) ∧
    (∀ n, 0 <= n < Array.nDims A →
       dim_elems A' n
       = keep (larger_flag v <$> dim_elems self 0) (dim_elems A n)).
Proof.
  intros Hself HnD Hsz HA HszA HrA Hfresh Hok.
  pose proof Hself as (_ & HrS & Hlen & _).
  assert (∀ m, Array.hostSelectLargerThan (Array.size self) (Array.vec self)
                 v fresh1 = Some m →
               ∃ self' A',
                 select_tail fresh2 self A m
                 = Some (Z.of_nat (length (filter (λ x, x > v)
                                             (dim_elems self 0))),
                         self', A') ∧
                 Array.size self' = Array.size A' ∧
                 Array.size self'
                 = Z.of_nat (length (filter (λ x, x > v) (dim_elems self 0))) ∧
                 (∀ n, 0 <= n < Array.nDims self →
                    dim_elems self' n
                    = keep (larger_flag v <$> dim_elems self 0)
                        (dim_elems self n)) ∧
                 (∀ n, 0 <= n < Array.nDims A →
                    dim_elems A' n
                    = keep (larger_flag v <$> dim_elems self 0)
                        (dim_elems A n))) as Htail.
  { intros m Hm. apply hostSelectLargerThan_post in Hm as [Hmlen Hfl].
    apply select_tail_spec; [done | done | done | done | done | lia |].
    unfold dim_elems. simpl. by apply select_flags_take. }
  split.
  - destruct (hostSelectLargerThan_defined (Array.vec self) v
                (Array.size self) fresh1) as [m Hm]; [nia | done |].
    destruct (Htail m Hm) as (self' & A' & Ht & _).
    destruct (SelectLargerThan_exists g fresh1 fresh2 v self A m _ Hm Ht)
      as [sched Hs]; [lia | done |].
    by eauto.
  - intros sched nSelect self' A' Hsel.
    apply SelectLargerThan_host in Hsel as (m & Hm & Ht); [| lia | done].
    destruct (Htail m Hm) as (self1 & A1 & Ht1 & Hs & Hs1 & Hd1 & Hd2).
    rewrite Ht in Ht1. injection Ht1 as -> -> ->.
    split_and!; [done | done | lia | | done | done].
    rewrite Hd1 by lia. apply keep_larger_filter.
Qed.

(** A receiver of four elements and a companion of two dimensions. *)
Definition sample_keys (cudaFlag : Z) : Array.Array Z :=
  Array.mk 1 cudaFlag 4 4 [5; 1; 7; 3].
Definition sample_payload : Array.Array Z :=
  Array.mk 2 0 4 4 [10; 20; 30; 40; 50; 60; 70; 80].

Example SelectLargerThan_sample :
  Array.SelectLargerThan (Dim 2 1) [0; 1; 1; 0; 0; 1; 1; 0; 0]%nat
    [0; 0; 0; 0] [0; 0; 0; 0] 2 (sample_keys 1) sample_payload
  = Some (3, Array.mk 1 1 3 4 [5; 7; 3; 3],
          Array.mk 2 0 3 4 [10; 30; 40; 40; 50; 70; 80; 80]).
Proof. reflexivity. Qed.

Lemma SelectLargerThan_spec_witness :
  (∃ sched r,
     Array.SelectLargerThan (Dim 2 1) sched [0; 0; 0; 0] [0; 0; 0; 0] 2
       (sample_keys 1) sample_payload = Some r) ∧
  ∀ sched nSelect self' A',
    Array.SelectLargerThan (Dim 2 1) sched [0; 0; 0; 0] [0; 0; 0; 0] 2
      (sample_keys 1) sample_payload = Some (nSelect, self', A') →
    nSelect
    = Z.of_nat (length (filter (λ x, x > 2) (dim_elems (sample_keys 1) 0))) ∧
    Array.size self' = nSelect ∧ Array.size A' = nSelect ∧
    dim_elems self' 0 = filter (λ x, x > 2) (dim_elems (sample_keys 1) 0) ∧
    (∀ n, 0 <= n < 1 →
       dim_elems self' n
       = keep (larger_flag 2 <$> dim_elems (sample_keys 1) 0)
           (dim_elems (sample_keys 1) n)) ∧
    (∀ n, 0 <= n < 2 →
       dim_elems A' n
       = keep (larger_flag 2 <$> dim_elems (sample_keys 1) 0)
           (dim_elems sample_payload n)).
Proof.
  apply (SelectLargerThan_spec (Dim 2 1) [0; 0; 0; 0] [0; 0; 0; 0] 2
           (sample_keys 1) sample_payload).
  - unfold array_ok. simpl. lia.
  - simpl. lia.
  - simpl. lia.
  - unfold array_ok. simpl. lia.
  - reflexivity.
  - simpl. lia.
  - simpl. lia.
  - intros _. unfold launch_ok, geometry. simpl. vm_compute.
    intuition congruence.
Defined.

(** The result of a select with the receiver's path flag set to [c]. *)
Definition reflag {S} (c : Z) (r : Z * Array.Array Z * Array.Array S)
  : Z * Array.Array Z * Array.Array S :=
  (r.1.1, with_flag c r.1.2, r.2).

Lemma Compact_flag {T} nKeep F S F' S' c (A : Array.Array T) :
  Array.vec F = Array.vec F' → Array.vec S = Array.vec S' →
  Array.Compact nKeep F' S' (with_flag c A)
  = with_flag c <$> Array.Compact nKeep F S A.
Proof.
  intros HF HS. unfold Array.Compact. simpl. rewrite HF, HS.
  by destruct (for_lt _ _ _ _).
Qed.

Lemma Compact_vec {T} nKeep F S F' S' (A : Array.Array T) :
  Array.vec F = Array.vec F' → Array.vec S = Array.vec S' →
  Array.Compact nKeep F' S' A = Array.Compact nKeep F S A.
Proof. intros HF HS. unfold Array.Compact. by rewrite HF, HS. Qed.

Lemma select_tail_flag {S} fresh2 c self (A : Array.Array S) m :
  select_tail fresh2 (with_flag c self) A m
  = reflag c <$> select_tail fresh2 self A m.
Proof.
  unfold select_tail, Array.ExclusiveScan. simpl.
  destruct (Array.exclusive_scan 0 _) as [s total].
  rewrite (Compact_flag total
             (Array.mk 1 (Array.cudaFlag self) (Array.size self)
                (Array.size self) m)
             (Array.set_vec
                (Array.mk 1 (Array.cudaFlag self) (Array.size self)
                   (Array.size self) fresh2)
                (s ++ drop (length s) fresh2))) by done.
  destruct (Array.Compact total _ _ self) as [self' |]; simpl; [| done].
  rewrite (Compact_vec total
             (Array.mk 1 (Array.cudaFlag self) (Array.size self)
                (Array.size self) m)
             (Array.set_vec
                (Array.mk 1 (Array.cudaFlag self) (Array.size self)
                   (Array.size self) fresh2)
                (s ++ drop (length s) fresh2))) by done.
  by destruct (Array.Compact total _ _ A).
Qed.

(** The accelerator path and the host path of [SelectLargerThan] return
    the same count and the same array contents. *)
Lemma SelectLargerThan_paths {S} g fresh1 fresh2 v self (A : Array.Array S) :
  0 <= Array.size self → launch_ok g (Array.size self) →
  (∀ sched r,
     Array.SelectLargerThan g sched fresh1 fresh2 v (with_flag 1 self) A
       = Some r →
     ∀ sched',
       Array.SelectLargerThan g sched' fresh1 fresh2 v (with_flag 0 self) A
       = Some (reflag 0 r)) ∧
  (∀ sched' r,
     Array.SelectLargerThan g sched' fresh1 fresh2 v (with_flag 0 self) A
       = Some r →
     ∃ sched,
       Array.SelectLargerThan g sched fresh1 fresh2 v (with_flag 1 self) A
       = Some (reflag 1 r)).
Proof.
  intros Hsz Hok.
  assert (∀ c c' m r,
            select_tail fresh2 (with_flag c self) A m = Some r →
            select_tail fresh2 (with_flag c' self) A m = Some (reflag c' r))
    as Hflag.
  { intros c c' m r. rewrite !select_tail_flag.
    destruct (select_tail fresh2 self A m) as [[[n s] a] |]; simpl; [| done].
    by intros [= <-]. }
  split.
  - intros sched r Hsel sched'.
    apply SelectLargerThan_host in Hsel as (m & Hm & Ht); [| done | done].
    simpl in Hm. rewrite SelectLargerThan_tail. simpl. rewrite Hm. simpl.
    by eapply Hflag.
  - intros sched' r Hsel.
    apply SelectLargerThan_host in Hsel as (m & Hm & Ht);
      [| done | by intros [=]].
    simpl in Hm.
    apply (SelectLargerThan_exists g fresh1 fresh2 v (with_flag 1 self) A m);
      [done | by eapply Hflag | done | done].
Qed.

(** C3: the accelerator path ([cudaFlag = 1]) and the host path
    ([cudaFlag = 0]) of [Delaunay::EdgeRepair], [Array::SetToValue] and
    [Array::SelectLargerThan] are equivalent: every accelerator schedule
    that completes yields the final array contents and the return value of
    the host path, and whenever the host path returns some accelerator
    schedule completes with them.  The inputs are those the passes are
    written for: a candidate list names each edge once (as edgerepair.cu
    documents it), an array holds [nDims] dimensions of [realSize] elements
    and the range set lies inside them, and the launch does not overflow
    the loop counters of its kernel.  The element type of [SetToValue] and
    the type of the companion array of [SelectLargerThan] are any. *)
Theorem paths_equivalent :
  (∀ g pTsub c enc n,
     launch_ok g (pass_size enc n c) → once enc n →
     (∀ sched c',
        EdgeRepair g sched (mkDelaunay 1 pTsub) c enc n
          = Some (mkDelaunay 1 pTsub, c') →
        ∀ sched', EdgeRepair g sched' (mkDelaunay 0 pTsub) c enc n
                  = Some (mkDelaunay 0 pTsub, c')) ∧
     (∀ sched' c',
        EdgeRepair g sched' (mkDelaunay 0 pTsub) c enc n
          = Some (mkDelaunay 0 pTsub, c') →
        ∃ sched, EdgeRepair g sched (mkDelaunay 1 pTsub) c enc n
                 = Some (mkDelaunay 1 pTsub, c'))) ∧
  (∀ T g (v : T) startIndex endIndex A,
     array_ok A → set_launch_ok g A startIndex endIndex →
     0 <= startIndex → endIndex <= Array.realSize A →
     (∀ sched A',
        Array.SetToValue g sched v startIndex endIndex (with_flag 1 A)
          = Some A' →
        ∀ sched',
          Array.SetToValue g sched' v startIndex endIndex (with_flag 0 A)
          = Some (with_flag 0 A')) ∧
     (∀ sched' A',
        Array.SetToValue g sched' v startIndex endIndex (with_flag 0 A)
          = Some A' →
        ∃ sched,
          Array.SetToValue g sched v startIndex endIndex (with_flag 1 A)
          = Some (with_flag 1 A'))) ∧
  (∀ S g fresh1 fresh2 v self (A : Array.Array S),
     0 <= Array.size self → launch_ok g (Array.size self) →
     (∀ sched r,
        Array.SelectLargerThan g sched fresh1 fresh2 v (with_flag 1 self) A
          = Some r →
        ∀ sched',
          Array.SelectLargerThan g sched' fresh1 fresh2 v (with_flag 0 self) A
          = Some (reflag 0 r)) ∧
     (∀ sched' r,
        Array.SelectLargerThan g sched' fresh1 fresh2 v (with_flag 0 self) A
          = Some r →
        ∃ sched,
          Array.SelectLargerThan g sched fresh1 fresh2 v (with_flag 1 self) A
          = Some (reflag 1 r))).
Proof.
  split_and!.
  - intros g pTsub c enc n. apply EdgeRepair_paths.
  - intros T g v startIndex endIndex A. apply SetToValue_paths.
  - intros S g fresh1 fresh2 v self A. apply SelectLargerThan_paths.
Qed.

(** A companion array of pairs, as the [float2] coordinates are. *)
Definition sample_pairs : Array.Array (Z * Z) :=
  Array.mk 2 0 4 4
    [(1, 10); (2, 20); (3, 30); (4, 40); (5, 50); (6, 60); (7, 70); (8, 80)].

Lemma paths_equivalent_witness :
  (∀ sched',
     EdgeRepair (Dim 2 1) sched' (chain_D 0) chain_c (Some [0]) 1
     = Some (chain_D 0,
             mkConnectivity (triangleEdges chain_c) [mkInt2 1 (-1)])) ∧
  (∀ sched',
     Array.SetToValue (Dim 2 2) sched' 9 1 3 (with_flag 0 (sample_array 1))
     = Some (with_flag 0
               (Array.mk 2 1 3 4 [1; 9; 9; 4; 5; 9; 9; 8]))) ∧
  (∀ sched',
     Array.SelectLargerThan (Dim 2 1) sched' [0; 0; 0; 0] [0; 0; 0; 0] 2
       (with_flag 0 (sample_keys 1)) sample_pairs
     = Some (reflag 0
               (3, Array.mk 1 1 3 4 [5; 7; 3; 3],
                Array.mk 2 0 3 4
                  [(1, 10); (3, 30); (4, 40); (4, 40);
                   (5, 50); (7, 70); (8, 80); (8, 80)]))).
Proof.
  destruct paths_equivalent as (Hedge & Hset & Hsel). split_and!.
  - refine (proj1 (Hedge (Dim 2 1) [1; 2; 2] chain_c (Some [0]) 1 _ _)
              [0; 1; 0; 1]%nat _ eq_refl).
    + unfold launch_ok, geometry. simpl. vm_compute. intuition congruence.
    + intros k1 k2 e Hk1 Hk2 _ _. lia.
  - refine (proj1 (Hset Z (Dim 2 2) 9 1 3 (sample_array 1) _ _ _ _)
              [0; 1; 2; 3; 0; 1; 2; 3; 0; 1; 2; 3; 0; 1; 2; 3; 0]%nat _
              eq_refl).
    + unfold array_ok. simpl. lia.
    + unfold set_launch_ok, geometry. simpl. vm_compute. intuition congruence.
    + lia.
    + simpl. lia.
  - refine (proj1 (Hsel (Z * Z)%type (Dim 2 1) [0; 0; 0; 0] [0; 0; 0; 0] 2
                     (sample_keys 1) sample_pairs _ _)
              [0; 1; 1; 0; 0; 1; 1; 0; 0]%nat _ eq_refl).
    + simpl. lia.
    + unfold launch_ok, geometry. simpl. vm_compute. intuition congruence.
Defined.

(** ** Vertex-index reduction *)

Lemma mod_sub_period a n : 0 < n → (a - n) mod n = a mod n.
Proof.
  intros Hn. rewrite <- (Z_mod_plus_full (a - n) 1 n). f_equal. lia.
Qed.

Lemma mod_add_period a n : 0 < n → (a + n) mod n = a mod n.
Proof.
  intros Hn. rewrite <- (Z_mod_plus_full a 1 n). f_equal. lia.
Qed.

Lemma while_ge_spec nVertex (fuel : nat) : ∀ a,
  1 <= nVertex → -2147483648 <= a < 2147483648 →
  Z.max a 0 < Z.of_nat fuel →
  while_ge fuel nVertex a
  = Some (if decide (a < nVertex) then a else a mod nVertex).
Proof.
  induction fuel as [| fuel IH]; intros a Hn Ha Hfuel; [lia |]. simpl.
  case_decide as Hge.
  - rewrite decide_False by lia. rewrite s32_id by lia.
    rewrite IH by lia. f_equal. rewrite <- (mod_sub_period a nVertex) by lia.
    case_decide; [| done]. rewrite Z.mod_small; lia.
  - by rewrite decide_True by lia.
Qed.

Lemma while_neg_spec nVertex (fuel : nat) : ∀ a,
  1 <= nVertex < 2147483648 → -2147483648 <= a < nVertex →
  Z.max (- a) 0 < Z.of_nat fuel →
  while_neg fuel nVertex a = Some (a mod nVertex).
Proof.
  induction fuel as [| fuel IH]; intros a Hn Ha Hfuel; [lia |]. simpl.
  case_decide as Hneg.
  - rewrite s32_id by lia. rewrite IH by lia.
    by rewrite mod_add_period by lia.
  - rewrite Z.mod_small; [done | lia].
Qed.

Lemma reduce_index_mod nVertex a (fuel : nat) :
  1 <= nVertex < 2147483648 → -2147483648 <= a < 2147483648 →
  Z.abs a < Z.of_nat fuel →
  reduce_index fuel nVertex a = Some (a mod nVertex).
Proof.
  intros Hn Ha Hfuel. unfold reduce_index.
  rewrite while_ge_spec by lia. simpl.
  pose proof (Z.mod_pos_bound a nVertex) as Hmod.
  case_decide.
  - apply while_neg_spec; lia.
  - rewrite while_neg_spec by lia. f_equal. apply Z.mod_mod. lia.
Qed.

(** C2: for every [int] vertex index [a] and every vertex count
    [nVertex >= 1], the two reduction loops terminate (any fuel above
    [|a|] suffices) and yield [a mod nVertex], the one value in
    [[0, nVertex)] that is congruent to [a] modulo [nVertex]; it is a valid
    subscript of every array of [nVertex] elements. *)
Theorem reduce_index_in_range {A} a nVertex (pState : list A) :
  1 <= nVertex < 2147483648 → -2147483648 <= a < 2147483648 →
  Z.of_nat (length pState) = nVertex →
  ∃ fuel0 r,
    (∀ fuel, (fuel0 <= fuel)%nat → reduce_index fuel nVertex a = Some r) ∧
    0 <= r < nVertex ∧ (r - a) mod nVertex = 0 ∧
    (∀ r', 0 <= r' < nVertex → (r' - a) mod nVertex = 0 → r' = r) ∧
    is_Some (rd pState r).
Proof.
  intros Hn Ha Hlen. exists (S (Z.to_nat (Z.abs a))), (a mod nVertex).
  pose proof (Z.mod_pos_bound a nVertex) as Hmod.
  split; [intros fuel Hfuel; apply reduce_index_mod; lia |].
  split; [lia |]. split; [| split].
  - rewrite Zminus_mod, Z.mod_mod, Z.sub_diag by lia. done.
  - intros r' Hr' Hcong.
    apply Z.mod_divide in Hcong as [q Hq]; [| lia].
    apply (Z.mod_unique a nVertex (- q)); [lia | lia].
  - apply rd_is_Some. lia.
Qed.

Lemma reduce_index_in_range_witness :
  ∃ fuel0 r,
    (∀ fuel, (fuel0 <= fuel)%nat → reduce_index fuel 16 (-21) = Some r) ∧
    0 <= r < 16 ∧ (r - -21) mod 16 = 0 ∧
    (∀ r', 0 <= r' < 16 → (r' - -21) mod 16 = 0 → r' = r) ∧
    is_Some (rd (replicate 16 true) r).
Proof.
  apply (reduce_index_in_range (-21) 16 (replicate 16 true)).
  - lia.
  - lia.
  - reflexivity.
Defined.

Example reduce_index_sample :
  reduce_index 3 16 (-21) = Some 11 ∧ reduce_index 3 16 37 = Some 5 ∧
  reduce_index 2 16 37 = None.
Proof. split_and!; reflexivity. Qed.

(** The three vertices of a triangle, as [CalcShockSensorSingle] reduces
    them. *)
Lemma triangle_vertices_mod fuel i nVertex pTv tv :
  rd pTv i = Some tv → 1 <= nVertex < 2147483648 →
  (∀ a, a ∈ [x3 tv; y3 tv; z3 tv] →
        -2147483648 <= a < 2147483648 ∧ Z.abs a < Z.of_nat fuel) →
  triangle_vertices fuel i nVertex pTv
  = Some (x3 tv mod nVertex, y3 tv mod nVertex, z3 tv mod nVertex).
Proof.
  intros Htv Hn Hall. unfold triangle_vertices. rewrite Htv. simpl.
  assert (∀ a, a ∈ [x3 tv; y3 tv; z3 tv] →
            ∃ a', while_ge fuel nVertex a = Some a' ∧
                  while_neg fuel nVertex a' = Some (a mod nVertex)) as Hred.
  { intros a Ha. destruct (Hall a Ha) as [Hr Hf].
    pose proof (reduce_index_mod nVertex a fuel Hn Hr Hf) as Hri.
    unfold reduce_index in Hri.
    destruct (while_ge fuel nVertex a) as [a' |]; [| done]. by exists a'. }
  destruct (Hred (x3 tv)) as (a' & -> & Ha); [by left |].
  destruct (Hred (y3 tv)) as (b' & -> & Hb); [by right; left |].
  destruct (Hred (z3 tv)) as (c' & -> & Hc); [by right; right; left |].
  simpl. by rewrite Ha, Hb, Hc.
Qed.

(** ** Removal cycles *)

Section Cycles.
Context {Mesh : Type}.
Variable FlagVertexRemove : Mesh -> Z.
Variable Remove : Mesh -> Mesh.

Lemma cycles_spec (fuel : nat) : ∀ mesh,
  let log := (Coarsen.cycles FlagVertexRemove Remove fuel mesh).1 in
  (length log <= fuel)%nat ∧
  (∀ i, log !! i = Some 0 → length log = S i) ∧
  ((length log < fuel)%nat → last log = Some 0) ∧
  (∀ i n, log !! i = Some n → n = FlagVertexRemove (Nat.iter i Remove mesh)).
Proof.
  induction fuel as [| fuel IH]; intros mesh; simpl.
  - split_and!; [lia | done | lia | done].
  - case_decide as Hn; simpl.
    + split_and!; [lia | | by rewrite Hn |].
      * intros [| i] Hi; [done | by destruct i].
      * intros [| i] n Hi; [| by destruct i]. simpl in Hi. by injection Hi.
    + specialize (IH (Remove mesh)).
      destruct (Coarsen.cycles FlagVertexRemove Remove fuel (Remove mesh))
        as [log mesh'] eqn:Hc.
      simpl in *. destruct IH as (Hlen & Hzero & Hlast & Hlog).
      split_and!; [lia | | |].
      * intros [| i] Hi; simpl in Hi; [congruence |].
        by rewrite (Hzero i Hi).
      * intros Hlt. rewrite last_cons. rewrite Hlast by lia. done.
      * intros [| i] n Hi; simpl in Hi; [by injection Hi as <- |].
        rewrite (Hlog i n Hi). simpl. f_equal. clear.
        induction i as [| i IHi]; [done |]. simpl. by rewrite IHi.
Qed.

(** C7: [RemoveVertices] performs at most [maxCycle] removal cycles;
    a cycle that finds no removal candidate is the last one, and when
    fewer than [maxCycle] cycles were performed the last one found
    none. *)
Theorem RemoveVertices_cycle_cap maxCycle mesh :
  0 <= maxCycle →
  let log :=
    (Coarsen.RemoveVertices FlagVertexRemove Remove maxCycle mesh).1 in
  Z.of_nat (length log) <= maxCycle ∧
  (∀ i, log !! i = Some 0 → length log = S i) ∧
  (Z.of_nat (length log) < maxCycle → last log = Some 0) ∧
  (∀ i n, log !! i = Some n → n = FlagVertexRemove (Nat.iter i Remove mesh)).
Proof.
  intros Hmax. unfold Coarsen.RemoveVertices.
  destruct (cycles_spec (Z.to_nat maxCycle) mesh) as (Hlen & Hz & Hl & Hlog).
  split_and!; [lia | done | | done].
  intros Hlt. apply Hl. lia.
Qed.
End Cycles.

(** A mesh of [n] removable vertices, one removed per cycle. *)
Lemma RemoveVertices_cycle_cap_witness :
  let log := (Coarsen.RemoveVertices (λ n : Z, n) Z.pred 5 2).1 in
  Z.of_nat (length log) <= 5 ∧
  (∀ i, log !! i = Some 0 → length log = S i) ∧
  (Z.of_nat (length log) < 5 → last log = Some 0) ∧
  (∀ i n, log !! i = Some n → n = Nat.iter i Z.pred 2).
Proof.
  apply (RemoveVertices_cycle_cap (λ n : Z, n) Z.pred 5 2). lia.
Defined.

Example RemoveVertices_sample :
  Coarsen.RemoveVertices (λ n : Z, n) Z.pred 5 2 = ([2; 1; 0], 0) ∧
  Coarsen.RemoveVertices (λ n : Z, n) Z.pred 2 7 = ([7; 6], 5) ∧
  Coarsen.RemoveVertices (λ n : Z, n) Z.pred 0 7 = ([], 7).
Proof. split_and!; reflexivity. Qed.

(** ** Reading the mesh parameters *)

(** The numeric parameters of the mesh and the characters their value may
    consist of. *)
Definition numeric_params : list (string * string) :=
  [ ("equivalentPointsX", "0123456789");
    ("minX", "0123456789-.e"); ("maxX", "0123456789-.e");
    ("minY", "0123456789-.e"); ("maxY", "0123456789-.e");
    ("periodicFlagX", "01"); ("periodicFlagY", "01");
    ("adaptiveMeshFlag", "01");
    ("maxRefineFactor", "0123456789"); ("nStepSkipRefine", "0123456789");
    ("nStepSkipCoarsen", "0123456789");
    ("minError", "0123456789.-e"); ("maxError", "0123456789.-e");
    ("qualityBound", "0123456789.-e");
    ("structuredFlag", "012") ]%string.

(** The first two words of a line. *)
Definition first_word (line : string) : string :=
  (MeshParameter.extract line).1.
Definition second_word (line : string) : string :=
  (MeshParameter.extract (MeshParameter.extract line).2).1.

(** Character [c] occurs in [s]. *)
Fixpoint occurs (c : ascii) (s : string) : Prop :=
  match s with
  | EmptyString => False
  | String d s' => c = d ∨ occurs c s'
  end.

(** A value token that is empty or has a character outside [set]. *)
Definition bad_token (token set : string) : Prop :=
  token = EmptyString ∨ ∃ c, occurs c token ∧ MeshParameter.mem c set = false.

Lemma find_first_not_of_occurs c s set :
  occurs c s → MeshParameter.mem c set = false →
  is_Some (MeshParameter.find_first_not_of s set).
Proof.
  induction s as [| d s IH]; simpl; [done |]. intros [-> | Hc] Hmem.
  - rewrite Hmem. by eexists.
  - destruct (MeshParameter.mem d set); [| by eexists].
    destruct (IH Hc Hmem) as [n ->]. by eexists.
Qed.

Lemma only_chars_bad token set :
  bad_token token set → MeshParameter.only_chars token set = false.
Proof.
  unfold MeshParameter.only_chars. intros [-> | (c & Hc & Hmem)]; [done |].
  destruct (find_first_not_of_occurs c token set Hc Hmem) as [n ->].
  apply andb_false_r.
Qed.

Section ReadFromFile.
Context {double real : Type}.
Variable atof : string -> double.
Variable to_int : double -> Z.
Variable to_real : double -> real.
Variable of_int : Z -> real.
Variables rsub rmul rdiv : real -> real -> real.
Variable r0565 : real.
Variable CheckValidity : @MeshParameter.MeshParameter real -> bool.

Let ReadLine := MeshParameter.ReadLine atof to_int to_real.
Let ReadFromFile :=
  MeshParameter.ReadFromFile atof to_int to_real of_int rsub rmul rdiv r0565
    CheckValidity.

Lemma assign_id fw sw name set
    (store : double -> MeshParameter.MeshParameter ->
             @MeshParameter.MeshParameter real) x mp :
  String.eqb fw name = false ∨ MeshParameter.only_chars sw set = false →
  x = mp → MeshParameter.assign atof fw sw name set store x = mp.
Proof.
  intros Hor ->. unfold MeshParameter.assign.
  destruct Hor as [-> | ->]; [done |]. by destruct (String.eqb fw name).
Qed.

Lemma ReadLine_bad_token name set line mp :
  In (name, set) numeric_params → first_word line = name →
  bad_token (second_word line) set → ReadLine line mp = mp.
Proof.
  unfold first_word, second_word, ReadLine, MeshParameter.ReadLine.
  intros Hin Hfw Hbad. apply only_chars_bad in Hbad.
  destruct (MeshParameter.extract line) as [fw iss]. simpl in Hfw, Hbad.
  destruct (MeshParameter.extract iss) as [sw rest]. simpl in Hbad.
  subst fw. unfold numeric_params in Hin.
  repeat (destruct Hin as [Hin | Hin];
          [injection Hin as <- <-;
           repeat (apply assign_id;
                   [first [left; reflexivity | right; exact Hbad] |]);
           reflexivity |]).
  destruct Hin.
Qed.

Lemma ReadLine_no_problem line mp :
  first_word line = "problemDefinition"%string →
  second_word line = EmptyString → ReadLine line mp = mp.
Proof.
  unfold first_word, second_word, ReadLine, MeshParameter.ReadLine.
  intros Hfw Hsw.
  destruct (MeshParameter.extract line) as [fw iss]. simpl in Hfw, Hsw.
  destruct (MeshParameter.extract iss) as [sw rest]. simpl in Hsw.
  subst.
  repeat (apply assign_id; [left; reflexivity |]).
  reflexivity.
Qed.

(** C10: a line that names a numeric parameter and whose value token is
    empty, or has a character outside the characters allowed for that
    parameter, leaves every parameter as it was (and so does a
    [problemDefinition] line without a value); [ReadFromFile] throws
    only when the file cannot be opened or when [CheckValidity] fails on
    the parameters read from the whole file, and returns otherwise. *)
Theorem ReadFromFile_errors :
  (∀ name set line mp,
     In (name, set) numeric_params → first_word line = name →
     bad_token (second_word line) set → ReadLine line mp = mp) ∧
  (∀ line mp,
     first_word line = "problemDefinition"%string →
     second_word line = EmptyString → ReadLine line mp = mp) ∧
  (∀ inFile mp e,
     ReadFromFile inFile mp = inl e →
     (inFile = None ∧ e = MeshParameter.OpenFailed) ∨
     (∃ lines, inFile = Some lines ∧ e = MeshParameter.NotValid ∧
        CheckValidity (fold_left (λ mp line, ReadLine line mp) lines mp)
        = false)) ∧
  (∀ lines mp,
     CheckValidity (fold_left (λ mp line, ReadLine line mp) lines mp) = true →
     ∃ mp', ReadFromFile (Some lines) mp = inr mp').
Proof.
  split_and!.
  - apply ReadLine_bad_token.
  - apply ReadLine_no_problem.
  - intros [lines |] mp e; unfold ReadFromFile, MeshParameter.ReadFromFile.
    + fold ReadLine.
      destruct (CheckValidity _) eqn:Hv; [done |]. intros [= <-].
      right. by exists lines.
    + intros [= <-]. by left.
  - intros lines mp Hv. unfold ReadFromFile, MeshParameter.ReadFromFile.
    fold ReadLine. rewrite Hv. by eexists.
Qed.
End ReadFromFile.

(** The parameters of run/scalar/advect/linear/astrix.in before reading,
    with numbers kept as the integer [atof] is taken to return. *)
Definition sample_mp : @MeshParameter.MeshParameter Z :=
  MeshParameter.mk MeshParameter.PROBLEM_UNDEFINED 0 0 0 0 0 0 0 0 0 0 0 0 0 0
    0 0 0.

(** A stand-in for [atof] on strings of digits. *)
Definition digits_value (s : string) : Z := Z.of_nat (String.length s).

Example ReadLine_sample :
  MeshParameter.maxRefineFactor
    (MeshParameter.ReadLine digits_value id id
       "maxRefineFactor   12   # Factor above base resolution" sample_mp) = 2
  ∧ MeshParameter.ReadLine digits_value id id
      "maxRefineFactor   1x2  # Factor above base resolution" sample_mp
    = sample_mp
  ∧ MeshParameter.problemDef
      (MeshParameter.ReadLine digits_value id id "problemDefinition LIN"
         sample_mp) = MeshParameter.PROBLEM_LINEAR
  ∧ MeshParameter.ReadFromFile digits_value id id id Z.sub Z.mul Z.div 1
      (λ _, false) (Some ["minX -0.5"%string]) sample_mp
    = inl MeshParameter.NotValid
  ∧ MeshParameter.ReadFromFile digits_value id id id Z.sub Z.mul Z.div 1
      (λ _, true) None sample_mp
    = inl MeshParameter.OpenFailed.
Proof. split_and!; vm_compute; reflexivity. Qed.

Lemma ReadFromFile_errors_witness :
  MeshParameter.ReadLine digits_value id id "minX  -0.5f" sample_mp = sample_mp
  ∧ MeshParameter.ReadLine digits_value id id "qualityBound" sample_mp
    = sample_mp
  ∧ ∃ mp', MeshParameter.ReadFromFile digits_value id id id Z.sub Z.mul Z.div
             1 (λ _, true) (Some ["minX  -0.5f"%string]) sample_mp = inr mp'.
Proof.
  destruct (ReadFromFile_errors digits_value id id id Z.sub Z.mul Z.div 1
              (λ _, true)) as (Hbad & _ & _ & Hret).
  split_and!.
  - apply (Hbad "minX"%string "0123456789-.e"%string).
    + unfold numeric_params. simpl. tauto.
    + reflexivity.
    + right. exists "f"%char. split; [| reflexivity]. simpl. tauto.
  - apply (Hbad "qualityBound"%string "0123456789.-e"%string).
    + unfold numeric_params. simpl. tauto.
    + reflexivity.
    + by left.
  - by apply Hret.
Defined.

(** ** Lines of the mesh parameter file *)

(** The keywords of a [problemDefinition] line. *)
Definition problem_keywords : list (string * MeshParameter.ProblemDefinition) :=
  [ ("LIN", MeshParameter.PROBLEM_LINEAR); ("CYL", MeshParameter.PROBLEM_CYL);
    ("KH", MeshParameter.PROBLEM_KH);
    ("RIEMANN", MeshParameter.PROBLEM_RIEMANN);
    ("SOD", MeshParameter.PROBLEM_SOD); ("BLAST", MeshParameter.PROBLEM_BLAST);
    ("VORTEX", MeshParameter.PROBLEM_VORTEX);
    ("NOH", MeshParameter.PROBLEM_NOH);
    ("SOURCE", MeshParameter.PROBLEM_SOURCE) ]%string.

(** The first words that [ReadFromFile] reacts to. *)
Definition known_words : list string :=
  "problemDefinition"%string :: numeric_params.*1.

Section ReadLine.
Context {double real : Type}.
Variable atof : string -> double.
Variable to_int : double -> Z.
Variable to_real : double -> real.

Variable of_int : Z -> real.
Variables rsub rmul rdiv : real -> real -> real.
Variable r0565 : real.
Variable CheckValidity : @MeshParameter.MeshParameter real -> bool.

Let ReadLine := MeshParameter.ReadLine atof to_int to_real.
Let ReadFromFile :=
  MeshParameter.ReadFromFile atof to_int to_real of_int rsub rmul rdiv r0565
    CheckValidity.
Let MP := @MeshParameter.MeshParameter real.

(** The numeric parameters with the field each one is stored in. *)
Definition numeric_fields : list (string * string * (double -> MP -> MP)) :=
  [ ("equivalentPointsX", "0123456789",
     λ d, MeshParameter.set_equivalentPointsX (to_int d));
    ("minX", "0123456789-.e",
     λ d, MeshParameter.set_minx (to_real d));
    ("maxX", "0123456789-.e",
     λ d, MeshParameter.set_maxx (to_real d));
    ("minY", "0123456789-.e",
     λ d, MeshParameter.set_miny (to_real d));
    ("maxY", "0123456789-.e",
     λ d, MeshParameter.set_maxy (to_real d));
    ("periodicFlagX", "01",
     λ d, MeshParameter.set_periodicFlagX (to_int d));
    ("periodicFlagY", "01",
     λ d, MeshParameter.set_periodicFlagY (to_int d));
    ("adaptiveMeshFlag", "01",
     λ d, MeshParameter.set_adaptiveMeshFlag (to_int d));
    ("maxRefineFactor", "0123456789",
     λ d, MeshParameter.set_maxRefineFactor (to_int d));
    ("nStepSkipRefine", "0123456789",
     λ d, MeshParameter.set_nStepSkipRefine (to_int d));
    ("nStepSkipCoarsen", "0123456789",
     λ d, MeshParameter.set_nStepSkipCoarsen (to_int d));
    ("minError", "0123456789.-e",
     λ d, MeshParameter.set_minError (to_real d));
    ("maxError", "0123456789.-e",
     λ d, MeshParameter.set_maxError (to_real d));
    ("qualityBound", "0123456789.-e",
     λ d, MeshParameter.set_qualityBound (to_real d));
    ("structuredFlag", "012",
     λ d, MeshParameter.set_structuredFlag (to_int d)) ]%string.

Lemma assign_skip fw sw name set (store : double -> MP -> MP) x y :
  String.eqb fw name = false → x = y →
  MeshParameter.assign atof fw sw name set store x = y.
Proof. intros Hne ->. unfold MeshParameter.assign. by rewrite Hne. Qed.

Lemma assign_hit fw sw name set (store : double -> MP -> MP) x y :
  String.eqb fw name = true → MeshParameter.only_chars sw set = true →
  store (atof sw) x = y →
  MeshParameter.assign atof fw sw name set store x = y.
Proof. intros Heq Hok <-. unfold MeshParameter.assign. by rewrite Heq, Hok. Qed.

Lemma assign_miss fw sw name set (store : double -> MP -> MP) x y :
  MeshParameter.only_chars sw set = false → x = y →
  MeshParameter.assign atof fw sw name set store x = y.
Proof.
  intros Hbad ->. unfold MeshParameter.assign. rewrite Hbad.
  by destruct (String.eqb fw name).
Qed.

(** A line whose first word is none of the known ones (an empty line, a
    comment, a parameter of the simulation) changes nothing. *)
Lemma ReadLine_unknown line mp :
  first_word line ∉ known_words → ReadLine line mp = mp.
Proof.
  unfold first_word, ReadLine, MeshParameter.ReadLine. intros Hfw.
  destruct (MeshParameter.extract line) as [fw iss]. simpl in Hfw.
  destruct (MeshParameter.extract iss) as [sw rest].
  assert (∀ name, name ∈ known_words → String.eqb fw name = false) as Hne.
  { intros name Hin. apply String.eqb_neq. by intros ->. }
  repeat (apply assign_skip;
          [apply Hne; unfold known_words, numeric_params; simpl;
           repeat first [by left | right] |]).
  rewrite Hne; [done |]. by left.
Qed.

(** A value token of the right characters stores [atof] of it in the
    field of the parameter and in no other. *)
Lemma ReadLine_numeric name set store line mp :
  In (name, set, store) numeric_fields →
  first_word line = name →
  MeshParameter.only_chars (second_word line) set = true →
  ReadLine line mp = store (atof (second_word line)) mp.
Proof.
  unfold first_word, second_word, ReadLine, MeshParameter.ReadLine.
  intros Hin Hfw Hok.
  destruct (MeshParameter.extract line) as [fw iss]. cbn [fst snd] in *.
  destruct (MeshParameter.extract iss) as [sw rest]. cbn [fst snd] in *.
  subst fw. unfold numeric_fields in Hin.
  repeat (destruct Hin as [Hin | Hin];
          [injection Hin as <- <- <-;
           repeat (apply assign_skip; [reflexivity |]);
           apply assign_hit; [reflexivity | exact Hok |];
           cbv beta; f_equal;
           repeat (apply assign_skip; [reflexivity |]);
           reflexivity |]).
  destruct Hin.
Qed.

Lemma ReadLine_miss name set store line mp :
  In (name, set, store) numeric_fields →
  first_word line = name →
  MeshParameter.only_chars (second_word line) set = false →
  ReadLine line mp = mp.
Proof.
  unfold first_word, second_word, ReadLine, MeshParameter.ReadLine.
  intros Hin Hfw Hbad.
  destruct (MeshParameter.extract line) as [fw iss]. cbn [fst snd] in *.
  destruct (MeshParameter.extract iss) as [sw rest]. cbn [fst snd] in *.
  subst fw. unfold numeric_fields in Hin.
  repeat (destruct Hin as [Hin | Hin];
          [injection Hin as <- <- <-;
           repeat first [ apply assign_skip; [reflexivity |]
                        | apply assign_miss; [exact Hbad |] ];
           reflexivity |]).
  destruct Hin.
Qed.

(** A [problemDefinition] line with one of the nine keywords sets the
    problem and nothing else. *)
Lemma ReadLine_problem kw p line mp :
  In (kw, p) problem_keywords →
  first_word line = "problemDefinition"%string → second_word line = kw →
  ReadLine line mp = MeshParameter.set_problemDef p mp.
Proof.
  unfold first_word, second_word, ReadLine, MeshParameter.ReadLine.
  intros Hin Hfw Hsw.
  destruct (MeshParameter.extract line) as [fw iss]. cbn [fst snd] in *.
  destruct (MeshParameter.extract iss) as [sw rest]. cbn [fst snd] in *.
  subst fw sw. unfold problem_keywords in Hin.
  repeat (destruct Hin as [Hin | Hin];
          [injection Hin as <- <-;
           repeat (apply assign_skip; [reflexivity |]); reflexivity |]).
  destruct Hin.
Qed.

(** With any other second word it changes nothing. *)
Lemma ReadLine_problem_other line mp :
  first_word line = "problemDefinition"%string →
  (∀ p, ¬ In (second_word line, p) problem_keywords) →
  ReadLine line mp = mp.
Proof.
  unfold first_word, second_word, ReadLine, MeshParameter.ReadLine.
  intros Hfw Hsw.
  destruct (MeshParameter.extract line) as [fw iss]. cbn [fst snd] in *.
  destruct (MeshParameter.extract iss) as [sw rest]. cbn [fst snd] in *.
  subst fw.
  repeat (apply assign_skip; [reflexivity |]).
  assert (∀ kw p, In (kw, p) problem_keywords → String.eqb sw kw = false)
    as Hne.
  { intros kw p Hin. apply String.eqb_neq. intros ->. by apply (Hsw p). }
  repeat match goal with
         | |- context [String.eqb sw ?k] =>
             erewrite (Hne k) by (unfold problem_keywords; simpl; eauto 10)
         end.
  reflexivity.
Qed.

Lemma numeric_fields_names : numeric_fields.*1 = numeric_params.
Proof. reflexivity. Qed.

(** What a line can do: nothing, set the problem, or store the value of
    one numeric parameter. *)
Lemma ReadLine_cases line :
  (∀ mp, ReadLine line mp = mp) ∨
  (first_word line = "problemDefinition"%string ∧
   ∃ p, ∀ mp, ReadLine line mp = MeshParameter.set_problemDef p mp) ∨
  (∃ name set store,
     In (name, set, store) numeric_fields ∧ first_word line = name ∧
     ∀ mp, ReadLine line mp = store (atof (second_word line)) mp).
Proof.
  destruct (String.string_dec (first_word line) "problemDefinition")
    as [Hpd | Hpd].
  - destruct (in_dec String.string_dec (second_word line)
                (problem_keywords.*1)) as [Hkw | Hkw].
    + apply in_map_iff in Hkw as ([kw p] & Heq & Hin). simpl in Heq.
      right; left. split; [done |]. exists p. intros mp.
      by apply (ReadLine_problem kw p).
    + left. intros mp. apply ReadLine_problem_other; [done |].
      intros p Hin. apply Hkw. apply in_map_iff. by exists (second_word line, p).
  - destruct (in_dec String.string_dec (first_word line)
                (numeric_params.*1)) as [Hnp | Hnp].
    + rewrite <- numeric_fields_names in Hnp.
      apply in_map_iff in Hnp as ([name set] & Heq & Hin). simpl in Heq.
      apply in_map_iff in Hin as ([[name' set'] store] & Heq' & Hin).
      simpl in Heq'. injection Heq' as -> ->.
      destruct (MeshParameter.only_chars (second_word line) set) eqn:Hok.
      * right; right. exists name, set, store. split_and!; [done | done |].
        intros mp. by apply (ReadLine_numeric name set).
      * left. intros mp. by apply (ReadLine_miss name set store).
    + left. intros mp. apply ReadLine_unknown. unfold known_words.
      rewrite elem_of_cons. intros [Heq | Hin]; [done |].
      apply Hnp. by apply list_elem_of_In.
Qed.

Ltac numeric_cases H :=
  unfold numeric_fields in H;
  repeat (destruct H as [H | H]; [injection H as <- <- <- |]);
  [.. | destruct H].

(** Lines of different parameters can be read in either order. *)
Lemma ReadLine_comm l1 l2 mp :
  first_word l1 ≠ first_word l2 →
  ReadLine l1 (ReadLine l2 mp) = ReadLine l2 (ReadLine l1 mp).
Proof.
  intros Hne.
  destruct (ReadLine_cases l1)
    as [H1 | [[Hw1 [p1 H1]] | (n1 & s1 & f1 & Hin1 & Hw1 & H1)]];
    [by rewrite !H1 | ..];
    (destruct (ReadLine_cases l2)
       as [H2 | [[Hw2 [p2 H2]] | (n2 & s2 & f2 & Hin2 & Hw2 & H2)]];
     [by rewrite !H2 | ..]); rewrite ?H1, ?H2.
  - congruence.
  - clear H1 H2. generalize (atof (second_word l2)). intros d2.
    numeric_cases Hin2; reflexivity.
  - clear H1 H2. generalize (atof (second_word l1)). intros d1.
    numeric_cases Hin1; reflexivity.
  - clear H1 H2. rewrite Hw1, Hw2 in Hne. clear Hw1 Hw2.
    generalize (atof (second_word l1)) (atof (second_word l2)).
    intros d1 d2.
    numeric_cases Hin1; numeric_cases Hin2;
      first [reflexivity | by destruct Hne].
Qed.

(** X1: When two lines start with the same word, the later one either
    changes nothing or decides alone: reading both is then reading the
    later one. *)
Theorem ReadLine_later_wins l1 l2 :
  first_word l1 = first_word l2 →
  (∀ mp, ReadLine l2 mp = mp) ∨
  (∀ mp, ReadLine l2 (ReadLine l1 mp) = ReadLine l2 mp).
Proof.
  intros Heq.
  destruct (ReadLine_cases l2)
    as [H2 | [[Hw2 [p2 H2]] | (n2 & s2 & f2 & Hin2 & Hw2 & H2)]];
    [by left | right; intros mp ..];
    (destruct (ReadLine_cases l1)
       as [H1 | [[Hw1 [p1 H1]] | (n1 & s1 & f1 & Hin1 & Hw1 & H1)]];
     [by rewrite !H1 | ..]); rewrite ?H1, ?H2.
  - reflexivity.
  - exfalso. rewrite Heq, Hw2 in Hw1. clear -Hin1 Hw1.
    numeric_cases Hin1; discriminate Hw1.
  - exfalso. rewrite <- Heq, Hw1 in Hw2. clear -Hin2 Hw2.
    numeric_cases Hin2; discriminate Hw2.
  - clear H1 H2. rewrite <- Heq, Hw1 in Hw2. clear Heq Hw1.
    generalize (atof (second_word l1)) (atof (second_word l2)).
    intros d1 d2.
    numeric_cases Hin1; numeric_cases Hin2;
      first [reflexivity | discriminate Hw2].
Qed.

(** The lines of a file, read in order. *)
Definition read_lines (lines : list string) (mp : MP) : MP :=
  fold_left (λ mp line, ReadLine line mp) lines mp.

Lemma ReadFromFile_read_lines lines lines' mp :
  read_lines lines mp = read_lines lines' mp →
  ReadFromFile (Some lines) mp = ReadFromFile (Some lines') mp.
Proof.
  unfold ReadFromFile, MeshParameter.ReadFromFile, read_lines, ReadLine.
  by intros ->.
Qed.

Lemma read_lines_app l1 l2 mp :
  read_lines (l1 ++ l2) mp = read_lines l2 (read_lines l1 mp).
Proof. apply fold_left_app. Qed.

(** X2: What [ReadFromFile] returns does not change when a line whose first
    word is neither [problemDefinition] nor the name of a numeric
    parameter is put into the file, wherever it is put. *)
Theorem ReadFromFile_skips_unknown before line after mp :
  first_word line ≠ "problemDefinition"%string →
  (∀ set, ¬ In (first_word line, set) numeric_params) →
  ReadFromFile (Some (before ++ line :: after)) mp
  = ReadFromFile (Some (before ++ after)) mp.
Proof.
  intros Hpd Hnum. apply ReadFromFile_read_lines.
  rewrite !read_lines_app. simpl. unfold read_lines at 2. simpl.
  rewrite ReadLine_unknown; [done |].
  unfold known_words. rewrite elem_of_cons. intros [Heq | Hin]; [done |].
  apply list_elem_of_fmap in Hin as ([name set] & Heq & Hin). simpl in Heq.
  apply (Hnum set). apply list_elem_of_In. by subst.
Qed.

(** A token that is not empty and has characters of [set] only. *)
Definition good_token (token set : string) : Prop :=
  token ≠ EmptyString ∧ ∀ c, occurs c token → MeshParameter.mem c set = true.

Lemma only_chars_good token set :
  good_token token set → MeshParameter.only_chars token set = true.
Proof.
  intros [Hne Hall]. unfold MeshParameter.only_chars.
  assert (MeshParameter.find_first_not_of token set = None) as ->.
  { clear Hne. induction token as [| c s IH]; [done |]. simpl.
    rewrite (Hall c) by (by left). rewrite IH; [done |].
    intros d Hd. apply Hall. by right. }
  by destruct token.
Qed.

(** X3: A line that names a numeric parameter and whose value token is not
    empty and has allowed characters only stores [atof] of the token in
    the field of that parameter, converted to the type of the field, and
    leaves the other fields as they were. *)
Theorem ReadLine_stores_value name set store line mp :
  In (name, set, store) numeric_fields →
  first_word line = name → good_token (second_word line) set →
  ReadLine line mp = store (atof (second_word line)) mp.
Proof.
  intros Hin Hfw Hgood. apply (ReadLine_numeric name set); [done | done |].
  by apply only_chars_good.
Qed.

(** X4: A [problemDefinition] line whose second word is one of the nine
    keywords sets the problem to the one the keyword stands for and
    nothing else; with any other second word the line changes nothing. *)
Theorem ReadLine_problem_keyword line mp :
  first_word line = "problemDefinition"%string →
  (∀ p, In (second_word line, p) problem_keywords →
        ReadLine line mp = MeshParameter.set_problemDef p mp) ∧
  ((∀ p, ¬ In (second_word line, p) problem_keywords) →
   ReadLine line mp = mp).
Proof.
  intros Hfw. split.
  - intros p Hin. by apply (ReadLine_problem (second_word line) p).
  - by apply ReadLine_problem_other.
Qed.

Lemma read_lines_perm lines lines' :
  lines ≡ₚ lines' → NoDup (first_word <$> lines) →
  ∀ mp, read_lines lines mp = read_lines lines' mp.
Proof.
  induction 1 as [| l ls ls' Hp IH | l1 l2 ls | ls1 ls2 ls3 Hp1 IH1 Hp2 IH2];
    intros Hnd mp.
  - done.
  - simpl in Hnd. apply NoDup_cons in Hnd as [_ Hnd].
    unfold read_lines. simpl. by apply IH.
  - simpl in Hnd. apply NoDup_cons in Hnd as [Hne _].
    unfold read_lines. simpl. f_equal. apply ReadLine_comm.
    intros Heq. apply Hne. rewrite Heq. by left.
  - rewrite IH1 by done. apply IH2. by rewrite <- Hp1.
Qed.

(** X5: The parameters may appear in any order: rearranging the lines of a
    file in which no two lines have the same first word does not change
    what [ReadFromFile] returns. *)
Theorem ReadFromFile_any_order lines lines' mp :
  lines ≡ₚ lines' → NoDup (first_word <$> lines) →
  ReadFromFile (Some lines) mp = ReadFromFile (Some lines') mp.
Proof.
  intros Hp Hnd. apply ReadFromFile_read_lines. by apply read_lines_perm.
Qed.

End ReadLine.

Lemma ReadFromFile_skips_unknown_witness :
  MeshParameter.ReadFromFile digits_value id id id Z.sub Z.mul Z.div 1
    (λ _, true) (Some (["minX 1"%string] ++ "CFLnumber 1.0"%string :: ["maxX 22"%string]))
    sample_mp
  = MeshParameter.ReadFromFile digits_value id id id Z.sub Z.mul Z.div 1
      (λ _, true) (Some (["minX 1"%string] ++ ["maxX 22"%string])) sample_mp.
Proof.
  apply (ReadFromFile_skips_unknown digits_value id id id Z.sub Z.mul Z.div 1
           (λ _, true)).
  - vm_compute. discriminate.
  - intros set Hin. vm_compute in Hin.
    repeat (destruct Hin as [Hin | Hin]; [discriminate Hin |]). destruct Hin.
Defined.

Lemma ReadLine_stores_value_witness :
  MeshParameter.ReadLine digits_value id id "minX  -0.5e1  # left" sample_mp
  = MeshParameter.set_minx 6 sample_mp.
Proof.
  apply (ReadLine_stores_value digits_value id id "minX" "0123456789-.e"
           (λ d, MeshParameter.set_minx (id d))).
  - unfold numeric_fields. simpl. tauto.
  - reflexivity.
  - split; [vm_compute; discriminate |].
    intros c Hc. vm_compute in Hc.
    repeat (destruct Hc as [-> | Hc]; [reflexivity |]). destruct Hc.
Defined.

Lemma ReadLine_problem_keyword_witness :
  (∀ p, In (second_word "problemDefinition LIN", p) problem_keywords →
        MeshParameter.ReadLine digits_value id id "problemDefinition LIN"
          sample_mp
        = MeshParameter.set_problemDef p sample_mp) ∧
  ((∀ p, ¬ In (second_word "problemDefinition LIN", p) problem_keywords) →
   MeshParameter.ReadLine digits_value id id "problemDefinition LIN" sample_mp
   = sample_mp).
Proof.
  apply (ReadLine_problem_keyword digits_value id id). reflexivity.
Defined.

Lemma ReadFromFile_any_order_witness :
  MeshParameter.ReadFromFile digits_value id id id Z.sub Z.mul Z.div 1
    (λ _, true) (Some ["minX 1"; "maxX 22"]%string) sample_mp
  = MeshParameter.ReadFromFile digits_value id id id Z.sub Z.mul Z.div 1
      (λ _, true) (Some ["maxX 22"; "minX 1"]%string) sample_mp.
Proof.
  apply (ReadFromFile_any_order digits_value id id id Z.sub Z.mul Z.div 1
           (λ _, true)).
  - apply Permutation_swap.
  - vm_compute. apply NoDup_cons. split; [| apply NoDup_singleton].
    intros Hin. apply list_elem_of_singleton in Hin. discriminate Hin.
Defined.

Lemma ReadLine_later_wins_witness :
  (∀ mp, MeshParameter.ReadLine digits_value id id "minX 22" mp = mp) ∨
  (∀ mp : @MeshParameter.MeshParameter Z,
     MeshParameter.ReadLine digits_value id id "minX 22"
       (MeshParameter.ReadLine digits_value id id "minX 1" mp)
     = MeshParameter.ReadLine digits_value id id "minX 22" mp).
Proof.
  apply (ReadLine_later_wins digits_value id id "minX 1" "minX 22").
  reflexivity.
Defined.

Section Words.
Local Open Scope string_scope.

(** Only white space, and no white space at all. *)
Definition blank (s : string) : Prop :=
  ∀ c, occurs c s → MeshParameter.isspace c = true.
Definition solid (s : string) : Prop :=
  s ≠ EmptyString ∧ ∀ c, occurs c s → MeshParameter.isspace c = false.

(** What may follow a word: the end of the line or white space. *)
Definition word_end (s : string) : Prop :=
  match s with
  | EmptyString => True
  | String c _ => MeshParameter.isspace c = true
  end.

Lemma skipws_blank ws s :
  blank ws → MeshParameter.skipws (ws ++ s) = MeshParameter.skipws s.
Proof.
  induction ws as [| c ws IH]; intros Hb; [done |]. simpl.
  rewrite (Hb c) by (by left). apply IH. intros d Hd. apply Hb. by right.
Qed.

Lemma word_solid w rest :
  (∀ c, occurs c w → MeshParameter.isspace c = false) → word_end rest →
  MeshParameter.word (w ++ rest) = (w, rest).
Proof.
  induction w as [| c w IH]; intros Hs He; simpl.
  - destruct rest as [| c r]; [done |]. simpl in *. by rewrite He.
  - rewrite (Hs c) by (by left). rewrite IH; [done | | done].
    intros d Hd. apply Hs. by right.
Qed.

Lemma extract_word ws w rest :
  blank ws → solid w → word_end rest →
  MeshParameter.extract (ws ++ w ++ rest) = (w, rest).
Proof.
  intros Hb [Hne Hs] He. unfold MeshParameter.extract.
  rewrite skipws_blank by done.
  destruct w as [| c w]; [done |].
  assert (MeshParameter.skipws (String c w ++ rest) = (String c w ++ rest)%string)
    as ->.
  { simpl. by rewrite (Hs c) by (by left). }
  by apply word_solid.
Qed.

(** X6: The first two words of a line do not depend on the white space
    before and between them, nor on what follows the second word. *)
Lemma words_of_line ws0 name ws1 value rest :
  blank ws0 → solid name → blank ws1 → ws1 ≠ EmptyString → solid value →
  word_end rest →
  first_word (ws0 ++ name ++ ws1 ++ value ++ rest) = name ∧
  second_word (ws0 ++ name ++ ws1 ++ value ++ rest) = value.
Proof.
  intros Hb0 Hn Hb1 Hne1 Hv He. unfold first_word, second_word.
  rewrite (extract_word ws0 name (ws1 ++ value ++ rest)); [| done | done |].
  - simpl. by rewrite (extract_word ws1 value rest).
  - destruct ws1 as [| c ws1]; [done |]. simpl. apply Hb1. by left.
Qed.

(** A line that holds a name only has an empty second word. *)
Lemma words_of_name ws0 name ws1 :
  blank ws0 → solid name → blank ws1 →
  first_word (ws0 ++ name ++ ws1) = name ∧
  second_word (ws0 ++ name ++ ws1) = EmptyString.
Proof.
  intros Hb0 Hn Hb1. unfold first_word, second_word.
  rewrite (extract_word ws0 name ws1); [| done | done |].
  - simpl. split; [done |]. unfold MeshParameter.extract.
    replace ws1 with (ws1 ++ "")%string at 1.
    + by rewrite skipws_blank.
    + clear. induction ws1 as [| c s IH]; [done |]. simpl. by rewrite IH.
  - destruct ws1 as [| c ws1]; [done |]. simpl. apply Hb1. by left.
Qed.

Lemma words_of_line_witness :
  first_word "  minX		-0.5  # Left x boundary" = "minX"%string ∧
  second_word "  minX		-0.5  # Left x boundary" = "-0.5"%string.
Proof.
  apply (words_of_line "  " "minX" "		" "-0.5" "  # Left x boundary").
  - intros c [-> | [-> | []]]; reflexivity.
  - split; [done |]. intros c Hc. simpl in Hc.
    repeat (destruct Hc as [-> | Hc]; [reflexivity |]). destruct Hc.
  - intros c [-> | [-> | []]]; reflexivity.
  - done.
  - split; [done |]. intros c Hc. simpl in Hc.
    repeat (destruct Hc as [-> | Hc]; [reflexivity |]). destruct Hc.
  - reflexivity.
Defined.
End Words.

(** ** Kernels that agree where a launch goes *)

Lemma exec_list_ext_in {I S} (f g : I -> S -> option S) l s :
  (∀ i s, i ∈ l → f i s = g i s) → exec_list f l s = exec_list g l s.
Proof.
  revert s. induction l as [| i l IH]; intros s Hfg; simpl; [done |].
  rewrite Hfg by (by left). destruct (g i s); simpl; [| done].
  apply IH. intros j s' Hj. apply Hfg. by right.
Qed.

(** Two kernels that take the same steps from every control state a
    thread can reach run alike. *)
Section Agree.
Context {Ctl Item Reg Mem : Type}.
Variables K K' : kernel Ctl Item Reg Mem.
Variable I : Ctl -> Prop.
Variable P : Item -> Prop.

Hypothesis next_eq : ∀ c, I c → k_next K' c = k_next K c.
Hypothesis next_inv : ∀ c it c',
  I c → k_next K c = Some (it, c') → I c' ∧ P it.
Hypothesis load_eq : ∀ it m, P it → k_load K' it m = k_load K it m.
Hypothesis store_eq : ∀ it r m, P it → k_store K' it r m = k_store K it r m.

Definition thread_ok (th : thread Ctl Item Reg) : Prop :=
  I (ctl th) ∧ ∀ it r, reg th = Some (it, r) → P it.

Lemma thread_step_agree th m :
  thread_ok th →
  thread_step K' th m = thread_step K th m ∧
  ∀ th' m', thread_step K th m = Some (th', m') → thread_ok th'.
Proof.
  intros [Hc Hr]. unfold thread_step.
  destruct (reg th) as [[it r] |] eqn:Hreg.
  - rewrite store_eq by (by eapply Hr). split; [done |].
    intros th' m' Hs. destruct (k_store K it r m); simplify_eq/=.
    split; [done | by intros].
  - rewrite next_eq by done.
    destruct (k_next K (ctl th)) as [[it c'] |] eqn:Hn.
    + destruct (next_inv _ _ _ Hc Hn) as [Hc' Hit].
      rewrite load_eq by done. split; [done |].
      intros th' m' Hs. destruct (k_load K it m); simplify_eq/=.
      split; [done |]. by intros ? ? [= <- _].
    + split; [done |]. intros th' m' [= <- <-]. split; [done |].
      intros it r. by rewrite Hreg.
Qed.

Lemma run_agree sched : ∀ pool m,
  Forall thread_ok pool →
  run K' sched pool m = run K sched pool m ∧
  ∀ pool' m', run K sched pool m = Some (pool', m') → Forall thread_ok pool'.
Proof.
  induction sched as [| k sched IH]; intros pool m Hok; simpl.
  - split; [done |]. by intros ? ? [= <- <-].
  - destruct (pool !! k) as [th |] eqn:Hk; [| by apply IH].
    assert (thread_ok th) as Hth.
    { by eapply (proj1 (Forall_lookup _ _)). }
    destruct (thread_step_agree th m Hth) as [-> Hstep].
    destruct (thread_step K th m) as [[th' m1] |]; simpl; [| done].
    apply IH. apply Forall_insert; [done |]. by eapply Hstep.
Qed.

Lemma returned_agree th : thread_ok th → returned K' th = returned K th.
Proof. intros [Hc _]. unfold returned. by rewrite next_eq. Qed.

Lemma launch_agree inits sched m :
  Forall I inits → launch K' inits sched m = launch K inits sched m.
Proof.
  intros Hin. unfold launch.
  destruct (run_agree sched ((λ c, Thread c None) <$> inits) m) as [-> Hok].
  { apply Forall_fmap, (Forall_impl _ _ _ Hin). intros c Hc.
    split; [done | by intros]. }
  destruct (run K sched _ m) as [[pool m'] |]; simpl; [| done].
  assert (forallb (returned K') pool = forallb (returned K) pool) as ->;
    [| done].
  specialize (Hok pool m' eq_refl).
  induction Hok as [| th pool Hth _ IHp]; simpl; [done |].
  by rewrite (returned_agree th Hth), IHp.
Qed.
End Agree.

Lemma thread_inits_seqZ g :
  geometry g → s32 <$> thread_ids g = seqZ 0 (grid_stride g).
Proof.
  intros Hg. pose proof (grid_stride_pos g Hg) as HT.
  rewrite thread_ids_seqZ by done.
  transitivity (id <$> seqZ 0 (grid_stride g)); [| apply list_fmap_id].
  apply Forall_fmap_ext, Forall_seqZ. intros t Ht. unfold id.
  apply s32_id. lia.
Qed.

Lemma wr_wr {A} (p p' : list A) i a b :
  wr p i a = Some p' → wr p' i b = wr p i b.
Proof.
  rewrite wr_Some. intros [Hi ->]. unfold wr.
  rewrite length_insert, list_insert_insert_eq. done.
Qed.

Lemma wr_None {A} (p : list A) i a b : wr p i a = None → wr p i b = None.
Proof. unfold wr. by case_decide. Qed.

(** ** Passes that compute one cell per index

    A grid-stride kernel and the host loop over the indices below [N],
    where the work at index [i] is to write [value i] to cell [i] of the
    output array; [value] reads other arrays only. *)

Section MapPass.
Context {V : Type}.
Variable K : kernel Z Z V (list V).
Variable value : Z -> option V.
Variables (g : dim) (N : Z).

Hypothesis Hnext : ∀ i, 0 <= i < 2147483648 →
  k_next K i = stride_next N (grid_stride g) i.
Hypothesis Hload : ∀ i m, 0 <= i → k_load K i m = value i.
Hypothesis Hstore : ∀ i r m, k_store K i r m = wr m i r.

(** The same kernel with its steps spelled out for every index. *)
Definition map_kernel : kernel Z Z V (list V) :=
  Kernel (stride_next N (grid_stride g))
         (λ i _, if decide (0 <= i) then value i else None)
         (λ i r m, wr m i r).

Definition map_upd (i : Z) (x : option V) : option V := value i.

Lemma map_kernel_load i m :
  k_load map_kernel i m = c ← edge_cell i; map_upd i (m !! c).
Proof. simpl. unfold edge_cell, map_upd. by case_decide. Qed.

Lemma map_kernel_store i c (x : option V) r m :
  edge_cell i = Some c → map_upd i x = Some r →
  k_store map_kernel i r m =
    if decide (c < length m)%nat then Some (<[c := id r]> m) else None.
Proof. intros Hc _. simpl. by apply wr_edge_cell. Qed.

Lemma map_exec i m : 0 <= i → exec K i m = exec map_kernel i m.
Proof.
  intros Hi. unfold exec. simpl. rewrite Hload, decide_True by done.
  destruct (value i); simpl; [apply Hstore | done].
Qed.

Lemma map_host m0 :
  for_lt 0 N (exec K) m0 = for_lt 0 N (exec map_kernel) m0.
Proof.
  rewrite !for_lt_exec_list. apply exec_list_ext_in.
  intros i m Hi. apply elem_of_seqZ in Hi. apply map_exec. lia.
Qed.

Lemma map_nodup : NoDup (omap edge_cell ([] ++ seqZ 0 N)).
Proof.
  apply NoDup_omap_strong; [| apply NoDup_seqZ].
  intros i j c _ _. apply edge_cell_inj.
Qed.

(** What the host loop leaves in the output array. *)
Lemma map_host_post m0 m :
  for_lt 0 N (exec K) m0 = Some m →
  length m = length m0 ∧
  (∀ i, 0 <= i < N → ∃ v, value i = Some v ∧ rd m i = Some v) ∧
  (∀ i, ¬ (0 <= i < N) → rd m i = rd m0 i).
Proof.
  rewrite map_host, for_lt_exec_list, Z.sub_0_r. intros Hex.
  destruct (exec_list_post map_kernel edge_cell map_upd id map_kernel_load
              map_kernel_store m0 (seqZ 0 N) [] m0 m)
    as [(Hlen & Hd & Hf) _]; [apply post_nil | apply map_nodup | exact Hex |].
  simpl in Hd. split_and!; [done | |].
  - intros i Hi.
    destruct (Hd i) as (c & r & Hc & Hu & Hr); [apply elem_of_seqZ; lia |].
    exists r. split; [done |]. by rewrite rd_edge_cell, Hc.
  - intros i Hi. rewrite !rd_edge_cell.
    destruct (edge_cell i) as [c |] eqn:Hc; simpl; [| done].
    apply Hf. intros j Hj Hcj. apply elem_of_seqZ in Hj.
    rewrite (edge_cell_inj _ _ _ Hc Hcj) in Hi. lia.
Qed.

(** The host loop returns exactly when every index below [N] is inside
    the output array and has a value. *)
Lemma map_host_defined m0 :
  is_Some (for_lt 0 N (exec K) m0) ↔
  ∀ i, 0 <= i < N → i < Z.of_nat (length m0) ∧ is_Some (value i).
Proof.
  rewrite map_host, for_lt_exec_list, Z.sub_0_r. split.
  - intros [m Hex] i Hi.
    destruct (exec_list_post map_kernel edge_cell map_upd id map_kernel_load
                map_kernel_store m0 (seqZ 0 N) [] m0 m)
      as [_ Hr]; [apply post_nil | apply map_nodup | exact Hex |].
    destruct (proj1 (Forall_forall _ _) Hr i) as (c & r & Hc & Hlt & Hu).
    { apply elem_of_seqZ. lia. }
    apply edge_cell_Some in Hc as [_ ->]. unfold map_upd in Hu.
    split; [lia | by eexists].
  - intros Hall.
    apply (exec_list_ready map_kernel edge_cell map_upd id map_kernel_load
             map_kernel_store m0 (seqZ 0 N) [] m0);
      [apply post_nil | apply map_nodup |].
    apply Forall_seqZ. intros i Hi. destruct (Hall i) as [Hlt [v Hv]]; [lia |].
    exists (Z.to_nat i), v. split_and!; [| lia | done].
    apply edge_cell_Some. split; [lia | done].
Qed.

Hypothesis Hg : geometry g.
Hypothesis HN : N + grid_stride g <= 2147483648.

Lemma map_launch sched m0 :
  launch K (seqZ 0 (grid_stride g)) sched m0
  = launch map_kernel (s32 <$> thread_ids g) sched m0.
Proof.
  pose proof (grid_stride_pos g Hg) as HT.
  rewrite thread_inits_seqZ by done.
  apply (launch_agree map_kernel K (λ i, 0 <= i < 2147483648) (λ i, 0 <= i)).
  - intros c Hc. by rewrite Hnext.
  - intros c it c' Hc. simpl. unfold stride_next. case_decide; [| done].
    intros [= <- <-]. rewrite s32_id by lia. lia.
  - intros it m Hit. simpl. by rewrite Hload, decide_True.
  - intros it r m _. apply Hstore.
  - apply Forall_seqZ. lia.
Qed.

(** A launch that completes computes what the host loop computes; when
    the host loop returns, some launch completes. *)
Lemma map_paths m0 :
  (∀ sched m, launch K (seqZ 0 (grid_stride g)) sched m0 = Some m →
              for_lt 0 N (exec K) m0 = Some m) ∧
  (∀ m, for_lt 0 N (exec K) m0 = Some m →
        ∃ sched, launch K (seqZ 0 (grid_stride g)) sched m0 = Some m).
Proof.
  split.
  - intros sched m. rewrite map_launch, map_host.
    apply (stride_launch_host map_kernel edge_cell map_upd id g N
             map_kernel_load map_kernel_store (λ _, eq_refl)
             (λ i j c _ _, edge_cell_inj i j c) Hg HN).
  - intros m. rewrite map_host. intros Hhost.
    destruct (stride_host_launch map_kernel edge_cell map_upd id g N
                map_kernel_load map_kernel_store (λ _, eq_refl)
                (λ i j c _ _, edge_cell_inj i j c) Hg HN m0 m Hhost)
      as [[sched Hl] _].
    exists sched. by rewrite map_launch.
Qed.
End MapPass.
(** ** The external potential (potential.cu) *)

Section Potential.
Context {real : Type} `{!Simulation.RealOps real}.
Variables (p : Simulation.ProblemDefinition)
          (pVc : list (Simulation.real2 real)).

(** A kernel step pair is one call of [CalcPotentialSingle]. *)
Lemma devCalcPotential_exec g nVertex i vertPot :
  exec (Simulation.devCalcPotential g nVertex p pVc) i vertPot
  = Simulation.CalcPotentialSingle i p pVc vertPot.
Proof.
  unfold exec, Simulation.CalcPotentialSingle. simpl.
  unfold Simulation.CalcPotentialSingle_read. case_decide as Hp; simpl.
  - destruct (wr vertPot i (Simulation.lit "0.0")) as [m' |] eqn:Hw; simpl.
    + destruct (rd pVc i) as [c |]; simpl; [| done].
      symmetry. by eapply wr_wr.
    + destruct (rd pVc i) as [c |]; simpl; [| done]. by eapply wr_None.
  - by destruct (wr vertPot i (Simulation.lit "0.0")).
Qed.

Lemma CalcPotential_host_loop g nVertex vertPot :
  for_lt 0 nVertex (λ i vertPot, Simulation.CalcPotentialSingle i p pVc vertPot)
    vertPot
  = for_lt 0 nVertex (exec (Simulation.devCalcPotential g nVertex p pVc))
      vertPot.
Proof.
  rewrite !for_lt_exec_list. apply exec_list_ext. intros i m.
  symmetry. apply devCalcPotential_exec.
Qed.

Lemma devCalcPotential_next g nVertex i :
  k_next (Simulation.devCalcPotential g nVertex p pVc) i
  = stride_next nVertex (grid_stride g) i.
Proof. simpl. unfold grid_stride. by rewrite Z.mul_comm. Qed.

(** Either path computes what the host loop computes, and whatever the
    host loop returns some launch returns. *)
Lemma CalcPotential_host g sched cudaFlag nVertex vertPot r :
  (cudaFlag = 1 → launch_ok g nVertex) →
  Simulation.CalcPotential g sched cudaFlag nVertex p pVc vertPot = Some r →
  for_lt 0 nVertex (exec (Simulation.devCalcPotential g nVertex p pVc))
    vertPot = Some r.
Proof.
  unfold Simulation.CalcPotential. intros Hok. case_decide as Hflag.
  - destruct (Hok Hflag) as [Hg HN]. rewrite thread_inits_seqZ by done.
    apply (map_paths (Simulation.devCalcPotential g nVertex p pVc) (λ i, Simulation.CalcPotentialSingle_read i p pVc)
             g nVertex (λ i _, devCalcPotential_next g nVertex i)
             (λ i m _, eq_refl) (λ i r m, eq_refl) Hg HN).
  - by rewrite (CalcPotential_host_loop g).
Qed.

Lemma CalcPotential_exists g cudaFlag nVertex vertPot r :
  (cudaFlag = 1 → launch_ok g nVertex) →
  for_lt 0 nVertex (exec (Simulation.devCalcPotential g nVertex p pVc))
    vertPot = Some r →
  ∃ sched,
    Simulation.CalcPotential g sched cudaFlag nVertex p pVc vertPot = Some r.
Proof.
  unfold Simulation.CalcPotential. intros Hok Hhost. case_decide as Hflag.
  - destruct (Hok Hflag) as [Hg HN]. rewrite thread_inits_seqZ by done.
    by apply (map_paths (Simulation.devCalcPotential g nVertex p pVc) (λ i, Simulation.CalcPotentialSingle_read i p pVc)
                g nVertex (λ i _, devCalcPotential_next g nVertex i)
                (λ i m _, eq_refl) (λ i r m, eq_refl) Hg HN).
  - exists []. by rewrite (CalcPotential_host_loop g).
Qed.

(** X7: On either path [CalcPotential] sets the potential of every vertex
    below [nVertex]: to zero, or for [PROBLEM_SOURCE] to a tenth of the
    y coordinate of the vertex.  It writes nothing else and keeps the
    length of the array. *)
Theorem CalcPotential_spec g sched cudaFlag nVertex vertPot vertPot' :
  (cudaFlag = 1 → launch_ok g nVertex) →
  Simulation.CalcPotential g sched cudaFlag nVertex p pVc vertPot
    = Some vertPot' →
  length vertPot' = length vertPot ∧
  (∀ i, 0 <= i < nVertex →
     if decide (p = MeshParameter.PROBLEM_SOURCE) then
       ∃ c, rd pVc i = Some c ∧
            rd vertPot' i
            = Some (Simulation.rmul (Simulation.lit "0.1")
                      (Simulation.ry2 c))
     else rd vertPot' i = Some (Simulation.lit "0.0")) ∧
  (∀ i, ¬ (0 <= i < nVertex) → rd vertPot' i = rd vertPot i).
Proof.
  intros Hok Hcalc. apply CalcPotential_host in Hcalc; [| done].
  apply (map_host_post (Simulation.devCalcPotential g nVertex p pVc) (λ i, Simulation.CalcPotentialSingle_read i p pVc)
           g nVertex (λ i m _, eq_refl) (λ i r m, eq_refl))
    in Hcalc as (Hlen & Hval & Hfr).
  split_and!; [done | | done].
  intros i Hi. destruct (Hval i Hi) as (v & Hv & Hrd).
  unfold Simulation.CalcPotentialSingle_read in Hv.
  case_decide; [| by simplify_eq].
  destruct (rd pVc i) as [c |]; simplify_eq/=. by exists c.
Qed.

(** X8: [CalcPotential] stays inside its arrays, and returns, exactly when
    the potential has an entry for every vertex below [nVertex] and, for
    [PROBLEM_SOURCE], so have the vertex coordinates; for the other
    problems the coordinates are not read. *)
Theorem CalcPotential_in_bounds g cudaFlag nVertex vertPot :
  (cudaFlag = 1 → launch_ok g nVertex) →
  (∃ sched r,
     Simulation.CalcPotential g sched cudaFlag nVertex p pVc vertPot = Some r)
  ↔ nVertex <= 0 ∨
    (nVertex <= Z.of_nat (length vertPot) ∧
     (p = MeshParameter.PROBLEM_SOURCE → nVertex <= Z.of_nat (length pVc))).
Proof.
  intros Hok.
  pose proof (map_host_defined
                (Simulation.devCalcPotential g nVertex p pVc)
                (λ i, Simulation.CalcPotentialSingle_read i p pVc) g nVertex
                (λ i m _, eq_refl) (λ i r m, eq_refl) vertPot) as Hdef.
  split.
  - intros (sched & r & Hcalc). apply CalcPotential_host in Hcalc; [| done].
    destruct (decide (nVertex <= 0)) as [| Hpos]; [by left | right].
    destruct (proj1 Hdef (mk_is_Some _ _ Hcalc) (nVertex - 1)) as [Hlt [v Hv]];
      [lia |].
    split; [lia |]. intros ->.
    unfold Simulation.CalcPotentialSingle_read in Hv.
    rewrite decide_True in Hv by done.
    destruct (rd pVc (nVertex - 1)) as [c |] eqn:Hc; [| done].
    apply rd_Some in Hc as [_ Hc]. apply lookup_lt_Some in Hc. lia.
  - intros Hb.
    destruct (proj2 Hdef) as [r Hr].
    { intros i Hi. destruct Hb as [| [Hlen Hsrc]]; [lia |]. split; [lia |].
      unfold Simulation.CalcPotentialSingle_read. case_decide; [| by eexists].
      destruct (rd_is_Some pVc i) as [_ [c ->]]; [| by eexists].
      specialize (Hsrc ltac:(done)). lia. }
    destruct (CalcPotential_exists g cudaFlag nVertex vertPot r Hok Hr)
      as [sched Hs].
    by exists sched, r.
Qed.

(** X9: The accelerator path and the host path of [CalcPotential] return the
    same potential, whatever the order the device runs its threads in. *)
Theorem CalcPotential_paths g nVertex vertPot :
  launch_ok g nVertex →
  (∀ sched r,
     Simulation.CalcPotential g sched 1 nVertex p pVc vertPot = Some r →
     ∀ sched',
       Simulation.CalcPotential g sched' 0 nVertex p pVc vertPot = Some r) ∧
  (∀ sched' r,
     Simulation.CalcPotential g sched' 0 nVertex p pVc vertPot = Some r →
     ∃ sched,
       Simulation.CalcPotential g sched 1 nVertex p pVc vertPot = Some r).
Proof.
  intros Hok. split.
  - intros sched r Hdev sched'. apply CalcPotential_host in Hdev; [| done].
    unfold Simulation.CalcPotential. rewrite decide_False by done.
    by rewrite (CalcPotential_host_loop g).
  - intros sched' r Hhost. apply CalcPotential_host in Hhost; [| done].
    by apply CalcPotential_exists.
Qed.
End Potential.
(** ** The shock sensor (blendx.cu) *)

(** The three vertex indices of a triangle are [int]s. *)
Definition int3_range (tv : int3) : Prop :=
  ∀ a, a ∈ [x3 tv; y3 tv; z3 tv] → -2147483648 <= a < 2147483648.

Lemma rd_mod {A} (p : list A) a n :
  1 <= n → Z.of_nat (length p) = n → ∃ v, rd p (a mod n) = Some v.
Proof.
  intros Hn Hlen. apply rd_is_Some.
  pose proof (Z.mod_pos_bound a n). lia.
Qed.

Lemma triangle_vertices_reduced fuel i nVertex pTv tv :
  rd pTv i = Some tv → 1 <= nVertex < 2147483648 → int3_range tv →
  (Z.to_nat 2147483649 <= fuel)%nat →
  triangle_vertices fuel i nVertex pTv
  = Some (x3 tv mod nVertex, y3 tv mod nVertex, z3 tv mod nVertex).
Proof.
  intros Htv Hn Hint Hfuel. apply triangle_vertices_mod; [done | done |].
  intros a Ha. specialize (Hint a Ha). lia.
Qed.

Section ShockSensor.
Context {real : Type} `{!Simulation.RealOps real}.

Lemma vertex_velocity_Some a n (pState : list (Simulation.real4 real)) pVp
    G G1 :
  1 <= n → Z.of_nat (length pState) = n → Z.of_nat (length pVp) = n →
  is_Some (Simulation.vertex_velocity (a mod n) pState pVp G G1).
Proof.
  intros Hn HS HV. unfold Simulation.vertex_velocity.
  destruct (rd_mod pState a n Hn HS) as [s ->].
  destruct (rd_mod pVp a n Hn HV) as [vp ->]. by eexists.
Qed.

(** The reads of the versions for one and for four equations succeed
    on arrays of the right sizes. *)
Lemma sensor_read1_defined CL fuel i nVertex pTv pTl pTn1 pTn2 pTn3
    (iDv : real) (pState : list real) tv :
  1 <= nVertex < 2147483648 → rd pTv i = Some tv → int3_range tv →
  is_Some (rd pTl i) → is_Some (rd pTn1 i) → is_Some (rd pTn2 i) →
  is_Some (rd pTn3 i) → Z.of_nat (length pState) = nVertex →
  (Z.to_nat 2147483649 <= fuel)%nat →
  is_Some (Simulation.CalcShockSensorSingle_read1 CL fuel i nVertex pTv pTl
             pTn1 pTn2 pTn3 iDv pState).
Proof.
  intros Hn Htv Hint [tl Htl] [n1 Hn1] [n2 Hn2] [n3 Hn3] HS Hfuel.
  unfold Simulation.CalcShockSensorSingle_read1.
  case_decide; simpl; [| by eexists].
  rewrite (triangle_vertices_reduced fuel i nVertex pTv tv) by assumption.
  simpl.
  destruct (rd_mod pState (x3 tv) nVertex) as [u1 ->]; [lia | done |].
  destruct (rd_mod pState (y3 tv) nVertex) as [u2 ->]; [lia | done |].
  destruct (rd_mod pState (z3 tv) nVertex) as [u3 ->]; [lia | done |].
  rewrite Htl, Hn1, Hn2, Hn3. simpl. by eexists.
Qed.

Lemma sensor_read4_defined fuel i nVertex pTv pTl pTn1 pTn2 pTn3
    (iDv : real) (pState : list (Simulation.real4 real)) G G1 pVp tv :
  1 <= nVertex < 2147483648 → rd pTv i = Some tv → int3_range tv →
  is_Some (rd pTl i) → is_Some (rd pTn1 i) → is_Some (rd pTn2 i) →
  is_Some (rd pTn3 i) → Z.of_nat (length pState) = nVertex →
  Z.of_nat (length pVp) = nVertex →
  (Z.to_nat 2147483649 <= fuel)%nat →
  is_Some (Simulation.CalcShockSensorSingle_read4 fuel i nVertex pTv pTl
             pTn1 pTn2 pTn3 iDv pState G G1 pVp).
Proof.
  intros Hn Htv Hint [tl Htl] [n1 Hn1] [n2 Hn2] [n3 Hn3] HS HV Hfuel.
  unfold Simulation.CalcShockSensorSingle_read4.
  rewrite (triangle_vertices_reduced fuel i nVertex pTv tv) by assumption.
  simpl.
  destruct (vertex_velocity_Some (x3 tv) nVertex pState pVp G G1)
    as [[u1 v1] ->]; [lia | done | done |].
  destruct (vertex_velocity_Some (y3 tv) nVertex pState pVp G G1)
    as [[u2 v2] ->]; [lia | done | done |].
  destruct (vertex_velocity_Some (z3 tv) nVertex pState pVp G G1)
    as [[u3 v3] ->]; [lia | done | done |].
  simpl. rewrite Htl, Hn1, Hn2, Hn3. simpl. by eexists.
Qed.

(** X10: Whatever vertex indices a triangle holds, the versions of
    [CalcShockSensorSingle] for one and for four equations read the state
    and the potential inside their [nVertex] entries: on arrays of the
    right sizes they return, and change the sensor of triangle [i]
    only. *)
Theorem CalcShockSensorSingle_in_bounds CL i nVertex pTv pTl pTn1 pTn2 pTn3
    (iDv : real) pShockSensor G G1 pVp tv :
  1 <= nVertex < 2147483648 → rd pTv i = Some tv → int3_range tv →
  is_Some (rd pTl i) → is_Some (rd pTn1 i) → is_Some (rd pTn2 i) →
  is_Some (rd pTn3 i) → is_Some (rd pShockSensor i) →
  ∃ fuel0, ∀ fuel, (fuel0 <= fuel)%nat →
    (∀ pState : list real,
       Z.of_nat (length pState) = nVertex →
       ∃ v, Simulation.CalcShockSensorSingle CL fuel i nVertex pTv pTl pTn1
              pTn2 pTn3 iDv pState pShockSensor G G1 pVp
            = Some (<[Z.to_nat i := v]> pShockSensor)) ∧
    (∀ pState : list (Simulation.real4 real),
       Z.of_nat (length pState) = nVertex →
       Z.of_nat (length pVp) = nVertex →
       ∃ v, Simulation.CalcShockSensorSingle CL fuel i nVertex pTv pTl pTn1
              pTn2 pTn3 iDv pState pShockSensor G G1 pVp
            = Some (<[Z.to_nat i := v]> pShockSensor)).
Proof.
  intros Hn Htv Hint Htl Hn1 Hn2 Hn3 Hss.
  exists (Z.to_nat 2147483649). intros fuel Hfuel.
  assert (∀ v : real, wr pShockSensor i v
                      = Some (<[Z.to_nat i := v]> pShockSensor)) as Hwr.
  { intros v. apply wr_Some. by apply rd_is_Some in Hss. }
  split.
  - intros pState HS. unfold Simulation.CalcShockSensorSingle.
    destruct (sensor_read1_defined CL fuel i nVertex pTv pTl pTn1 pTn2 pTn3
                iDv pState tv) as [v Hv]; try assumption.
    exists v. unfold Simulation.CalcShockSensorSingle_read,
      Simulation.ShockSensor_real. rewrite Hv. apply Hwr.
  - intros pState HS HV. unfold Simulation.CalcShockSensorSingle.
    destruct (sensor_read4_defined fuel i nVertex pTv pTl pTn1 pTn2 pTn3
                iDv pState G G1 pVp tv) as [v Hv]; try assumption.
    exists v. unfold Simulation.CalcShockSensorSingle_read,
      Simulation.ShockSensor_real4. rewrite Hv. apply Hwr.
Qed.

Section Pass.
Context {realNeq : Type} `{!@Simulation.ShockSensor real realNeq}.
Variables (CL : Simulation.ConservationLaw) (fuel : nat) (g : dim).
Variables (nVertex nTriangle : Z) (pTv : list int3).
Variables (pTl : list (Simulation.real3 real)).
Variables (pTn1 pTn2 pTn3 : list (Simulation.real2 real)).
Variables (iDv : real) (pState : list realNeq) (G G1 : real).
Variable pVp : list real.

Definition sensor_kernel : kernel Z Z real (list real) :=
  Simulation.devCalcShockSensor CL fuel g nVertex nTriangle pTv pTl pTn1
    pTn2 pTn3 iDv pState G G1 pVp.

Definition sensor_value (i : Z) : option real :=
  Simulation.CalcShockSensorSingle_read CL fuel i nVertex pTv pTl pTn1 pTn2
    pTn3 iDv pState G G1 pVp.

(** Below the overflow of the counters the unsigned loop of the kernel
    visits the indices of a signed grid-stride loop. *)
Lemma devCalcShockSensor_next i :
  0 <= nTriangle → launch_ok g nTriangle → 0 <= i < 2147483648 →
  k_next sensor_kernel i = stride_next nTriangle (grid_stride g) i.
Proof.
  intros HN [Hg HT] Hi. pose proof (grid_stride_pos g Hg) as Hpos.
  simpl. unfold stride_next. fold (grid_stride g).
  rewrite (u32_id nTriangle) by lia. case_decide; [| done].
  rewrite s32_id, u32_id, s32_id by lia. done.
Qed.
Lemma devCalcShockSensor_inits : geometry g → thread_ids g = seqZ 0 (grid_stride g).
Proof. apply thread_ids_seqZ. Qed.

Lemma sensor_host_loop pShockSensor :
  for_lt 0 nTriangle
    (λ i pShockSensor,
       Simulation.CalcShockSensorSingle CL fuel i nVertex pTv pTl pTn1 pTn2
         pTn3 iDv pState pShockSensor G G1 pVp) pShockSensor
  = for_lt 0 nTriangle (exec sensor_kernel) pShockSensor.
Proof. reflexivity. Qed.

Lemma sensor_paths pShockSensor :
  0 <= nTriangle → launch_ok g nTriangle →
  (∀ sched m, launch sensor_kernel (thread_ids g) sched pShockSensor = Some m →
              for_lt 0 nTriangle (exec sensor_kernel) pShockSensor = Some m) ∧
  (∀ m, for_lt 0 nTriangle (exec sensor_kernel) pShockSensor = Some m →
        ∃ sched, launch sensor_kernel (thread_ids g) sched pShockSensor
                 = Some m).
Proof.
  intros HN Hok. pose proof Hok as [Hg HT].
  rewrite devCalcShockSensor_inits by done.
  apply (map_paths sensor_kernel sensor_value g nTriangle
           (λ i, devCalcShockSensor_next i HN Hok)
           (λ i m _, eq_refl) (λ i r m, eq_refl) Hg HT).
Qed.
End Pass.

(** A launch of [CalcShockSensor] that completes leaves what the
    sequential loop leaves when run with the same arithmetic, and whatever
    that loop returns some launch returns. *)
Lemma CalcShockSensor_host {realNeq} `{!@Simulation.ShockSensor real realNeq}
    CL fuel g sched cudaFlag (minVel maxVel : real) nVertex nTriangle pTv
    pTn1 pTn2 pTn3 pTl (pState : list realNeq) pVp pShockSensor G r :
  (cudaFlag = 1 → 0 <= nTriangle ∧ launch_ok g nTriangle) →
  Simulation.CalcShockSensor CL fuel g sched cudaFlag minVel maxVel nVertex
    nTriangle pTv pTn1 pTn2 pTn3 pTl pState pVp pShockSensor G = Some r →
  Simulation.CalcShockSensor CL fuel g [] 0 minVel maxVel nVertex
    nTriangle pTv pTn1 pTn2 pTn3 pTl pState pVp pShockSensor G = Some r.
Proof.
  unfold Simulation.CalcShockSensor. intros Hok.
  rewrite (decide_False (P := 0 = 1)) by done. case_decide as Hflag; [| done].
  destruct (Hok Hflag) as [HN Hl]. intros Hdev.
  eapply sensor_paths; [exact HN | exact Hl | exact Hdev].
Qed.

Lemma CalcShockSensor_exists {realNeq}
    `{!@Simulation.ShockSensor real realNeq}
    CL fuel g cudaFlag (minVel maxVel : real) nVertex nTriangle pTv
    pTn1 pTn2 pTn3 pTl (pState : list realNeq) pVp pShockSensor G r :
  (cudaFlag = 1 → 0 <= nTriangle ∧ launch_ok g nTriangle) →
  Simulation.CalcShockSensor CL fuel g [] 0 minVel maxVel nVertex
    nTriangle pTv pTn1 pTn2 pTn3 pTl pState pVp pShockSensor G = Some r →
  ∃ sched,
    Simulation.CalcShockSensor CL fuel g sched cudaFlag minVel maxVel nVertex
      nTriangle pTv pTn1 pTn2 pTn3 pTl pState pVp pShockSensor G = Some r.
Proof.
  unfold Simulation.CalcShockSensor. intros Hok.
  rewrite (decide_False (P := 0 = 1)) by done. case_decide as Hflag;
    [| by exists []].
  destruct (Hok Hflag) as [HN Hl]. intros Hhost.
  eapply sensor_paths; [exact HN | exact Hl | exact Hhost].
Qed.

(** X11: On the accelerator path the sensor that [CalcShockSensor]
    returns does not depend on the order in which the device runs its
    threads, for every version of the state vector: two launches that
    complete leave the same array. *)
Theorem CalcShockSensor_schedules {realNeq}
    `{!@Simulation.ShockSensor real realNeq}
    CL fuel g (minVel maxVel : real) nVertex nTriangle pTv
    pTn1 pTn2 pTn3 pTl (pState : list realNeq) pVp pShockSensor G
    sched1 sched2 r1 r2 :
  0 <= nTriangle → launch_ok g nTriangle →
  Simulation.CalcShockSensor CL fuel g sched1 1 minVel maxVel nVertex
    nTriangle pTv pTn1 pTn2 pTn3 pTl pState pVp pShockSensor G = Some r1 →
  Simulation.CalcShockSensor CL fuel g sched2 1 minVel maxVel nVertex
    nTriangle pTv pTn1 pTn2 pTn3 pTl pState pVp pShockSensor G = Some r2 →
  r1 = r2.
Proof.
  intros HN Hok H1 H2.
  apply CalcShockSensor_host in H1; [| done].
  apply CalcShockSensor_host in H2; [| done].
  congruence.
Qed.

Lemma CalcShockSensor_post {realNeq} `{!@Simulation.ShockSensor real realNeq}
    CL fuel g (minVel maxVel : real) nVertex nTriangle pTv
    pTn1 pTn2 pTn3 pTl (pState : list realNeq) pVp pShockSensor G r :
  Simulation.CalcShockSensor CL fuel g [] 0 minVel maxVel nVertex
    nTriangle pTv pTn1 pTn2 pTn3 pTl pState pVp pShockSensor G = Some r →
  length r = length pShockSensor ∧
  (∀ i, 0 <= i < nTriangle →
     ∃ v, sensor_value CL fuel nVertex pTv pTl pTn1 pTn2 pTn3
            (Simulation.rdiv (Simulation.lit "1.0")
               (Simulation.rsub maxVel minVel))
            pState G (Simulation.rsub G (Simulation.lit "1.0")) pVp i
          = Some v ∧ rd r i = Some v) ∧
  (∀ i, ¬ (0 <= i < nTriangle) → rd r i = rd pShockSensor i).
Proof.
  unfold Simulation.CalcShockSensor.
  rewrite (decide_False (P := 0 = 1)) by done.
  apply (map_host_post
           (sensor_kernel CL fuel g nVertex nTriangle pTv pTl pTn1 pTn2 pTn3
              _ pState G _ pVp) (sensor_value _ _ _ _ _ _ _ _ _ _ _ _ _)
           g nTriangle (λ i m _, eq_refl) (λ i r m, eq_refl)).
Qed.

Lemma CalcShockSensor_defined {realNeq}
    `{!@Simulation.ShockSensor real realNeq}
    CL fuel g (minVel maxVel : real) nVertex nTriangle pTv
    pTn1 pTn2 pTn3 pTl (pState : list realNeq) pVp pShockSensor G :
  is_Some (Simulation.CalcShockSensor CL fuel g [] 0 minVel maxVel nVertex
             nTriangle pTv pTn1 pTn2 pTn3 pTl pState pVp pShockSensor G) ↔
  ∀ i, 0 <= i < nTriangle →
    i < Z.of_nat (length pShockSensor) ∧
    is_Some (sensor_value CL fuel nVertex pTv pTl pTn1 pTn2 pTn3
               (Simulation.rdiv (Simulation.lit "1.0")
                  (Simulation.rsub maxVel minVel))
               pState G (Simulation.rsub G (Simulation.lit "1.0")) pVp i).
Proof.
  unfold Simulation.CalcShockSensor.
  rewrite (decide_False (P := 0 = 1)) by done.
  apply (map_host_defined
           (sensor_kernel CL fuel g nVertex nTriangle pTv pTl pTn1 pTn2 pTn3
              _ pState G _ pVp) (sensor_value _ _ _ _ _ _ _ _ _ _ _ _ _)
           g nTriangle (λ i m _, eq_refl) (λ i r m, eq_refl)).
Qed.

(** The sensor is 1.0 on the triangles below [nTriangle] and as before
    elsewhere. *)
Definition says_shock (nTriangle : Z) (pShockSensor r : list real) : Prop :=
  length r = length pShockSensor ∧
  (∀ i, 0 <= i < nTriangle → rd r i = Some (Simulation.lit "1.0")) ∧
  (∀ i, ¬ (0 <= i < nTriangle) → rd r i = rd pShockSensor i).

(** X12: For three equations, and for one equation other than Burgers',
    [CalcShockSensor] "just says shock": whatever the mesh and the state
    hold, it returns when the sensor array has [nTriangle] entries, and
    sets the sensor of every triangle to 1.0 on either path. *)
Theorem CalcShockSensor_says_shock CL fuel g cudaFlag (minVel maxVel : real)
    nVertex nTriangle pTv pTn1 pTn2 pTn3 pTl pVp pShockSensor G :
  (cudaFlag = 1 → 0 <= nTriangle ∧ launch_ok g nTriangle) →
  nTriangle <= Z.of_nat (length pShockSensor) →
  (∀ pState : list (Simulation.real3 real),
     (∃ sched r,
        Simulation.CalcShockSensor CL fuel g sched cudaFlag minVel maxVel
          nVertex nTriangle pTv pTn1 pTn2 pTn3 pTl pState pVp pShockSensor G
        = Some r) ∧
     (∀ sched r,
        Simulation.CalcShockSensor CL fuel g sched cudaFlag minVel maxVel
          nVertex nTriangle pTv pTn1 pTn2 pTn3 pTl pState pVp pShockSensor G
        = Some r → says_shock nTriangle pShockSensor r)) ∧
  (∀ pState : list real,
     CL ≠ Simulation.CL_BURGERS →
     (∃ sched r,
        Simulation.CalcShockSensor CL fuel g sched cudaFlag minVel maxVel
          nVertex nTriangle pTv pTn1 pTn2 pTn3 pTl pState pVp pShockSensor G
        = Some r) ∧
     (∀ sched r,
        Simulation.CalcShockSensor CL fuel g sched cudaFlag minVel maxVel
          nVertex nTriangle pTv pTn1 pTn2 pTn3 pTl pState pVp pShockSensor G
        = Some r → says_shock nTriangle pShockSensor r)).
Proof.
  intros Hok Hlen.
  assert (∀ {realNeq} `{!@Simulation.ShockSensor real realNeq}
            (pState : list realNeq),
            (∀ i, sensor_value CL fuel nVertex pTv pTl pTn1 pTn2 pTn3
                    (Simulation.rdiv (Simulation.lit "1.0")
                       (Simulation.rsub maxVel minVel))
                    pState G (Simulation.rsub G (Simulation.lit "1.0")) pVp i
                  = Some (Simulation.lit "1.0")) →
            (∃ sched r,
               Simulation.CalcShockSensor CL fuel g sched cudaFlag minVel
                 maxVel nVertex nTriangle pTv pTn1 pTn2 pTn3 pTl pState pVp
                 pShockSensor G = Some r) ∧
            (∀ sched r,
               Simulation.CalcShockSensor CL fuel g sched cudaFlag minVel
                 maxVel nVertex nTriangle pTv pTn1 pTn2 pTn3 pTl pState pVp
                 pShockSensor G = Some r →
               says_shock nTriangle pShockSensor r)) as Hgen.
  { intros realNeq Hcls pState Hone. split.
    - destruct (proj2 (CalcShockSensor_defined CL fuel g minVel maxVel
                         nVertex nTriangle pTv pTn1 pTn2 pTn3 pTl pState pVp
                         pShockSensor G)) as [r Hr].
      { intros i Hi. split; [lia |]. rewrite Hone. by eexists. }
      destruct (CalcShockSensor_exists _ _ _ cudaFlag _ _ _ _ _ _ _ _ _ _ _
                  _ _ _ Hok Hr) as [sched Hs].
      by exists sched, r.
    - intros sched r Hr. apply CalcShockSensor_host in Hr; [| done].
      apply CalcShockSensor_post in Hr as (Hl & Hv & Hf).
      split_and!; [done | | done].
      intros i Hi. destruct (Hv i Hi) as (v & Hval & Hrd).
      rewrite Hone in Hval. by simplify_eq. }
  split.
  - intros pState. by apply Hgen.
  - intros pState HCL. apply Hgen. intros i.
    unfold sensor_value, Simulation.CalcShockSensorSingle_read,
      Simulation.ShockSensor_real, Simulation.CalcShockSensorSingle_read1.
    by rewrite decide_False.
Qed.

(** A mesh whose first [nTriangle] triangles have their vertices, edge
    lengths and edge normals stored. *)
Definition triangles_ok (nTriangle : Z) (pTv : list int3)
    (pTl : list (Simulation.real3 real))
    (pTn1 pTn2 pTn3 : list (Simulation.real2 real)) : Prop :=
  ∀ i, 0 <= i < nTriangle →
    (∃ tv, rd pTv i = Some tv ∧ int3_range tv) ∧
    is_Some (rd pTl i) ∧ is_Some (rd pTn1 i) ∧ is_Some (rd pTn2 i) ∧
    is_Some (rd pTn3 i).

(** X13: On such a mesh, with a state (and for four equations a potential)
    of [nVertex] entries, [CalcShockSensor] for Burgers' equation and
    for four equations returns on either path, whatever vertex indices
    the triangles hold, and leaves the sensor beyond [nTriangle] as it
    was. *)
Theorem CalcShockSensor_in_bounds CL g cudaFlag (minVel maxVel : real)
    nVertex nTriangle pTv pTn1 pTn2 pTn3 pTl pVp pShockSensor G :
  (cudaFlag = 1 → 0 <= nTriangle ∧ launch_ok g nTriangle) →
  1 <= nVertex < 2147483648 →
  triangles_ok nTriangle pTv pTl pTn1 pTn2 pTn3 →
  nTriangle <= Z.of_nat (length pShockSensor) →
  ∃ fuel0, ∀ fuel, (fuel0 <= fuel)%nat →
    (∀ pState : list real,
       Z.of_nat (length pState) = nVertex →
       ∃ sched r,
         Simulation.CalcShockSensor CL fuel g sched cudaFlag minVel maxVel
           nVertex nTriangle pTv pTn1 pTn2 pTn3 pTl pState pVp pShockSensor
           G = Some r ∧
         length r = length pShockSensor ∧
         ∀ i, ¬ (0 <= i < nTriangle) → rd r i = rd pShockSensor i) ∧
    (∀ pState : list (Simulation.real4 real),
       Z.of_nat (length pState) = nVertex →
       Z.of_nat (length pVp) = nVertex →
       ∃ sched r,
         Simulation.CalcShockSensor CL fuel g sched cudaFlag minVel maxVel
           nVertex nTriangle pTv pTn1 pTn2 pTn3 pTl pState pVp pShockSensor
           G = Some r ∧
         length r = length pShockSensor ∧
         ∀ i, ¬ (0 <= i < nTriangle) → rd r i = rd pShockSensor i).
Proof.
  intros Hok Hn Hmesh Hlen. exists (Z.to_nat 2147483649). intros fuel Hfuel.
  assert (∀ {realNeq} `{!@Simulation.ShockSensor real realNeq}
            (pState : list realNeq),
            (∀ i, 0 <= i < nTriangle →
               is_Some (sensor_value CL fuel nVertex pTv pTl pTn1 pTn2 pTn3
                          (Simulation.rdiv (Simulation.lit "1.0")
                             (Simulation.rsub maxVel minVel))
                          pState G (Simulation.rsub G (Simulation.lit "1.0"))
                          pVp i)) →
            ∃ sched r,
              Simulation.CalcShockSensor CL fuel g sched cudaFlag minVel
                maxVel nVertex nTriangle pTv pTn1 pTn2 pTn3 pTl pState pVp
                pShockSensor G = Some r ∧
              length r = length pShockSensor ∧
              ∀ i, ¬ (0 <= i < nTriangle) → rd r i = rd pShockSensor i)
    as Hgen.
  { intros realNeq Hcls pState Hval.
    destruct (proj2 (CalcShockSensor_defined CL fuel g minVel maxVel
                       nVertex nTriangle pTv pTn1 pTn2 pTn3 pTl pState pVp
                       pShockSensor G)) as [r Hr].
    { intros i Hi. split; [lia | by apply Hval]. }
    destruct (CalcShockSensor_exists _ _ _ cudaFlag _ _ _ _ _ _ _ _ _ _ _
                _ _ _ Hok Hr) as [sched Hs].
    exists sched, r. split; [done |].
    apply CalcShockSensor_post in Hr as (Hl & _ & Hf). done. }
  split.
  - intros pState HS. apply Hgen. intros i Hi.
    destruct (Hmesh i Hi) as ((tv & Htv & Hint) & Htl & Hn1 & Hn2 & Hn3).
    by apply (sensor_read1_defined CL fuel i nVertex pTv pTl pTn1 pTn2 pTn3
                _ pState tv).
  - intros pState HS HV. apply Hgen. intros i Hi.
    destruct (Hmesh i Hi) as ((tv & Htv & Hint) & Htl & Hn1 & Hn2 & Hn3).
    by apply (sensor_read4_defined fuel i nVertex pTv pTl pTn1 pTn2 pTn3
                _ pState G _ pVp tv).
Qed.
End ShockSensor.
(** ** Initial conditions (initial.cu) *)

Section SetInitial.
Context {real : Type} `{!Simulation.RealOps real}.
Context {realNeq : Type} `{!@Simulation.Initial real realNeq}.
Variables KHAddEigenVector RTAddEigenVector : Z -> list realNeq -> list realNeq.
Variables (CL : Simulation.ConservationLaw) (g : dim) (nVertex : Z).
Variables (pVc : list (Simulation.real2 real)).
Variables (p : Simulation.ProblemDefinition) (pVpot : list real).
Variables (G time Px Py : real).

Definition initial_kernel : kernel Z Z realNeq (list realNeq) :=
  Simulation.devSetInitial g nVertex pVc p pVpot G time Px Py.

Definition initial_value (n : Z) : option realNeq :=
  Simulation.SetInitialSingle_read n pVc p pVpot G time Px Py.

(** The calls of the eigenvector routines that follow the pass. *)
Definition add_eigenvectors (cudaFlag : Z) (state : list realNeq)
  : list realNeq :=
  let state :=
    if decide (p = MeshParameter.PROBLEM_KH)
    then KHAddEigenVector cudaFlag state else state in
  if decide (p = MeshParameter.PROBLEM_SOURCE ∧ CL = Simulation.CL_CART_EULER)
  then RTAddEigenVector cudaFlag state else state.

Lemma devSetInitial_next i :
  k_next initial_kernel i = stride_next nVertex (grid_stride g) i.
Proof. simpl. unfold grid_stride. by rewrite Z.mul_comm. Qed.

Lemma SetInitial_unfold sched cudaFlag state :
  Simulation.SetInitial KHAddEigenVector RTAddEigenVector CL g sched cudaFlag
    nVertex pVc p pVpot state G time Px Py
  = add_eigenvectors cudaFlag <$>
      (if decide (cudaFlag = 1)
       then launch initial_kernel (s32 <$> thread_ids g) sched state
       else for_lt 0 nVertex (exec initial_kernel) state).
Proof.
  unfold Simulation.SetInitial, add_eigenvectors.
  destruct (decide (cudaFlag = 1)).
  - fold initial_kernel. by destruct (launch _ _ _ _).
  - change (for_lt 0 nVertex _ state)
      with (for_lt 0 nVertex (exec initial_kernel) state).
    by destruct (for_lt _ _ _ _).
Qed.

(** The pass of either path leaves what the sequential loop leaves when
    run with the arithmetic of that path, and whatever that loop returns
    some launch returns. *)
Lemma SetInitial_host sched cudaFlag state r :
  (cudaFlag = 1 → launch_ok g nVertex) →
  Simulation.SetInitial KHAddEigenVector RTAddEigenVector CL g sched cudaFlag
    nVertex pVc p pVpot state G time Px Py = Some r →
  ∃ m, for_lt 0 nVertex (exec initial_kernel) state = Some m ∧
       r = add_eigenvectors cudaFlag m.
Proof.
  rewrite SetInitial_unfold. intros Hok. case_decide as Hflag.
  - destruct (Hok Hflag) as [Hg HN]. rewrite thread_inits_seqZ by done.
    destruct (launch _ _ _ _) as [m |] eqn:Hl; [| done]. intros [= <-].
    exists m. split; [| done].
    by apply (proj1 (map_paths initial_kernel initial_value g nVertex
                       (λ i _, devSetInitial_next i) (λ i m _, eq_refl)
                       (λ i r m, eq_refl) Hg HN state) sched).
  - destruct (for_lt _ _ _ _) as [m |]; [| done]. intros [= <-]. by exists m.
Qed.

Lemma SetInitial_exists cudaFlag state m :
  (cudaFlag = 1 → launch_ok g nVertex) →
  for_lt 0 nVertex (exec initial_kernel) state = Some m →
  ∃ sched,
    Simulation.SetInitial KHAddEigenVector RTAddEigenVector CL g sched
      cudaFlag nVertex pVc p pVpot state G time Px Py
    = Some (add_eigenvectors cudaFlag m).
Proof.
  intros Hok Hhost. case (decide (cudaFlag = 1)) as [Hflag | Hflag].
  - destruct (Hok Hflag) as [Hg HN].
    destruct (proj2 (map_paths initial_kernel initial_value g nVertex
                       (λ i _, devSetInitial_next i) (λ i m _, eq_refl)
                       (λ i r m, eq_refl) Hg HN state) m Hhost)
      as [sched Hl].
    exists sched. rewrite SetInitial_unfold, decide_True by done.
    rewrite thread_inits_seqZ by done. by rewrite Hl.
  - exists []. rewrite SetInitial_unfold, decide_False by done.
    by rewrite Hhost.
Qed.

(** What the pass leaves in the state, before the eigenvector routines. *)
Lemma SetInitial_pass_post state m :
  for_lt 0 nVertex (exec initial_kernel) state = Some m →
  length m = length state ∧
  (∀ n, 0 <= n < nVertex → ∃ v, initial_value n = Some v ∧ rd m n = Some v) ∧
  (∀ n, ¬ (0 <= n < nVertex) → rd m n = rd state n).
Proof.
  apply (map_host_post initial_kernel initial_value g nVertex
           (λ i m _, eq_refl) (λ i r m, eq_refl)).
Qed.

Lemma SetInitial_pass_defined state :
  (∀ n, 0 <= n < nVertex →
        n < Z.of_nat (length state) ∧ is_Some (initial_value n)) →
  is_Some (for_lt 0 nVertex (exec initial_kernel) state).
Proof.
  apply (map_host_defined initial_kernel initial_value g nVertex
           (λ i m _, eq_refl) (λ i r m, eq_refl)).
Qed.
End SetInitial.

(** Each version of [SetInitialSingle] reads the coordinates of its
    vertex and no other array. *)
Class InitialReads {real : Type} `{!Simulation.RealOps real}
    (realNeq : Type) `{!@Simulation.Initial real realNeq} : Prop :=
  initial_reads : ∀ n pVc p pVpot (G time Px Py : real),
    is_Some (rd pVc n) →
    is_Some (Simulation.SetInitialSingle_read (realNeq := realNeq)
               n pVc p pVpot G time Px Py).

Global Instance InitialReads_real {real : Type} `{!Simulation.RealOps real} :
  InitialReads real.
Proof.
  intros n pVc p pVpot G time Px Py [vc Hvc].
  unfold Simulation.SetInitialSingle_read, Simulation.Initial_real,
    Simulation.SetInitialSingle_read1.
  rewrite Hvc. by eexists.
Qed.

Global Instance InitialReads_real3 {real : Type}
    `{!Simulation.RealOps real} : InitialReads (Simulation.real3 real).
Proof.
  intros n pVc p pVpot G time Px Py [vc Hvc].
  unfold Simulation.SetInitialSingle_read, Simulation.Initial_real3,
    Simulation.SetInitialSingle_read3.
  rewrite Hvc. simpl. repeat case_decide; by eexists.
Qed.

(** [SetInitial] returns when the state and the coordinates have an entry
    for every vertex below [nVertex]. *)
Lemma SetInitial_returns {real : Type} `{!Simulation.RealOps real}
    {realNeq : Type} `{!@Simulation.Initial real realNeq}
    `{!InitialReads realNeq} KH RT CL g cudaFlag nVertex pVc p pVpot
    (G time Px Py : real) (state : list realNeq) :
  (cudaFlag = 1 → launch_ok g nVertex) →
  nVertex <= Z.of_nat (length state) → nVertex <= Z.of_nat (length pVc) →
  ∃ sched r,
    Simulation.SetInitial KH RT CL g sched cudaFlag nVertex pVc p pVpot state
      G time Px Py = Some r.
Proof.
  intros Hok Hst Hvc.
  destruct (SetInitial_pass_defined g nVertex pVc p pVpot G time Px Py state)
    as [m Hm].
  { intros n Hn. split; [lia |]. apply initial_reads, rd_is_Some. lia. }
  destruct (SetInitial_exists KH RT CL g nVertex pVc p pVpot G time Px Py
              cudaFlag state m Hok Hm) as [sched Hs].
  by eauto.
Qed.

(** X15: For a problem without eigenvector routine, [SetInitial] returns
    when the state and the coordinates have an entry for every vertex below
    [nVertex]; on a given path it overwrites the state of these vertices
    with values that depend neither on the state before nor on the
    schedule, and leaves the rest of the array as it was. *)
Theorem SetInitial_overwrites {real : Type} `{!Simulation.RealOps real}
    {realNeq : Type} `{!@Simulation.Initial real realNeq}
    `{!InitialReads realNeq} KH RT CL g cudaFlag nVertex pVc p pVpot
    (G time Px Py : real) :
  p ≠ MeshParameter.PROBLEM_KH →
  ¬ (p = MeshParameter.PROBLEM_SOURCE ∧ CL = Simulation.CL_CART_EULER) →
  (cudaFlag = 1 → launch_ok g nVertex) →
  (∀ state : list realNeq,
     nVertex <= Z.of_nat (length state) → nVertex <= Z.of_nat (length pVc) →
     ∃ sched r,
       Simulation.SetInitial KH RT CL g sched cudaFlag nVertex pVc p pVpot
         state G time Px Py = Some r) ∧
  (∀ sched1 sched2 (state1 state2 r1 r2 : list realNeq),
     Simulation.SetInitial KH RT CL g sched1 cudaFlag nVertex pVc p pVpot
       state1 G time Px Py = Some r1 →
     Simulation.SetInitial KH RT CL g sched2 cudaFlag nVertex pVc p pVpot
       state2 G time Px Py = Some r2 →
     (∀ n, 0 <= n < nVertex → is_Some (rd r1 n) ∧ rd r1 n = rd r2 n) ∧
     length r1 = length state1 ∧
     (∀ n, ¬ (0 <= n < nVertex) → rd r1 n = rd state1 n)).
Proof.
  intros HKH HRT Hok. split.
  - intros state. by apply SetInitial_returns.
  - intros sched1 sched2 state1 state2 r1 r2 H1 H2.
    apply SetInitial_host in H1 as (m1 & Hm1 & ->); [| done].
    apply SetInitial_host in H2 as (m2 & Hm2 & ->); [| done].
    unfold add_eigenvectors. rewrite !(decide_False _ _ HKH).
    rewrite !(decide_False _ _ HRT).
    apply SetInitial_pass_post in Hm1 as (Hl1 & Hv1 & Hf1).
    apply SetInitial_pass_post in Hm2 as (Hl2 & Hv2 & Hf2).
    split_and!; [| done | done].
    intros n Hn. destruct (Hv1 n Hn) as (v1 & Hval1 & ->).
    destruct (Hv2 n Hn) as (v2 & Hval2 & ->).
    split; [by eexists | congruence].
Qed.

(** [SetInitial] returns on [state], and what it returns is [default] at
    every vertex below [nVertex] and [state] elsewhere; for [PROBLEM_KH]
    this is the state handed to [KHAddEigenVector]. *)
Definition gives_default {real : Type} `{!Simulation.RealOps real}
    {realNeq : Type} `{!@Simulation.Initial real realNeq}
    (KH RT : Z -> list realNeq -> list realNeq) CL g cudaFlag nVertex pVc p
    pVpot (G time Px Py : real) (default : realNeq) (state : list realNeq)
  : Prop :=
  (nVertex <= Z.of_nat (length state) → nVertex <= Z.of_nat (length pVc) →
   ∃ sched r,
     Simulation.SetInitial KH RT CL g sched cudaFlag nVertex pVc p pVpot
       state G time Px Py = Some r) ∧
  (∀ sched r,
     Simulation.SetInitial KH RT CL g sched cudaFlag nVertex pVc p pVpot
       state G time Px Py = Some r →
     ∃ m, r = (if decide (p = MeshParameter.PROBLEM_KH)
               then KH cudaFlag m else m) ∧
          length m = length state ∧
          (∀ n, 0 <= n < nVertex → rd m n = Some default) ∧
          (∀ n, ¬ (0 <= n < nVertex) → rd m n = rd state n)).

Lemma gives_default_intro {real : Type} `{!Simulation.RealOps real}
    {realNeq : Type} `{!@Simulation.Initial real realNeq}
    `{!InitialReads realNeq} KH RT CL g cudaFlag nVertex pVc p pVpot
    (G time Px Py : real) (default : realNeq) state :
  (cudaFlag = 1 → launch_ok g nVertex) →
  p ≠ MeshParameter.PROBLEM_SOURCE →
  (∀ n v, Simulation.SetInitialSingle_read n pVc p pVpot G time Px Py
          = Some v → v = default) →
  gives_default KH RT CL g cudaFlag nVertex pVc p pVpot G time Px Py default
    state.
Proof.
  intros Hok HSO Hdef. split.
  - by apply SetInitial_returns.
  - intros sched r Hset.
    apply SetInitial_host in Hset as (m & Hm & ->); [| done].
    exists m. unfold add_eigenvectors.
    rewrite (decide_False (P := _ ∧ _)) by (by intros [? _]).
    apply SetInitial_pass_post in Hm as (Hl & Hv & Hf).
    split_and!; [done | done | | done].
    intros n Hn. destruct (Hv n Hn) as (v & Hval & ->).
    by rewrite (Hdef n v Hval).
Qed.

(** X16: For the problems that a version of [SetInitialSingle] has no case
    for (all but VORTEX and SOURCE for three equations; for one equation
    all but these, LINEAR and RIEMANN), the pass of [SetInitial] returns
    when the arrays have [nVertex] entries and gives every vertex below
    [nVertex] the default state: 1.0 for one equation, density 1.0 with
    momentum 0.0 for three.  For [PROBLEM_KH] this is the state that
    [SetInitial] hands to [KHAddEigenVector]; for the others it is what
    [SetInitial] returns. *)
Theorem SetInitial_uniform {real : Type} `{!Simulation.RealOps real}
    CL g cudaFlag nVertex pVc p pVpot (G time Px Py : real) :
  (cudaFlag = 1 → launch_ok g nVertex) →
  p ≠ MeshParameter.PROBLEM_VORTEX → p ≠ MeshParameter.PROBLEM_SOURCE →
  (∀ KH RT (state : list real),
     p ≠ MeshParameter.PROBLEM_LINEAR → p ≠ MeshParameter.PROBLEM_RIEMANN →
     gives_default KH RT CL g cudaFlag nVertex pVc p pVpot G time Px Py
       (Simulation.lit "1.0") state) ∧
  (∀ KH RT (state : list (Simulation.real3 real)),
     gives_default KH RT CL g cudaFlag nVertex pVc p pVpot G time Px Py
       (Simulation.mkReal3 (Simulation.lit "1.0") (Simulation.lit "0.0")
          (Simulation.lit "0.0")) state).
Proof.
  intros Hok HVO HSO. split.
  - intros KH RT state HLI HRI. apply gives_default_intro; [done | done |].
    intros n v Hval.
    unfold Simulation.SetInitialSingle_read, Simulation.Initial_real,
      Simulation.SetInitialSingle_read1 in Hval.
    destruct (rd pVc n) as [vc |]; [| done]. simpl in Hval.
    rewrite !decide_False in Hval by done. by injection Hval.
  - intros KH RT state. apply gives_default_intro; [done | done |].
    intros n v Hval.
    unfold Simulation.SetInitialSingle_read, Simulation.Initial_real3,
      Simulation.SetInitialSingle_read3 in Hval.
    destruct (rd pVc n) as [vc |]; [| done]. simpl in Hval.
    rewrite !decide_False in Hval by done. by injection Hval.
Qed.

(** *** Examples

    An interpretation of [real] by integers, to run the passes on
    examples: a literal is the length of its text. *)
Global Instance Z_real : Simulation.RealOps Z := {|
  Simulation.lit s := Z.of_nat (String.length s);
  Simulation.M_PI := 3;
  Simulation.of_int z := z;
  Simulation.radd := Z.add;
  Simulation.rsub := Z.sub;
  Simulation.rmul := Z.mul;
  Simulation.rdiv := Z.div;
  Simulation.rneg := Z.opp;
  Simulation.sqrt := Z.sqrt;
  Simulation.rsqrtf := Z.sqrt;
  Simulation.cos z := z;
  Simulation.exp z := z;
  Simulation.fabs := Z.abs;
  Simulation.Sq z := z * z;
  Simulation.rmax := Z.max;
  Simulation.rmin := Z.min;
  Simulation.rle := Z.leb;
  Simulation.rlt := Z.ltb
|}.

(** Two vertices, and one triangle whose vertex indices are aliases of
    vertices 0, 1 and 1 on a periodic mesh. *)
Definition sample_pVc : list (Simulation.real2 Z) :=
  [Simulation.mkReal2 1 2; Simulation.mkReal2 3 4].
Definition sample_pTv : list int3 := [mkInt3 0 3 (-1)].
Definition sample_pTl : list (Simulation.real3 Z) :=
  [Simulation.mkReal3 3 4 5].
Definition sample_pTn : list (Simulation.real2 Z) :=
  [Simulation.mkReal2 1 0].

Lemma sample_launch_ok : launch_ok (Dim 2 1) 2.
Proof. unfold launch_ok, geometry. simpl. vm_compute. intuition congruence. Qed.

Lemma CalcPotential_spec_witness :
  Simulation.CalcPotential (Dim 2 1) [0; 1; 0; 1]%nat 1 2
    MeshParameter.PROBLEM_SOURCE sample_pVc [7; 7; 7] = Some [6; 12; 7]
  ∧ (∀ i, ¬ (0 <= i < 2) → rd [6; 12; 7] i = rd [7; 7; 7] i).
Proof.
  split; [reflexivity |].
  apply (CalcPotential_spec MeshParameter.PROBLEM_SOURCE sample_pVc (Dim 2 1)
           [0; 1; 0; 1]%nat 1 2 [7; 7; 7] [6; 12; 7]).
  - intros _. exact sample_launch_ok.
  - reflexivity.
Defined.

Lemma CalcPotential_in_bounds_witness :
  (∃ sched r,
     Simulation.CalcPotential (Dim 2 1) sched 1 2
       MeshParameter.PROBLEM_SOURCE sample_pVc [7; 7; 7] = Some r)
  ↔ 2 <= 0 ∨
    (2 <= Z.of_nat (length [7; 7; 7]) ∧
     (MeshParameter.PROBLEM_SOURCE = MeshParameter.PROBLEM_SOURCE →
      2 <= Z.of_nat (length sample_pVc))).
Proof.
  apply (CalcPotential_in_bounds MeshParameter.PROBLEM_SOURCE sample_pVc).
  intros _. exact sample_launch_ok.
Defined.

Lemma CalcPotential_paths_witness :
  Simulation.CalcPotential (Dim 2 1) [0; 1; 0; 1]%nat 1 2
    MeshParameter.PROBLEM_SOURCE sample_pVc [7; 7; 7] = Some [6; 12; 7] ∧
  (∀ sched',
    Simulation.CalcPotential (Dim 2 1) sched' 0 2
      MeshParameter.PROBLEM_SOURCE sample_pVc [7; 7; 7] = Some [6; 12; 7]).
Proof.
  split; [reflexivity |].
  refine (proj1 (CalcPotential_paths MeshParameter.PROBLEM_SOURCE sample_pVc
                   (Dim 2 1) 2 [7; 7; 7] sample_launch_ok)
            [0; 1; 0; 1]%nat [6; 12; 7] eq_refl).
Defined.

Lemma sample_int3_range : int3_range (mkInt3 0 3 (-1)).
Proof.
  intros a Ha. simpl in Ha.
  repeat (apply elem_of_cons in Ha as [-> | Ha]; [lia |]).
  by apply elem_of_nil in Ha.
Qed.

Lemma CalcShockSensorSingle_in_bounds_witness :
  ∃ fuel0, ∀ fuel, (fuel0 <= fuel)%nat →
    ∃ v, Simulation.CalcShockSensorSingle Simulation.CL_BURGERS fuel 0 2
           sample_pTv sample_pTl sample_pTn sample_pTn sample_pTn 1 [5; 6]
           [0; 9] 1 1 [0; 0]
         = Some (<[Z.to_nat 0 := v]> [0; 9]).
Proof.
  destruct (CalcShockSensorSingle_in_bounds Simulation.CL_BURGERS 0 2
              sample_pTv sample_pTl sample_pTn sample_pTn sample_pTn 1 [0; 9]
              1 1 [0; 0] (mkInt3 0 3 (-1))) as [fuel0 Hf].
  - lia.
  - reflexivity.
  - exact sample_int3_range.
  - by eexists.
  - by eexists.
  - by eexists.
  - by eexists.
  - by eexists.
  - exists fuel0. intros fuel Hfuel.
    apply (proj1 (Hf fuel Hfuel) [5; 6]). reflexivity.
Defined.

Example CalcShockSensorSingle_sample :
  Simulation.CalcShockSensorSingle Simulation.CL_BURGERS 3 0 2
    sample_pTv sample_pTl sample_pTn sample_pTn sample_pTn 1 [5; 6] [0; 9]
    1 1 [0; 0] = Some [3; 9]
  ∧ Simulation.CalcShockSensorSingle Simulation.CL_BURGERS 1 0 2
      sample_pTv sample_pTl sample_pTn sample_pTn sample_pTn 1 [5; 6] [0; 9]
      1 1 [0; 0] = None.
Proof. split; reflexivity. Qed.

Lemma sample_triangle_launch_ok : 0 <= 1 ∧ launch_ok (Dim 2 1) 1.
Proof.
  split; [lia |]. unfold launch_ok, geometry. simpl. vm_compute.
  intuition congruence.
Qed.

Lemma CalcShockSensor_says_shock_witness :
  launch_ok (Dim 2 1) 1 ∧
  (∀ sched r,
    Simulation.CalcShockSensor Simulation.CL_CART_ISO 0 (Dim 2 1) sched 1 1 3
      2 1 [] [] [] [] [] ([] : list (Simulation.real3 Z)) [] [0; 9] 1 = Some r →
    says_shock 1 [0; 9] r).
Proof.
  split; [exact (proj2 sample_triangle_launch_ok) |].
  refine (λ sched r,
            proj2 (proj1 (CalcShockSensor_says_shock Simulation.CL_CART_ISO 0
                            (Dim 2 1) 1 1 3 2 1 [] [] [] [] [] [] [0; 9] 1
                            _ _) []) sched r).
  - intros _. exact sample_triangle_launch_ok.
  - simpl. lia.
Defined.

Lemma CalcShockSensor_in_bounds_witness :
  ∃ fuel0, ∀ fuel, (fuel0 <= fuel)%nat →
    ∃ sched r,
      Simulation.CalcShockSensor Simulation.CL_BURGERS fuel (Dim 2 1) sched 1
        1 3 2 1 sample_pTv sample_pTn sample_pTn sample_pTn sample_pTl
        [5; 6] [0; 0] [0; 9] 1 = Some r ∧
      length r = length [0; 9] ∧
      ∀ i, ¬ (0 <= i < 1) → rd r i = rd [0; 9] i.
Proof.
  destruct (CalcShockSensor_in_bounds Simulation.CL_BURGERS (Dim 2 1) 1 1 3
              2 1 sample_pTv sample_pTn sample_pTn sample_pTn sample_pTl
              [0; 0] [0; 9] 1) as [fuel0 Hf].
  - intros _. exact sample_triangle_launch_ok.
  - lia.
  - intros i Hi. replace i with 0 by lia. split_and!; try by eexists.
    exists (mkInt3 0 3 (-1)). split; [reflexivity | exact sample_int3_range].
  - simpl. lia.
  - exists fuel0. intros fuel Hfuel.
    apply (proj1 (Hf fuel Hfuel) [5; 6]). reflexivity.
Defined.

(** *** Symbolic reals

    The free interpretation of [real]: every literal and every operation
    is a constructor, so two results are equal only when the code
    computes them by the same operations on the same operands.  A
    comparison is decided on the integer values of its operands. *)
Inductive sym : Type :=
| SLit (s : string)
| SPi
| SInt (z : Z)
| SAdd (a b : sym)
| SSub (a b : sym)
| SMul (a b : sym)
| SDiv (a b : sym)
| SNeg (a : sym)
| SSqrt (a : sym)
| SRsqrt (a : sym)
| SCos (a : sym)
| SExp (a : sym)
| SAbs (a : sym)
| SSq (a : sym)
| SMax (a b : sym)
| SMin (a b : sym).

Fixpoint sym_value (a : sym) : Z :=
  match a with
  | SLit s => Simulation.lit s
  | SPi => Simulation.M_PI
  | SInt z => Simulation.of_int z
  | SAdd a b => Simulation.radd (sym_value a) (sym_value b)
  | SSub a b => Simulation.rsub (sym_value a) (sym_value b)
  | SMul a b => Simulation.rmul (sym_value a) (sym_value b)
  | SDiv a b => Simulation.rdiv (sym_value a) (sym_value b)
  | SNeg a => Simulation.rneg (sym_value a)
  | SSqrt a => Simulation.sqrt (sym_value a)
  | SRsqrt a => Simulation.rsqrtf (sym_value a)
  | SCos a => Simulation.cos (sym_value a)
  | SExp a => Simulation.exp (sym_value a)
  | SAbs a => Simulation.fabs (sym_value a)
  | SSq a => Simulation.Sq (sym_value a)
  | SMax a b => Simulation.rmax (sym_value a) (sym_value b)
  | SMin a b => Simulation.rmin (sym_value a) (sym_value b)
  end.

Global Instance sym_real : Simulation.RealOps sym := {|
  Simulation.lit := SLit;
  Simulation.M_PI := SPi;
  Simulation.of_int := SInt;
  Simulation.radd := SAdd;
  Simulation.rsub := SSub;
  Simulation.rmul := SMul;
  Simulation.rdiv := SDiv;
  Simulation.rneg := SNeg;
  Simulation.sqrt := SSqrt;
  Simulation.rsqrtf := SRsqrt;
  Simulation.cos := SCos;
  Simulation.exp := SExp;
  Simulation.fabs := SAbs;
  Simulation.Sq := SSq;
  Simulation.rmax := SMax;
  Simulation.rmin := SMin;
  Simulation.rle a b := Z.leb (sym_value a) (sym_value b);
  Simulation.rlt a b := Z.ltb (sym_value a) (sym_value b)
|}.

(** The mesh of the examples above with symbolic coordinates, edge
    lengths and normals. *)
Definition sym_pVc : list (Simulation.real2 sym) :=
  [Simulation.mkReal2 (SLit "x0") (SLit "y0");
   Simulation.mkReal2 (SLit "x1") (SLit "y1")].
Definition sym_pTl : list (Simulation.real3 sym) :=
  [Simulation.mkReal3 (SLit "l1") (SLit "l2") (SLit "l3")].
Definition sym_pTn : list (Simulation.real2 sym) :=
  [Simulation.mkReal2 (SLit "nx") (SLit "ny")].

Definition sym_state : list (Simulation.real3 sym) :=
  [Simulation.mkReal3 (SLit "a") (SLit "b") (SLit "c");
   Simulation.mkReal3 (SLit "d") (SLit "e") (SLit "f");
   Simulation.mkReal3 (SLit "g") (SLit "h") (SLit "i")].

(** The sensor of the one triangle for Burgers' equation, as a launch of
    two threads leaves it. *)
Definition sym_sensor : list sym :=
  Eval vm_compute in
    default []
      (Simulation.CalcShockSensor Simulation.CL_BURGERS 3 (Dim 2 1)
         [0; 1; 0]%nat 1 (SLit "vmin") (SLit "vmax") 2 1 sample_pTv sym_pTn
         sym_pTn sym_pTn sym_pTl [SLit "u0"; SLit "u1"] []
         [SLit "s0"; SLit "s1"] (SLit "G")).

Lemma CalcShockSensor_schedules_witness :
  Simulation.CalcShockSensor Simulation.CL_BURGERS 3 (Dim 2 1) [0; 1; 0]%nat
    1 (SLit "vmin") (SLit "vmax") 2 1 sample_pTv sym_pTn sym_pTn sym_pTn
    sym_pTl [SLit "u0"; SLit "u1"] [] [SLit "s0"; SLit "s1"] (SLit "G")
  = Some sym_sensor ∧
  rd sym_sensor 1 = Some (SLit "s1") ∧
  (∀ sched r,
     Simulation.CalcShockSensor Simulation.CL_BURGERS 3 (Dim 2 1) sched
       1 (SLit "vmin") (SLit "vmax") 2 1 sample_pTv sym_pTn sym_pTn sym_pTn
       sym_pTl [SLit "u0"; SLit "u1"] [] [SLit "s0"; SLit "s1"] (SLit "G")
     = Some r → r = sym_sensor).
Proof.
  split; [reflexivity |]. split; [reflexivity |]. intros sched r Hr.
  refine (CalcShockSensor_schedules Simulation.CL_BURGERS 3 (Dim 2 1)
            (SLit "vmin") (SLit "vmax") 2 1 sample_pTv sym_pTn sym_pTn
            sym_pTn sym_pTl [SLit "u0"; SLit "u1"] []
            [SLit "s0"; SLit "s1"] (SLit "G") sched [0; 1; 0]%nat r
            sym_sensor _ _ Hr eq_refl).
  - lia.
  - exact (proj2 sample_triangle_launch_ok).
Defined.

(** The state that [SetInitial] leaves for the vortex problem with three
    equations, on the accelerator path. *)
Definition sym_vortex : list (Simulation.real3 sym) :=
  Eval vm_compute in
    default []
      (Simulation.SetInitial (λ _, id) (λ _, id) Simulation.CL_CART_ISO
         (Dim 2 1) [0; 1; 0; 1]%nat 1 2 sym_pVc MeshParameter.PROBLEM_VORTEX
         [] sym_state (SLit "G") (SLit "t") (SLit "Px") (SLit "Py")).

Lemma SetInitial_overwrites_witness :
  (∃ sched r,
     Simulation.SetInitial (λ _, id) (λ _, id) Simulation.CL_CART_ISO
       (Dim 2 1) sched 1 2 sym_pVc MeshParameter.PROBLEM_VORTEX [] sym_state
       (SLit "G") (SLit "t") (SLit "Px") (SLit "Py") = Some r) ∧
  (∀ sched2 (state2 r2 : list (Simulation.real3 sym)),
     Simulation.SetInitial (λ _, id) (λ _, id) Simulation.CL_CART_ISO
       (Dim 2 1) sched2 1 2 sym_pVc MeshParameter.PROBLEM_VORTEX [] state2
       (SLit "G") (SLit "t") (SLit "Px") (SLit "Py") = Some r2 →
     (∀ n, 0 <= n < 2 →
           is_Some (rd sym_vortex n) ∧ rd sym_vortex n = rd r2 n) ∧
     length sym_vortex = length sym_state ∧
     (∀ n, ¬ (0 <= n < 2) → rd sym_vortex n = rd sym_state n)).
Proof.
  destruct (SetInitial_overwrites (realNeq := Simulation.real3 sym)
              (λ _, id) (λ _, id) Simulation.CL_CART_ISO (Dim 2 1) 1 2
              sym_pVc MeshParameter.PROBLEM_VORTEX [] (SLit "G") (SLit "t")
              (SLit "Px") (SLit "Py")) as [Hex Hall].
  - discriminate.
  - intros [? _]. discriminate.
  - intros _. exact sample_launch_ok.
  - split.
    + apply Hex; simpl; lia.
    + intros sched2 state2 r2 H2.
      exact (Hall [0; 1; 0; 1]%nat sched2 sym_state state2 sym_vortex r2
               eq_refl H2).
Defined.

Lemma SetInitial_uniform_witness :
  gives_default (λ _, reverse) (λ _, id) Simulation.CL_CART_ISO (Dim 2 1) 1 2
    sym_pVc MeshParameter.PROBLEM_KH [] (SLit "G") (SLit "t") (SLit "Px")
    (SLit "Py") (Simulation.mkReal3 (SLit "1.0") (SLit "0.0") (SLit "0.0"))
    sym_state ∧
  Simulation.SetInitial (λ _, reverse) (λ _, id) Simulation.CL_CART_ISO
    (Dim 2 1) [0; 1; 0; 1]%nat 1 2 sym_pVc MeshParameter.PROBLEM_KH []
    sym_state (SLit "G") (SLit "t") (SLit "Px") (SLit "Py")
  = Some (reverse
            [Simulation.mkReal3 (SLit "1.0") (SLit "0.0") (SLit "0.0");
             Simulation.mkReal3 (SLit "1.0") (SLit "0.0") (SLit "0.0");
             Simulation.mkReal3 (SLit "g") (SLit "h") (SLit "i")]).
Proof.
  split; [| reflexivity].
  refine (proj2 (SetInitial_uniform Simulation.CL_CART_ISO (Dim 2 1) 1 2
                   sym_pVc MeshParameter.PROBLEM_KH [] (SLit "G") (SLit "t")
                   (SLit "Px") (SLit "Py") _ _ _) (λ _, reverse) (λ _, id) _).
  - intros _. exact sample_launch_ok.
  - discriminate.
  - discriminate.
Defined.

(** ** More on [Array::SetToValue] *)

(** Subscript [j] is element [i] of a dimension below [nDims], with
    [startIndex <= i < endIndex]. *)
Definition in_block (startIndex endIndex realSize nDims j : Z) : Prop :=
  0 < realSize ∧ 0 <= j ∧ j / realSize < nDims ∧
  startIndex <= j mod realSize < endIndex.

Global Instance in_block_dec a c rS nD j : Decision (in_block a c rS nD j).
Proof. unfold in_block. apply _. Defined.

Lemma in_block_iff a c rS nD j :
  0 <= a → c <= rS →
  in_block a c rS nD j ↔
  ∃ n i, 0 <= n < nD ∧ a <= i < c ∧ j = i + n * rS.
Proof.
  intros Ha Hc. unfold in_block. split.
  - intros (HrS & Hj & Hdiv & Hmod). exists (j / rS), (j mod rS).
    split_and!; [apply Z.div_pos; lia | lia | lia | lia |].
    rewrite (Z.div_mod j rS) at 1 by lia. lia.
  - intros (n & i & Hn & Hi & ->).
    assert (0 < rS) as HrS by lia.
    rewrite Z.div_add, Z.mod_add, Z.div_small, Z.mod_small by lia.
    split_and!; nia.
Qed.

(** The storage after the host loops, subscript by subscript. *)
Lemma hostSetToValue_rd {T} (value : T) a c rS nD m0 m :
  0 <= a → c <= rS → nD * rS <= 4294967296 →
  Array.hostSetToValue value a c rS nD m0 = Some m →
  length m = length m0 ∧
  ∀ j, rd m j = if decide (in_block a c rS nD j) then Some value
                else rd m0 j.
Proof.
  intros Ha Hc Hsize Hhost.
  apply hostSetToValue_post in Hhost as (Hlen & Hin & Hout); [| done ..].
  split; [done |]. intros j. case_decide as Hb.
  - apply in_block_iff in Hb as (n & i & Hn & Hi & ->); [| done | done].
    by apply Hin.
  - apply Hout. intros n i Hn Hi ->. apply Hb. apply in_block_iff; [done ..|].
    by exists n, i.
Qed.


Lemma array_ok_set_vec {T} (A : Array.Array T) m :
  array_ok A → length m = length (Array.vec A) →
  array_ok (Array.set_vec A m).
Proof. unfold array_ok. simpl. by intros ? ->. Qed.

(** X17: [SetToValue(value)] sets the elements in use, those below [size], in
    every dimension, and leaves the reserve between [size] and
    [realSize] as it was. *)
Theorem SetToValue_all {T} g (v : T) A :
  array_ok A →
  Array.cudaFlag A = 0 ∨ Array.cudaFlag A = 1 →
  (Array.cudaFlag A = 1 → set_launch_ok g A 0 (Array.size A)) →
  Array.size A <= Array.realSize A →
  (∃ sched A', Array.SetToValue1 g sched v A = Some A') ∧
  ∀ sched A',
    Array.SetToValue1 g sched v A = Some A' →
    (∀ n i, 0 <= n < Array.nDims A → 0 <= i < Array.size A →
            rd (Array.vec A') (i + n * Array.realSize A) = Some v) ∧
    (∀ n i, 0 <= n < Array.nDims A →
            Array.size A <= i < Array.realSize A →
            rd (Array.vec A') (i + n * Array.realSize A)
            = rd (Array.vec A) (i + n * Array.realSize A)) ∧
    A' = Array.set_vec A (Array.vec A').
Proof.
  intros Hok Hflag Hlaunch Hsz.
  pose proof Hok as (HnD & HrS & Hlen & Hsize). split.
  - destruct (hostSetToValue_defined v 0 (Array.size A) (Array.realSize A)
                (Array.nDims A) ltac:(lia) Hsz Hsize (Array.vec A)) as [m Hm];
      [lia |].
    destruct (SetToValue_exists g v 0 (Array.size A) A m Hm Hflag Hlaunch
                Hok ltac:(lia) Hsz) as [sched Hs].
    exists sched, (Array.set_vec A m). by rewrite SetToValue1_range.
  - intros sched A' Hset. rewrite SetToValue1_range in Hset.
    destruct (SetToValue_host _ _ _ _ _ _ _ Hset Hflag Hlaunch Hok
                ltac:(lia) Hsz) as (m & Hm & ->).
    apply hostSetToValue_rd in Hm as [_ Hrd]; [| lia | done | done].
    simpl. split_and!; [| | done].
    + intros n i Hn Hi. rewrite Hrd, decide_True; [done |].
      apply in_block_iff; [lia | done |]. by exists n, i.
    + intros n i Hn Hi. rewrite Hrd, decide_False; [done |].
      intros Hb. apply in_block_iff in Hb as (n' & i' & Hn' & Hi' & Heq);
        [| lia | done].
      assert (n = n') by nia. subst. lia.
Qed.

Section Compose.
Context {T : Type}.
Variables (g : dim) (v : T) (A : Array.Array T).
Hypothesis Hok : array_ok A.
Hypothesis Hflag : Array.cudaFlag A = 0 ∨ Array.cudaFlag A = 1.

Lemma SetToValue_rd sched a c A' :
  (Array.cudaFlag A = 1 → set_launch_ok g A a c) →
  0 <= a → c <= Array.realSize A →
  Array.SetToValue g sched v a c A = Some A' →
  ∃ m, A' = Array.set_vec A m ∧ length m = length (Array.vec A) ∧
    ∀ j, rd m j
         = if decide (in_block a c (Array.realSize A) (Array.nDims A) j)
           then Some v else rd (Array.vec A) j.
Proof.
  intros Hl Ha Hc Hset. pose proof Hok as (HnD & HrS & Hlen & Hsize).
  destruct (SetToValue_host _ _ _ _ _ _ _ Hset Hflag Hl Hok Ha Hc)
    as (m & Hm & ->).
  apply hostSetToValue_rd in Hm as [Hl' Hrd]; [| done ..]. by exists m.
Qed.
End Compose.

(** X18: Filling [[a, b)] and then [[b, c)] with the same value is filling
    [[a, c)]. *)
Theorem SetToValue_adjacent {T} g (v : T) A a b c s1 s2 s3 A1 A2 A3 :
  array_ok A →
  Array.cudaFlag A = 0 ∨ Array.cudaFlag A = 1 →
  (Array.cudaFlag A = 1 → set_launch_ok g A a c) →
  0 <= a → a <= b → b <= c → c <= Array.realSize A →
  Array.SetToValue g s1 v a b A = Some A1 →
  Array.SetToValue g s2 v b c A1 = Some A2 →
  Array.SetToValue g s3 v a c A = Some A3 →
  A2 = A3.
Proof.
  intros Hok Hflag Hl Ha Hab Hbc Hc H1 H2 H3.
  assert (∀ s e, s <= c → e <= c →
            Array.cudaFlag A = 1 → set_launch_ok g A s e) as Hl'.
  { intros s e Hs He Hf. destruct (Hl Hf) as (Hg & H4 & H5 & H6 & H7).
    unfold set_launch_ok. split_and!; [done | lia | lia | done | done]. }
  apply (SetToValue_rd g v A Hok Hflag) in H1 as (m1 & -> & Hlen1 & Hrd1);
    [| apply Hl'; lia | lia | lia].
  apply (SetToValue_rd g v A Hok Hflag) in H3 as (m3 & -> & Hlen3 & Hrd3);
    [| done | lia | lia].
  apply (SetToValue_rd g v) in H2 as (m2 & -> & Hlen2 & Hrd2);
    [| by apply array_ok_set_vec | done | apply Hl'; lia | lia | done].
  simpl in *. unfold Array.set_vec. simpl. f_equal.
  apply rd_ext; [congruence |]. intros j x.
  rewrite Hrd2, Hrd1, Hrd3.
  repeat case_decide; try done; exfalso; unfold in_block in *;
    remember (j mod Array.realSize A) as r;
    remember (j / Array.realSize A) as q; lia.
Qed.


Lemma sample_set_launch_ok a c :
  a <= 4 → c <= 4 → set_launch_ok (Dim 2 2) (sample_array 1) a c.
Proof.
  intros Ha Hc. unfold set_launch_ok, geometry.
  change (grid_stride (Dim 2 2)) with 4. simpl. lia.
Qed.

Lemma SetToValue_all_witness :
  (∃ sched A', Array.SetToValue1 (Dim 2 2) sched 9 (sample_array 1) = Some A') ∧
  ∀ sched A',
    Array.SetToValue1 (Dim 2 2) sched 9 (sample_array 1) = Some A' →
    (∀ n i, 0 <= n < 2 → 0 <= i < 3 →
            rd (Array.vec A') (i + n * 4) = Some 9) ∧
    (∀ n i, 0 <= n < 2 → 3 <= i < 4 →
            rd (Array.vec A') (i + n * 4)
            = rd [1; 2; 3; 4; 5; 6; 7; 8] (i + n * 4)) ∧
    A' = Array.set_vec (sample_array 1) (Array.vec A').
Proof.
  apply (SetToValue_all (Dim 2 2) 9 (sample_array 1)).
  - unfold array_ok. simpl. lia.
  - by right.
  - intros _. apply sample_set_launch_ok; simpl; lia.
  - simpl. lia.
Defined.

Lemma SetToValue_adjacent_witness :
  Array.SetToValue (Dim 2 2) [0; 0; 0; 0]%nat 9 0 1 (sample_array 1)
  = Some (Array.mk 2 1 3 4 [9; 2; 3; 4; 9; 6; 7; 8]) ∧
  (∀ s3 A3,
    Array.SetToValue (Dim 2 2) s3 9 0 3 (sample_array 1) = Some A3 →
    Array.mk 2 1 3 4 [9; 9; 9; 4; 9; 9; 9; 8] = A3).
Proof.
  split; [reflexivity |].
  intros s3 A3.
  apply (SetToValue_adjacent (Dim 2 2) 9 (sample_array 1) 0 1 3
           [0; 0; 0; 0]%nat
           [0; 1; 2; 3; 0; 1; 2; 3; 0; 1; 2; 3; 0; 1; 2; 3]%nat s3
           (Array.mk 2 1 3 4 [9; 2; 3; 4; 9; 6; 7; 8])).
  - unfold array_ok. simpl. lia.
  - by right.
  - intros _. apply sample_set_launch_ok; lia.
  - lia.
  - lia.
  - lia.
  - simpl. lia.
  - reflexivity.
  - reflexivity.
Defined.


(** ** More on edge repair *)

(** X20: [EdgeRepair] stays inside its arrays, and returns, exactly when each
    of the first [nEdgeCheck] candidates is there, every edge it repairs
    has an entry, and the triangles the entry names are subscripts of the
    substitute array and of the triangle-edge table. *)
Theorem EdgeRepair_in_bounds g D c enc n :
  (cudaFlag D = 1 → launch_ok g (pass_size enc n c)) → once enc n →
  (∃ sched r, EdgeRepair g sched D c enc n = Some r) ↔
  (∀ pEnC k, enc = Some pEnC → 0 <= k < n → is_Some (rd pEnC k)) ∧
  (∀ i, processed enc n c i →
     ∃ et, rd (edgeTriangles c) i = Some et ∧
           slots_in_bounds (triangleSubstitute D) (triangleEdges c) et).
Proof.
  intros Hok Honce. split.
  - intros (sched & [D' c'] & Hrep). split.
    + intros pEnC k -> Hk.
      apply EdgeRepair_host in Hrep; [| done | done]. simpl in Hrep.
      destruct (repair_limit_entries _ _ _ _ _ _ Honce Hrep k Hk)
        as (e & _ & _ & -> & _). by eexists.
    + intros i Hi.
      destruct (EdgeRepair_entries _ _ _ _ _ _ _ _ Hrep Hok Honce i Hi)
        as (et & et' & Het & Hr & _).
      exists et. split; [done |]. apply (repair_entry_defined i).
      by eexists.
  - intros [Hcand Hproc].
    assert (is_Some (host_pass (triangleSubstitute D) c enc n)) as [pEt' Hh].
    { destruct enc as [pEnC |]; simpl in *.
      - apply repair_limit_defined; [done |]. intros k Hk.
        destruct (Hcand pEnC k eq_refl Hk) as [e He].
        destruct (Hproc e) as (et & Het & Hb); [by exists k |].
        by exists e, et.
      - apply repair_all_defined. intros i Hi.
        destruct (Hproc i Hi) as (et & Het & Hb).
        destruct (proj2 (repair_entry_defined i _ _ et) Hb) as [et' Hr].
        by exists et, et'. }
    destruct (EdgeRepair_exists g D c enc n pEt' Hh Hok Honce) as [sched Hs].
    by eauto.
Qed.

(** A thread that has returned stays as it is. *)
Lemma run_returned {Ctl Item Reg Mem} (K : kernel Ctl Item Reg Mem)
    sched pool m :
  Forall (λ th, returned K th = true) pool →
  run K sched pool m = Some (pool, m).
Proof.
  intros Hret. induction sched as [| k sched IH]; simpl; [done |].
  destruct (pool !! k) as [th |] eqn:Hk; [| done].
  pose proof (proj1 (Forall_lookup _ _) Hret k th Hk) as Hth.
  unfold returned in Hth. unfold thread_step.
  destruct (reg th); [done |].
  destruct (k_next K (ctl th)); [done |]. simpl.
  by rewrite list_insert_id.
Qed.

(** A grid-stride launch over no index returns at once. *)
Lemma launch_no_work {Reg V} (K : kernel Z Z Reg (list V)) g N sched m :
  (∀ i, k_next K i = stride_next N (grid_stride g) i) →
  geometry g → N <= 0 →
  launch K (s32 <$> thread_ids g) sched m = Some m.
Proof.
  intros Hnext Hg HN. unfold launch.
  assert (Forall (λ th, returned K th = true)
            ((λ c, Thread c None) <$> (s32 <$> thread_ids g))) as Hret.
  { rewrite thread_inits_seqZ by done. apply Forall_fmap, Forall_seqZ.
    intros i Hi. unfold returned. simpl. rewrite Hnext. unfold stride_next.
    by rewrite decide_False by lia. }
  rewrite run_returned by done. simpl.
  assert (forallb (returned K)
            ((λ c, Thread c None) <$> (s32 <$> thread_ids g)) = true) as ->;
    [| done].
  apply forallb_forall. intros th Hth.
  by apply (proj1 (Forall_forall _ _) Hret), list_elem_of_In.
Qed.

(** X21: With nothing to repair (a candidate count of zero or less, or a mesh
    without edges) [EdgeRepair] returns the mesh as it is, whatever the
    candidate list and the other tables hold. *)
Theorem EdgeRepair_no_work g sched D c enc n :
  (cudaFlag D = 1 → geometry g) → pass_size enc n c <= 0 →
  EdgeRepair g sched D c enc n = Some (D, c).
Proof.
  intros Hg HN. unfold EdgeRepair.
  assert (∀ {S} (body : Z → S → option S) N s, N <= 0 →
            for_lt 0 N body s = Some s) as Hfor.
  { intros S body N s HN0. unfold for_lt.
    by rewrite Z2Nat.nonpos by lia. }
  destruct c as [pTe pEt]. simpl in *.
  destruct enc as [pEnC |]; simpl in HN; case_decide as Hflag.
  - by rewrite (launch_no_work _ g n) by auto.
  - by rewrite Hfor.
  - by rewrite (launch_no_work _ g (Z.of_nat (length pEt))) by auto.
  - by rewrite Hfor.
Qed.

Lemma EdgeRepair_in_bounds_witness :
  (∃ sched r,
     EdgeRepair (Dim 2 1) sched (chain_D 1) frame_c (Some [0]) 1 = Some r) ↔
  (∀ pEnC k, Some [0] = Some pEnC → 0 <= k < 1 → is_Some (rd pEnC k)) ∧
  (∀ i, processed (Some [0]) 1 frame_c i →
     ∃ et, rd (edgeTriangles frame_c) i = Some et ∧
           slots_in_bounds (triangleSubstitute (chain_D 1))
             (triangleEdges frame_c) et).
Proof.
  apply (EdgeRepair_in_bounds (Dim 2 1) (chain_D 1) frame_c (Some [0]) 1).
  - intros _. unfold launch_ok, geometry. simpl. vm_compute.
    intuition congruence.
  - intros k1 k2 e Hk1 Hk2 _ _. lia.
Defined.

Lemma EdgeRepair_no_work_witness :
  EdgeRepair (Dim 2 1) [1; 0]%nat (chain_D 1) frame_c (Some [7; 7]) 0
  = Some (chain_D 1, frame_c).
Proof.
  apply (EdgeRepair_no_work (Dim 2 1) [1; 0]%nat (chain_D 1) frame_c
           (Some [7; 7]) 0).
  - intros _. unfold geometry. simpl. lia.
  - simpl. lia.
Defined.

(** ** The reduction loops on a mesh without vertices *)

Lemma while_ge_zero fuel a :
  -2147483648 <= a < 2147483648 → 0 <= a → while_ge fuel 0 a = None.
Proof.
  intros Hr Ha. induction fuel as [| fuel IH]; simpl; [done |].
  rewrite decide_True by lia. by rewrite Z.sub_0_r, s32_id.
Qed.

Lemma while_neg_zero fuel a :
  -2147483648 <= a < 2147483648 → a < 0 → while_neg fuel 0 a = None.
Proof.
  intros Hr Ha. induction fuel as [| fuel IH]; simpl; [done |].
  rewrite decide_True by lia. by rewrite Z.add_0_r, s32_id.
Qed.

Lemma while_ge_exit fuel n a a' :
  while_ge fuel n a = Some a' →
  a' < n ∧ (-2147483648 <= a < 2147483648 → -2147483648 <= a' < 2147483648).
Proof.
  revert a. induction fuel as [| fuel IH]; intros a; simpl; [done |].
  case_decide as Hge.
  - intros H. apply IH in H as [Hlt Hr]. split; [done |]. intros _.
    apply Hr. unfold s32.
    pose proof (Z.mod_pos_bound (a - n + 2147483648) 4294967296). lia.
  - intros [= <-]. split; [lia | done].
Qed.

Lemma reduce_index_zero fuel a :
  -2147483648 <= a < 2147483648 → reduce_index fuel 0 a = None.
Proof.
  intros Hr. unfold reduce_index.
  destruct (while_ge fuel 0 a) as [a' |] eqn:Hge; simpl; [| done].
  apply while_ge_exit in Hge as [Hlt Hr']. apply while_neg_zero; auto.
Qed.

(** X22: On a mesh with no vertices the index reduction of
    [CalcShockSensorSingle] does not end: once the triangle is read, no
    number of iterations brings its first vertex into range. *)
Theorem triangle_vertices_no_vertices fuel i pTv tv :
  rd pTv i = Some tv → int3_range tv →
  triangle_vertices fuel i 0 pTv = None ∧
  reduce_index fuel 0 (x3 tv) = None.
Proof.
  intros Htv Hr. split; [| apply reduce_index_zero, Hr; by left].
  unfold triangle_vertices. rewrite Htv. simpl.
  destruct (while_ge fuel 0 (x3 tv)) as [a |] eqn:Ha; simpl; [| done].
  destruct (while_ge fuel 0 (y3 tv)) as [b |] eqn:Hb; simpl; [| done].
  destruct (while_ge fuel 0 (z3 tv)) as [c |] eqn:Hc; simpl; [| done].
  apply while_ge_exit in Ha as [Hlt Hr'].
  rewrite (while_neg_zero fuel a); [reflexivity | apply Hr', Hr; by left | done].
Qed.

Lemma triangle_vertices_no_vertices_witness :
  triangle_vertices 1000 0 0 sample_pTv = None ∧
  reduce_index 1000 0 (x3 (mkInt3 0 3 (-1))) = None.
Proof.
  apply (triangle_vertices_no_vertices 1000 0 sample_pTv (mkInt3 0 3 (-1))).
  - reflexivity.
  - exact sample_int3_range.
Defined.

(** ** [Array::SelectWhereDifferent] *)

Section WhereDifferent.
Context {T : Type} `{EqDecision T}.
Variables (data compareData : list T).

(** The flag of element [i]. *)
Definition differ_flag (i : Z) : option Z :=
  d ← rd data i; c ← rd compareData i;
  Some (if decide (d ≠ c) then 1 else 0).

Lemma hostSelectWhereDifferent_exec g N (m : list Z) :
  Array.hostSelectWhereDifferent N data compareData m =
  for_lt 0 N (exec (Array.devSelectWhereDifferent g N data compareData)) m.
Proof.
  unfold Array.hostSelectWhereDifferent. rewrite !for_lt_exec_list.
  apply exec_list_ext. intros i p. unfold exec. simpl.
  destruct (rd data i); simpl; [| done]. by destruct (rd compareData i).
Qed.
End WhereDifferent.

Section WhereDifferentPaths.
Context {T : Type} `{EqDecision T}.
Variables (g : dim) (fresh1 : list Z) (self A : Array.Array T).
Hypothesis Hsize : 0 <= Array.size self.
Hypothesis Hok : Array.cudaFlag self = 1 → launch_ok g (Array.size self).

Lemma SelectWhereDifferent_flags_host sched m :
  Array.SelectWhereDifferent_flags g sched fresh1 self A = Some m →
  for_lt 0 (Array.size self)
    (exec (Array.devSelectWhereDifferent g (Array.size self)
             (Array.vec self) (Array.vec A))) fresh1 = Some m.
Proof.
  unfold Array.SelectWhereDifferent_flags. simpl. case_decide as Hflag.
  - destruct (Hok Hflag) as [Hg HN]. pose proof (grid_stride_pos g Hg).
    rewrite s32_id by lia. rewrite thread_inits_seqZ by done.
    apply (map_paths
             (Array.devSelectWhereDifferent g (Array.size self)
                (Array.vec self) (Array.vec A))
             (differ_flag (Array.vec self) (Array.vec A))
             g (Array.size self) (λ i _, eq_refl) (λ i m _, eq_refl)
             (λ i r m, eq_refl) Hg HN).
  - by rewrite (hostSelectWhereDifferent_exec _ _ g).
Qed.

Lemma SelectWhereDifferent_flags_exists m :
  for_lt 0 (Array.size self)
    (exec (Array.devSelectWhereDifferent g (Array.size self)
             (Array.vec self) (Array.vec A))) fresh1 = Some m →
  ∃ sched, Array.SelectWhereDifferent_flags g sched fresh1 self A = Some m.
Proof.
  unfold Array.SelectWhereDifferent_flags. simpl. intros Hhost.
  case_decide as Hflag.
  - destruct (Hok Hflag) as [Hg HN]. pose proof (grid_stride_pos g Hg).
    rewrite s32_id by lia. rewrite thread_inits_seqZ by done.
    by apply (map_paths
                (Array.devSelectWhereDifferent g (Array.size self)
                   (Array.vec self) (Array.vec A))
                (differ_flag (Array.vec self) (Array.vec A))
                g (Array.size self) (λ i _, eq_refl) (λ i m _, eq_refl)
                (λ i r m, eq_refl) Hg HN).
  - exists []. by rewrite (hostSelectWhereDifferent_exec _ _ g).
Qed.

(** What either path leaves in the scratch array. *)
Lemma where_different_post sched m :
  Array.SelectWhereDifferent_flags g sched fresh1 self A = Some m →
  length m = length fresh1 ∧
  (∀ i, 0 <= i < Array.size self →
     ∃ v, differ_flag (Array.vec self) (Array.vec A) i = Some v ∧
          rd m i = Some v) ∧
  (∀ i, ¬ (0 <= i < Array.size self) → rd m i = rd fresh1 i).
Proof.
  intros Hsel. apply SelectWhereDifferent_flags_host in Hsel.
  by apply (map_host_post
              (Array.devSelectWhereDifferent g (Array.size self)
                 (Array.vec self) (Array.vec A))
              (differ_flag (Array.vec self) (Array.vec A))
              g (Array.size self) (λ i m _, eq_refl) (λ i r m, eq_refl))
    in Hsel.
Qed.

(** X23: On either path the flag stage of [SelectWhereDifferent] stores, for
    every index below [size], 1 when the receiver and [A] differ there
    and 0 when they agree; the rest of the scratch array is as
    allocated. *)
Theorem SelectWhereDifferent_flags_spec sched m :
  Array.SelectWhereDifferent_flags g sched fresh1 self A = Some m →
  length m = length fresh1 ∧
  (∀ i, 0 <= i < Array.size self →
     ∃ d c, rd (Array.vec self) i = Some d ∧ rd (Array.vec A) i = Some c ∧
            rd m i = Some (if decide (d = c) then 0 else 1)) ∧
  (∀ i, ¬ (0 <= i < Array.size self) → rd m i = rd fresh1 i).
Proof.
  intros Hsel. apply where_different_post in Hsel as (Hlen & Hval & Hfr).
  split_and!; [done | | done].
  intros i Hi. destruct (Hval i Hi) as (v & Hv & Hrd).
  unfold differ_flag in Hv.
  destruct (rd (Array.vec self) i) as [d |]; simpl in Hv; [| done].
  destruct (rd (Array.vec A) i) as [c |]; simpl in Hv; [| done].
  exists d, c. split_and!; [done | done |]. rewrite Hrd. simplify_eq.
  by repeat case_decide.
Qed.

(** X24: The flag stage stays inside its arrays, and returns, exactly when the
    receiver, the array it is compared with and the scratch array all
    have [size] elements or more. *)
Theorem SelectWhereDifferent_in_bounds :
  (∃ sched m, Array.SelectWhereDifferent_flags g sched fresh1 self A = Some m)
  ↔ Array.size self <= Z.of_nat (length (Array.vec self)) ∧
    Array.size self <= Z.of_nat (length (Array.vec A)) ∧
    Array.size self <= Z.of_nat (length fresh1).
Proof.
  pose proof (map_host_defined
                (Array.devSelectWhereDifferent g (Array.size self)
                   (Array.vec self) (Array.vec A))
                (differ_flag (Array.vec self) (Array.vec A))
                g (Array.size self) (λ i m _, eq_refl) (λ i r m, eq_refl)
                fresh1) as Hdef.
  split.
  - intros (sched & m & Hsel). apply SelectWhereDifferent_flags_host in Hsel.
    destruct (decide (Array.size self = 0)) as [-> | Hpos]; [lia |].
    destruct (proj1 Hdef (mk_is_Some _ _ Hsel) (Array.size self - 1))
      as [Hlt [v Hv]]; [lia |].
    unfold differ_flag in Hv.
    destruct (rd (Array.vec self) _) as [d |] eqn:Hd; simpl in Hv; [| done].
    destruct (rd (Array.vec A) _) as [c |] eqn:Hc; simpl in Hv; [| done].
    apply rd_Some in Hd as [_ Hd]. apply lookup_lt_Some in Hd.
    apply rd_Some in Hc as [_ Hc]. apply lookup_lt_Some in Hc. lia.
  - intros (Hs & Ha & Hf).
    destruct (proj2 Hdef) as [m Hm].
    { intros i Hi. split; [lia |]. unfold differ_flag.
      destruct (proj2 (rd_is_Some (Array.vec self) i)) as [d ->]; [lia |].
      destruct (proj2 (rd_is_Some (Array.vec A) i)) as [c ->]; [lia |].
      by eexists. }
    destruct (SelectWhereDifferent_flags_exists m Hm) as [sched Hs'].
    by eauto.
Qed.
End WhereDifferentPaths.


(** X25: A receiver compared with an array that agrees with it below [size]
    has every flag zero: nothing is selected. *)
Theorem SelectWhereDifferent_same {T} `{EqDecision T} g sched fresh1
    (self A : Array.Array T) m :
  0 <= Array.size self →
  (Array.cudaFlag self = 1 → launch_ok g (Array.size self)) →
  (∀ i, 0 <= i < Array.size self →
        rd (Array.vec A) i = rd (Array.vec self) i) →
  Array.SelectWhereDifferent_flags g sched fresh1 self A = Some m →
  ∀ i, 0 <= i < Array.size self → rd m i = Some 0.
Proof.
  intros Hsize Hok Hsame Hsel i Hi.
  destruct (where_different_post g fresh1 self A Hsize Hok sched m Hsel)
    as (_ & Hval & _).
  destruct (Hval i Hi) as (v & Hv & ->). unfold differ_flag in Hv.
  rewrite Hsame in Hv by done.
  destruct (rd (Array.vec self) i) as [d |]; simpl in Hv; [| done].
  rewrite decide_False in Hv by (by intros ?). by simplify_eq.
Qed.

(** Two arrays of three elements in use that differ in the second. *)
Definition sample_compare : Array.Array Z :=
  Array.mk 2 1 3 4 [1; 0; 3; 9; 5; 6; 7; 9].

Lemma sample_select_launch_ok :
  Array.cudaFlag (sample_array 1) = 1 →
  launch_ok (Dim 2 1) (Array.size (sample_array 1)).
Proof.
  intros _. unfold launch_ok, geometry.
  replace (grid_stride (Dim 2 1)) with 2 by reflexivity. simpl. lia.
Qed.

Lemma SelectWhereDifferent_flags_spec_witness :
  length [0; 1; 0; 7] = length [7; 7; 7; 7] ∧
  (∀ i, 0 <= i < 3 →
     ∃ d c, rd (Array.vec (sample_array 1)) i = Some d ∧
            rd (Array.vec sample_compare) i = Some c ∧
            rd [0; 1; 0; 7] i = Some (if decide (d = c) then 0 else 1)) ∧
  (∀ i, ¬ (0 <= i < 3) → rd [0; 1; 0; 7] i = rd [7; 7; 7; 7] i).
Proof.
  apply (SelectWhereDifferent_flags_spec (Dim 2 1) [7; 7; 7; 7]
           (sample_array 1) sample_compare ltac:(simpl; lia)
           sample_select_launch_ok [0; 1; 0; 1; 0; 1; 0; 1]%nat [0; 1; 0; 7]).
  reflexivity.
Defined.

Lemma SelectWhereDifferent_in_bounds_witness :
  (∃ sched m,
     Array.SelectWhereDifferent_flags (Dim 2 1) sched [7; 7]
       (sample_array 1) sample_compare = Some m)
  ↔ 3 <= 8 ∧ 3 <= 8 ∧ 3 <= 2.
Proof.
  apply (SelectWhereDifferent_in_bounds (Dim 2 1) [7; 7] (sample_array 1)
           sample_compare ltac:(simpl; lia) sample_select_launch_ok).
Defined.

Lemma SelectWhereDifferent_same_witness :
  Array.SelectWhereDifferent_flags (Dim 2 1) [0; 1; 0; 1; 0; 1; 0; 1]%nat
    [7; 7; 7; 7] (sample_array 1) (Array.mk 1 1 3 3 [1; 2; 3])
  = Some [0; 0; 0; 7] ∧
  (∀ i, 0 <= i < 3 → rd [0; 0; 0; 7] i = Some 0).
Proof.
  split; [reflexivity |].
  apply (SelectWhereDifferent_same (Dim 2 1) [0; 1; 0; 1; 0; 1; 0; 1]%nat
           [7; 7; 7; 7] (sample_array 1)
           (Array.mk 1 1 3 3 [1; 2; 3]) [0; 0; 0; 7]).
  - simpl. lia.
  - exact sample_select_launch_ok.
  - intros i Hi. simpl in Hi.
    assert (i = 0 ∨ i = 1 ∨ i = 2) as [-> | [-> | ->]] by lia; reflexivity.
  - reflexivity.
Defined.
